(** * htop [Machine.c]: table registry, scan cycle and resident-memory
      accumulation over the process tree.

    The C functions of [Machine.c] are embedded as Rocq functions in a small
    state-and-abort monad.  Mutable objects reached through pointers (the
    rows of the process table, the [Machine] object, the function-local
    [static] flag of [Machine_scanTables]) are components of an explicit
    state.  Recursion of [Machine_populateAccForProcess] is bounded by a
    [fuel] argument that stands for the depth of the C call stack. *)

(** The file has the embedding of the source first, then the two
    instrumented copies of the accumulation (iterations counted, contributions
    recorded), the vocabulary of the properties and the inputs of the
    examples; the lemmas and the theorems on the claims follow. *)

From Stdlib Require Import ZArith Lia.
From stdpp Require Import base tactics option list list_numbers relations.

#[local] Open Scope Z_scope.

(** ** A state monad with abort *)

(** Ways in which an execution stops without returning. *)
Inductive error : Type :=
| OutOfFuel   (* recursion deeper than the fuel: the C stack is exhausted *)
| BadIndex    (* [Vector_get] outside of the vector *)
| AssertFail. (* a failed [assert] *)

(** The outcome of a computation on a state of type [St]: a value and the
    new state, or an abort together with the state reached at that point. *)
Inductive result (St A : Type) : Type :=
| Ret (a : A) (s : St)
| Abort (e : error) (s : St).
Arguments Ret {St A} a s.
Arguments Abort {St A} e s.

Definition M (St A : Type) : Type := St -> result St A.

Definition ret {St A} (a : A) : M St A := fun s => Ret a s.

Definition bind {St A B} (c : M St A) (k : A -> M St B) : M St B :=
  fun s => match c s with
           | Ret a s' => k a s'
           | Abort e s' => Abort e s'
           end.

Definition abort {St A} (e : error) : M St A := fun s => Abort e s.
Definition get {St} : M St St := fun s => Ret s s.

Notation "'do' x <- c ; k" := (bind c (fun x => k))
  (at level 10, x name, c at level 100, k at level 200).
Notation "c ;; k" := (bind c (fun _ => k))
  (at level 100, k at level 200, right associativity).

(** [for (int i = 0; i < n; i++) body] runs [body] on [seq 0 n] in order. *)
Fixpoint for_each {St} (l : list nat) (body : nat -> M St unit) : M St unit :=
  match l with
  | [] => ret tt
  | i :: l' => body i ;; for_each l' body
  end.

Definition assert {St} (b : bool) : M St unit :=
  if b then ret tt else abort AssertFail.

(** ** Rows of the process table *)

(** The fields of [Row] and [Process] (declared in [Row.h] and [Process.h])
    that [Machine.c] reads or writes.  [id] and [parent] are C [int]s that are
    only compared; [m_resident] and [m_accResident] are C [long]s.  They are
    integers of [Z] here: signed overflow is undefined in C, so the model
    describes the executions in which no sum leaves the range of [long]. *)
Record Process : Type := mkProcess {
  id : Z;
  parent : Z;
  m_resident : Z;
  m_accResident : Z;
}.

(** The vector [processTable->rows]: entry [i] is the object that
    [Vector_get(rows, i)] points to; distinct entries are distinct objects. *)
Abbreviation Vector := (list Process).

Definition set_accResident (v : Z) (p : Process) : Process :=
  {| id := id p; parent := parent p; m_resident := m_resident p;
     m_accResident := v |}.

Definition set_resident (v : Z) (p : Process) : Process :=
  {| id := id p; parent := parent p; m_resident := v;
     m_accResident := m_accResident p |}.

(** [Vector_size(rows)] *)
Definition Vector_size : M Vector nat := fun s => Ret (length s) s.

(** [Vector_get(rows, i)]: the row at index [i]; no row outside the vector. *)
Definition Vector_get (i : nat) : M Vector Process :=
  fun s => match s !! i with
           | Some p => Ret p s
           | None => Abort BadIndex s
           end.

(** A write through the pointer [Vector_get(rows, i)]: the object at index
    [i] is replaced by [f] of itself. *)
Definition Process_update (i : nat) (f : Process -> Process) : M Vector unit :=
  do p <- Vector_get i; fun s => Ret tt (<[i := f p]> s).

(** ** The accumulation *)

(** One iteration of the [for] loop of [Machine_populateAccForProcess]
    (lines 107 to 113), for the row at index [cur] whose identifier is
    [row_id]; [recurse] is the recursive call.  In
    [process->m_accResident += f(...)] the call is made first and the field is
    read afterwards; C leaves the order open, and the two orders agree as long
    as the row being computed does not hold the sentinel, since no nested call
    then writes to it. *)
Definition accumulate_child (recurse : nat -> M Vector Z)
    (cur : nat) (row_id : Z) (i : nat) : M Vector unit :=
  if bool_decide (i = cur) then ret tt
  else
    do r <- Vector_get i;
    if bool_decide (parent r = row_id) then
      do v <- recurse i;
      Process_update cur (fun p => set_accResident (m_accResident p + v) p)
    else ret tt.

(** [Machine_populateAccForProcess(rows, n, cur)], lines 98 to 115. *)
Fixpoint Machine_populateAccForProcess (fuel : nat) (n cur : nat) : M Vector Z :=
  match fuel with
  | O => abort OutOfFuel
  | S fuel' =>
    do row <- Vector_get cur;
    if bool_decide (m_accResident row <> -1) then ret (m_accResident row)
    else
      Process_update cur (fun p => set_accResident (m_resident p) p) ;;
      for_each (seq 0 n)
        (accumulate_child (Machine_populateAccForProcess fuel' n) cur (id row)) ;;
      do process <- Vector_get cur;
      ret (m_accResident process)
  end.

(** [Machine_populateAccumulatedFields(this)], lines 117 to 135, on the rows
    of [this->processTable]. *)
Definition Machine_populateAccumulatedFields (fuel : nat) : M Vector unit :=
  do n <- Vector_size;
  for_each (seq 0 n) (fun i => Process_update i (set_accResident (-1))) ;;
  for_each (seq 0 n)
    (fun i => do _ <- Machine_populateAccForProcess fuel n i; ret tt) ;;
  for_each (seq 0 n)
    (fun i => Process_update i (fun p => set_resident (m_accResident p) p)).

(** ** The machine and its table registry *)

(** A table is known by its address: [Machine_addTable] compares pointers. *)
Definition Table : Type := nat.

(** [ScreenSettings]: the table of the screen, [None] for a null pointer. *)
Record ScreenSettings : Type := mkScreenSettings {
  table : option Table;
}.

(** [Settings]: the array [screens] of [nScreens] screens. *)
Record Settings : Type := mkSettings {
  screens : list ScreenSettings;
}.

(** The fields of [Machine] that the functions below read or write.  The
    array [tables] with its length [tableCount] is a list.  The two times are
    [uint64_t] in the source; they are only assigned and compared. *)
Record Machine : Type := mkMachine {
  settings : option Settings;
  processTable : option Table;
  activeTable : option Table;
  tables : list Table;
  prevMonotonicMs : Z;
  monotonicMs : Z;
  maxUserId : Z;
}.

Definition tableCount (this : Machine) : nat := length (tables this).

Definition set_tables (ts : list Table) (this : Machine) : Machine :=
  mkMachine (settings this) (processTable this) (activeTable this) ts
            (prevMonotonicMs this) (monotonicMs this) (maxUserId this).

Definition set_activeTable (t : Table) (this : Machine) : Machine :=
  mkMachine (settings this) (processTable this) (Some t) (tables this)
            (prevMonotonicMs this) (monotonicMs this) (maxUserId this).

Definition set_settings (st : Settings) (this : Machine) : Machine :=
  mkMachine (Some st) (processTable this) (activeTable this) (tables this)
            (prevMonotonicMs this) (monotonicMs this) (maxUserId this).

Definition set_processTable (t : Table) (this : Machine) : Machine :=
  mkMachine (settings this) (Some t) (activeTable this) (tables this)
            (prevMonotonicMs this) (monotonicMs this) (maxUserId this).

Definition set_prevMonotonicMs (v : Z) (this : Machine) : Machine :=
  mkMachine (settings this) (processTable this) (activeTable this) (tables this)
            v (monotonicMs this) (maxUserId this).

Definition set_monotonicMs (v : Z) (this : Machine) : Machine :=
  mkMachine (settings this) (processTable this) (activeTable this) (tables this)
            (prevMonotonicMs this) v (maxUserId this).

Definition set_maxUserId (v : Z) (this : Machine) : Machine :=
  mkMachine (settings this) (processTable this) (activeTable this) (tables this)
            (prevMonotonicMs this) (monotonicMs this) v.

(** [Machine_addTable(this, table)], lines 63 to 74: the loop returns at the
    first entry equal to [table]; otherwise the array is grown by one entry
    that holds [table].  ([xReallocArray] ends the program when no memory is
    left; memory is not modelled.) *)
Definition Machine_addTable (this : Machine) (t : Table) : Machine :=
  if existsb (fun t' => bool_decide (t' = t)) (tables this) then this
  else set_tables (tables this ++ [t]) this.

(** One iteration of the loop of [Machine_populateTablesFromSettings], lines
    81 to 88, on screen [i]; the screens are those of [this->settings], the
    object that [settings] points to. *)
Definition populate_screen (processTable : Table) (i : nat) : M Machine unit :=
  fun this =>
    match settings this with
    | None => Abort BadIndex this
    | Some st =>
      match screens st !! i with
      | None => Abort BadIndex this
      | Some ss =>
        let (t, this1) :=
          match table ss with
          | Some t => (t, this)
          | None =>
            (processTable,
             set_settings
               (mkSettings (<[i := mkScreenSettings (Some processTable)]> (screens st)))
               this)
          end in
        let this2 :=
          if bool_decide (i = 0%nat) then set_activeTable t this1 else this1 in
        Ret tt (Machine_addTable this2 t)
      end
    end.

(** [Machine_populateTablesFromSettings(this, settings, processTable)], lines
    76 to 90. *)
Definition Machine_populateTablesFromSettings (st : Settings) (processTable : Table)
    : M Machine unit :=
  fun this =>
    for_each (seq 0 (length (screens st))) (populate_screen processTable)
      (set_processTable processTable (set_settings st this)).

(** ** The scan cycle *)

(** The calls that [Machine_scanTables] makes to functions of other files. *)
Inductive Event : Type :=
| EvGettimeMonotonic
| EvResetFieldWidths
| EvScanPrepare (t : Table)
| EvScanIterate (t : Table)
| EvScanCleanup (t : Table)
| EvSetUidColumnWidth (uid : Z).

(** The state of the program around a [Machine]: the machine, the rows of its
    process table, and the rest of the world [ext] (the other tables, the
    operating system, the clock), of a type [E] left open. *)
Record State (E : Type) : Type := mkState {
  this : Machine;
  rows : Vector;
  ext : E;
}.
Arguments mkState {E} this rows ext.
Arguments this {E} s.
Arguments rows {E} s.
Arguments ext {E} s.

(** A run of scans: the state, the function-local [static bool firstScanDone]
    of [Machine_scanTables], and the calls made to the outside so far. *)
Record Run (E : Type) : Type := mkRun {
  state : State E;
  firstScanDone : bool;
  calls : list Event;
}.
Arguments mkRun {E} state firstScanDone calls.
Arguments state {E} r.
Arguments firstScanDone {E} r.
Arguments calls {E} r.

(** The clock of the platform: [Platform_gettime_monotonic] returns a time in
    milliseconds and moves the world on. *)
Class PlatformClock (E : Type) : Type := {
  Platform_gettime_monotonic : E -> Z * E;
}.

(** The methods of a table ([Table_scanPrepare], [Table_scanIterate] and
    [Table_scanCleanup] dispatch on the class of the table).  A method sees
    the whole state; of the fields modelled here it writes the rows of the
    process table, [maxUserId] of the machine and the world. *)
Class TableClass (E : Type) : Type := {
  Table_scanPrepare : Table -> State E -> State E;
  Table_scanIterate : Table -> State E -> State E;
  Table_scanCleanup : Table -> State E -> State E;
}.

Definition with_machine {E} (f : Machine -> Machine) : M (Run E) unit :=
  fun r =>
    Ret tt (mkRun (mkState (f (this (state r))) (rows (state r)) (ext (state r)))
                  (firstScanDone r) (calls r)).

Definition the_machine {E} : M (Run E) Machine :=
  fun r => Ret (this (state r)) r.

Definition call {E} (ev : Event) : M (Run E) unit :=
  fun r => Ret tt (mkRun (state r) (firstScanDone r) (calls r ++ [ev])).

(** A method of table [t] is called: rows, [maxUserId] and world are as the
    method leaves them. *)
Definition call_method {E} (method : Table -> State E -> State E)
    (ev : Table -> Event) (t : Table) : M (Run E) unit :=
  fun r =>
    let s' := method t (state r) in
    Ret tt (mkRun (mkState (set_maxUserId (maxUserId (this s')) (this (state r)))
                           (rows s') (ext s'))
                  (firstScanDone r) (calls r ++ [ev t])).

(** [Platform_gettime_monotonic(&this->monotonicMs)] *)
Definition read_monotonic {E} `{PlatformClock E} : M (Run E) unit :=
  fun r =>
    let (ms, e') := Platform_gettime_monotonic (ext (state r)) in
    Ret tt (mkRun (mkState (set_monotonicMs ms (this (state r))) (rows (state r)) e')
                  (firstScanDone r) (calls r ++ [EvGettimeMonotonic])).

(** [this->tables[i]] *)
Definition table_at {E} (i : nat) : M (Run E) Table :=
  fun r => match tables (this (state r)) !! i with
           | Some t => Ret t r
           | None => Abort BadIndex r
           end.

(** [Machine_populateAccumulatedFields(this)] on the rows of the process
    table of the machine. *)
Definition populateAccumulatedFields_of_machine {E} (fuel : nat) : M (Run E) unit :=
  fun r =>
    match Machine_populateAccumulatedFields fuel (rows (state r)) with
    | Ret _ rows' =>
      Ret tt (mkRun (mkState (this (state r)) rows' (ext (state r)))
                    (firstScanDone r) (calls r))
    | Abort e rows' =>
      Abort e (mkRun (mkState (this (state r)) rows' (ext (state r)))
                     (firstScanDone r) (calls r))
    end.

(** The refresh of one table, lines 155 to 164. *)
Definition scan_table {E} `{TableClass E} (i : nat) : M (Run E) unit :=
  do t <- table_at i;
  call_method Table_scanPrepare EvScanPrepare t ;;
  call_method Table_scanIterate EvScanIterate t ;;
  call_method Table_scanCleanup EvScanCleanup t.

(** [Machine_scanTables(this)], lines 137 to 170.  The methods of a table do
    not write the registry, so [tableCount] is read once before the loop. *)
Definition Machine_scanTables {E} `{PlatformClock E} `{TableClass E} (fuel : nat)
    : M (Run E) unit :=
  (fun r : Run E =>
     if firstScanDone r then
       (with_machine (fun m => set_prevMonotonicMs (monotonicMs m) m) ;;
        read_monotonic) r
     else
       (with_machine (set_prevMonotonicMs 0) ;;
        with_machine (set_monotonicMs 1) ;;
        fun r' => Ret tt (mkRun (state r') true (calls r'))) r) ;;
  do m <- the_machine;
  assert (bool_decide (monotonicMs m > prevMonotonicMs m)) ;;
  with_machine (set_maxUserId 0) ;;
  call EvResetFieldWidths ;;
  do m <- the_machine;
  for_each (seq 0 (tableCount m)) scan_table ;;
  populateAccumulatedFields_of_machine fuel ;;
  do m <- the_machine;
  call (EvSetUidColumnWidth (maxUserId m)).

(** [k] calls of [Machine_scanTables] in a row; the result is the run as it
    was after each call. *)
Fixpoint scan_cycles {E} `{PlatformClock E} `{TableClass E} (fuel k : nat)
    : M (Run E) (list (Run E)) :=
  match k with
  | O => ret []
  | S k' =>
    Machine_scanTables fuel ;;
    do r <- get;
    do later <- scan_cycles fuel k';
    ret (r :: later)
  end.

(** ** The accumulation with its iterations counted *)

(** The rows together with the number of iterations of the [for] loop of
    [Machine_populateAccForProcess] (line 107) executed so far. *)
Record Counted : Type := mkCounted {
  vec : Vector;
  iterations : nat;
}.

Definition tick : M Counted unit :=
  fun c => Ret tt (mkCounted (vec c) (S (iterations c))).

(** An operation on the rows, run on the counted state. *)
Definition lift {A} (m : M Vector A) : M Counted A :=
  fun c => match m (vec c) with
           | Ret a s => Ret a (mkCounted s (iterations c))
           | Abort e s => Abort e (mkCounted s (iterations c))
           end.

(** [accumulate_child] with its iteration counted. *)
Definition accumulate_child_counted (recurse : nat -> M Counted Z)
    (cur : nat) (row_id : Z) (i : nat) : M Counted unit :=
  tick ;;
  if bool_decide (i = cur) then ret tt
  else
    do r <- lift (Vector_get i);
    if bool_decide (parent r = row_id) then
      do v <- recurse i;
      lift (Process_update cur (fun p => set_accResident (m_accResident p + v) p))
    else ret tt.

(** [Machine_populateAccForProcess] with the iterations of its loop counted. *)
Fixpoint Machine_populateAccForProcess_counted (fuel : nat) (n cur : nat)
    : M Counted Z :=
  match fuel with
  | O => abort OutOfFuel
  | S fuel' =>
    do row <- lift (Vector_get cur);
    if bool_decide (m_accResident row <> -1) then ret (m_accResident row)
    else
      lift (Process_update cur (fun p => set_accResident (m_resident p) p)) ;;
      for_each (seq 0 n)
        (accumulate_child_counted
           (Machine_populateAccForProcess_counted fuel' n) cur (id row)) ;;
      do process <- lift (Vector_get cur);
      ret (m_accResident process)
  end.

(** [Machine_populateAccumulatedFields] on the counted state. *)
Definition Machine_populateAccumulatedFields_counted (fuel : nat) : M Counted unit :=
  do n <- lift Vector_size;
  for_each (seq 0 n) (fun i => lift (Process_update i (set_accResident (-1)))) ;;
  for_each (seq 0 n)
    (fun i => do _ <- Machine_populateAccForProcess_counted fuel n i; ret tt) ;;
  for_each (seq 0 n)
    (fun i => lift (Process_update i (fun p => set_resident (m_accResident p) p))).

(** Forgetting the counter. *)
Definition erase {A} (r : result Counted A) : result Vector A :=
  match r with
  | Ret a c => Ret a (vec c)
  | Abort e c => Abort e (vec c)
  end.

(** ** The accumulation with its contributions recorded *)

(** One execution of [process->m_accResident += ...] (line 111): the value
    [amount] returned by the call on row [from_row] is added to row [to_row];
    [in_progress] tells whether the call on [from_row] was made while
    [from_row] was itself being computed further up the call stack. *)
Record Contribution : Type := mkContribution {
  to_row : nat;
  from_row : nat;
  amount : Z;
  in_progress : bool;
}.

(** The rows together with the contributions made so far. *)
Record Traced : Type := mkTraced {
  t_vec : Vector;
  contributions : list Contribution;
}.

Definition record (c : Contribution) : M Traced unit :=
  fun t => Ret tt (mkTraced (t_vec t) (contributions t ++ [c])).

Definition lift_traced {A} (m : M Vector A) : M Traced A :=
  fun t => match m (t_vec t) with
           | Ret a s => Ret a (mkTraced s (contributions t))
           | Abort e s => Abort e (mkTraced s (contributions t))
           end.

(** [accumulate_child] with its contribution recorded; [computing] are the
    rows whose computation has started and not returned. *)
Definition accumulate_child_traced (recurse : nat -> M Traced Z)
    (computing : list nat) (cur : nat) (row_id : Z) (i : nat) : M Traced unit :=
  if bool_decide (i = cur) then ret tt
  else
    do r <- lift_traced (Vector_get i);
    if bool_decide (parent r = row_id) then
      do v <- recurse i;
      lift_traced
        (Process_update cur (fun p => set_accResident (m_accResident p + v) p)) ;;
      record (mkContribution cur i v (bool_decide (i ∈ computing)))
    else ret tt.

(** [Machine_populateAccForProcess] with the contributions recorded; [stack]
    are the rows being computed by the callers. *)
Fixpoint Machine_populateAccForProcess_traced (fuel : nat) (n : nat)
    (stack : list nat) (cur : nat) : M Traced Z :=
  match fuel with
  | O => abort OutOfFuel
  | S fuel' =>
    do row <- lift_traced (Vector_get cur);
    if bool_decide (m_accResident row <> -1) then ret (m_accResident row)
    else
      lift_traced (Process_update cur (fun p => set_accResident (m_resident p) p)) ;;
      for_each (seq 0 n)
        (accumulate_child_traced
           (Machine_populateAccForProcess_traced fuel' n (cur :: stack))
           (cur :: stack) cur (id row)) ;;
      do process <- lift_traced (Vector_get cur);
      ret (m_accResident process)
  end.

(** [Machine_populateAccumulatedFields] with the contributions recorded. *)
Definition Machine_populateAccumulatedFields_traced (fuel : nat) : M Traced unit :=
  do n <- lift_traced Vector_size;
  for_each (seq 0 n) (fun i => lift_traced (Process_update i (set_accResident (-1)))) ;;
  for_each (seq 0 n)
    (fun i => do _ <- Machine_populateAccForProcess_traced fuel n [] i; ret tt) ;;
  for_each (seq 0 n)
    (fun i => lift_traced
                (Process_update i (fun p => set_resident (m_accResident p) p))).

(** Forgetting the contributions. *)
Definition erase_traced {A} (r : result Traced A) : result Vector A :=
  match r with
  | Ret a t => Ret a (t_vec t)
  | Abort e t => Abort e (t_vec t)
  end.

(** ** Vocabulary of the properties *)

(** The fields of the row at index [j]; 0 outside of the vector. *)
Definition idAt (s : Vector) (j : nat) : Z := from_option id 0 (s !! j).
Definition parentAt (s : Vector) (j : nat) : Z := from_option parent 0 (s !! j).
Definition rawAt (s : Vector) (j : nat) : Z := from_option m_resident 0 (s !! j).
Definition accAt (s : Vector) (j : nat) : Z := from_option m_accResident 0 (s !! j).

(** What the accumulation never writes before its last loop. *)
Definition shape (p : Process) : Z * Z * Z := (id p, parent p, m_resident p).

(** [frame s s']: [s'] has the rows of [s] with other accumulated values. *)
Definition frame (s s' : Vector) : Prop := shape <$> s' = shape <$> s.

(** Sums over a list. *)
Fixpoint sumZ {A} (f : A -> Z) (l : list A) : Z :=
  match l with
  | [] => 0
  | x :: l' => f x + sumZ f l'
  end.

(** Row [k] is a child of row [i] for the loop of
    [Machine_populateAccForProcess]: another row whose parent is the
    identifier of [i]. *)
Definition is_child (s : Vector) (i k : nat) : bool :=
  bool_decide (k <> i /\ parentAt s k = idAt s i).

(** [parent_edge s k i]: the parent identifier of row [k] is the identifier of
    row [i]. *)
Definition parent_edge (s : Vector) (k i : nat) : Prop :=
  exists pk pi, s !! k = Some pk /\ s !! i = Some pi /\ parent pk = id pi.

(** No row is its own ancestor. *)
Definition acyclic (s : Vector) : Prop :=
  forall i, ~ tc (parent_edge s) i i.

(** A row is a root when its parent identifier is the identifier of no row. *)
Definition is_root (s : Vector) (p : Process) : bool :=
  forallb (fun q => negb (bool_decide (parent p = id q))) s.

(** The total of the subtree of row [i], to depth [d]: the row's own value
    plus the totals of its children. *)
Fixpoint subtree_total (d : nat) (s : Vector) (i : nat) : Z :=
  match d with
  | O => 0
  | S d' =>
    rawAt s i +
    sumZ (fun k => if is_child s i k then subtree_total d' s k else 0)
         (seq 0 (length s))
  end.

(** The rows being computed, innermost call first: [cur] and, above it, its
    ancestors [stack]. *)
Definition chain (s : Vector) (stack : list nat) (cur : nat) : Prop :=
  NoDup (cur :: stack) /\ (cur < length s)%nat /\
  forall a, a ∈ stack -> (a < length s)%nat /\ tc (parent_edge s) cur a.

(** The last loop of [Machine_populateAccumulatedFields], lines 130 to 134,
    on one row. *)
Definition publish_acc (p : Process) : Process := set_resident (m_accResident p) p.

(** A certificate that a row set is a forest: a rank that grows from every row
    to the row its parent identifier names. *)
Definition ranked (rank : nat -> nat) (s : Vector) : bool :=
  forallb (fun k =>
    forallb (fun i =>
      implb (bool_decide (parentAt s k = idAt s i)) (rank k <? rank i)%nat)
      (seq 0 (length s)))
    (seq 0 (length s)).

(** The number of rows whose accumulated value is the sentinel [-1]. *)
Fixpoint uncomputed (s : Vector) : nat :=
  match s with
  | [] => 0%nat
  | p :: s' =>
    ((if bool_decide (m_accResident p = (-1)%Z) then 1 else 0) + uncomputed s')%nat
  end.

(** Resident values are not negative, accumulated values are the sentinel or
    not negative. *)
Definition wf (s : Vector) : Prop :=
  Forall (fun p => 0 <= m_resident p /\ -1 <= m_accResident p) s.

(** The number of parent edges: the rows whose parent identifier is the
    identifier of a row. *)
Definition parent_edges (s : Vector) : nat :=
  length (filter (fun p => is_root s p = false) s).

(** The computation did not stop at a failed assertion. *)
Definition no_assert {St A} (r : result St A) : Prop :=
  forall s, r <> Abort AssertFail s.

(** What row [j] has received in the contributions [l]. *)
Definition received (j : nat) (l : list Contribution) : Z :=
  sumZ (fun c => if bool_decide (to_row c = j) then amount c else 0) l.

(** C3 as the specification words it: a child met while it is in progress
    contributes its own resident value. *)
Definition in_progress_contributes_raw (rows : Vector) (l : list Contribution) : Prop :=
  forall c, c ∈ l -> in_progress c = true -> amount c = rawAt rows (from_row c).

(** What the code does: a contribution is the resident value of the child
    plus what the child had received when its value was taken. *)
Definition contributes_current (rows : Vector) (l : list Contribution) : Prop :=
  forall before c after, l = before ++ c :: after ->
    amount c = rawAt rows (from_row c) + received (from_row c) before.

(** The state of the traced accumulation on the rows [rows]: a row that holds
    the sentinel has received nothing; any other row holds its resident value
    plus what it has received; and every contribution was the current value
    of its child. *)
Definition traced_inv (rows : Vector) (t : Traced) : Prop :=
  wf (t_vec t) /\ frame rows (t_vec t) /\
  (forall j, (j < length rows)%nat ->
     if bool_decide (accAt (t_vec t) j = -1)
     then received j (contributions t) = 0
     else accAt (t_vec t) j = rawAt rows j + received j (contributions t)) /\
  contributes_current rows (contributions t).

(** ** The scan in the words of the specification *)

(** What the call of a method leaves: the machine keeps its fields but
    [maxUserId]. *)
Definition refreshed {E} (method : Table -> State E -> State E) (t : Table)
    (s : State E) : State E :=
  let s' := method t s in
  mkState (set_maxUserId (maxUserId (this s')) (this s)) (rows s') (ext s').

(** The refresh of the tables as the specification words it: for every table
    in registration order prepare, then ingest, then cleanup. *)
Definition refresh_table {E} `{TableClass E} (s : State E) (t : Table) : State E :=
  refreshed Table_scanCleanup t
    (refreshed Table_scanIterate t (refreshed Table_scanPrepare t s)).

Definition refresh_all {E} `{TableClass E} (ts : list Table) (s : State E) : State E :=
  foldl refresh_table s ts.

(** The calls of the refresh of one table. *)
Definition table_calls (t : Table) : list Event :=
  [EvScanPrepare t; EvScanIterate t; EvScanCleanup t].

(** The run after lines 141 to 148 of [Machine_scanTables]. *)
Definition advanced {E} `{PlatformClock E} (r : Run E) : Run E :=
  let m := this (state r) in
  if firstScanDone r then
    let (ms, e') := Platform_gettime_monotonic (ext (state r)) in
    mkRun (mkState (set_monotonicMs ms (set_prevMonotonicMs (monotonicMs m) m))
                   (rows (state r)) e')
          true (calls r ++ [EvGettimeMonotonic])
  else
    mkRun (mkState (set_monotonicMs 1 (set_prevMonotonicMs 0 m))
                   (rows (state r)) (ext (state r)))
          true (calls r).

(** The rows on which the accumulation of the scan of [r] runs: the rows as
    the refresh of the tables leaves them (lines 153 to 167). *)
Definition accumulation_input {E} `{PlatformClock E} `{TableClass E} (r : Run E)
    : Vector :=
  let r1 := advanced r in
  rows (refresh_all (tables (this (state r)))
          (mkState (set_maxUserId 0 (this (state r1))) (rows (state r1))
                   (ext (state r1)))).

(** C10 as the specification words it: the resident value that the
    accumulation of the next cycle reads in a row is the accumulated value
    that the cycle before has left in it. *)
Definition next_cycle_reads_accumulated {E} `{PlatformClock E} `{TableClass E}
    (r1 : Run E) : Prop :=
  forall i p q,
    rows (state r1) !! i = Some p -> accumulation_input r1 !! i = Some q ->
    m_resident q = m_accResident p.

(** ** Row sets and a small machine *)

(** A row as it comes out of the ingest: no accumulated value yet. *)
Definition row (i par raw : Z) : Process := mkProcess i par raw (-1).

(** The scenario of the specification: row 1 with the children 2 and 3, row 4
    a child of row 2. *)
Definition scenario : Vector :=
  [row 1 0 100; row 2 1 50; row 3 1 25; row 4 2 10].

(** [m] rows with the identifiers [1] to [m], no parent and a resident value
    of 1. *)
Definition flat (m : nat) : Vector :=
  (fun i => row (Z.of_nat (S i)) 0 1) <$> seq 0 m.

(** A parent and its child. *)
Definition parent_and_child : Vector := [row 1 0 100; row 2 1 50].

(** A clock that reads the timestamps of a list. *)
#[local] Instance demo_clock : PlatformClock (list Z) :=
  {| Platform_gettime_monotonic e := (hd 0 e, tl e) |}.

(** Table 0 is the process table: its ingest reads a parent and a child and
    user 1000.  The other methods do nothing. *)
#[local] Instance demo_tables : TableClass (list Z) :=
  {| Table_scanPrepare _ s := s;
     Table_scanIterate t s :=
       if bool_decide (t = 0%nat)
       then mkState (set_maxUserId 1000 (this s)) parent_and_child (ext s)
       else s;
     Table_scanCleanup _ s := s |}.

(** A machine with the process table 0 and a table 7 in its registry. *)
Definition demo_machine : Machine :=
  mkMachine None (Some 0%nat) (Some 0%nat) [0%nat; 7%nat] 0 0 0.

(** At the start of the program: no scan yet; the clock will read 5000, then
    5250, then 5250 again. *)
Definition demo_run : Run (list Z) :=
  mkRun (mkState demo_machine [] [5000; 5250; 5250]) false [].

(** The run after the first and after the second scan. *)
Definition demo_first : Run (list Z) :=
  match Machine_scanTables 3 demo_run with
  | Ret _ r => r
  | Abort _ r => r
  end.

Definition demo_second : Run (list Z) :=
  match Machine_scanTables 3 demo_first with
  | Ret _ r => r
  | Abort _ r => r
  end.

(** The run after the third scan, whose time is 5250; the clock then reads
    5250 again. *)
Definition demo_third : Run (list Z) :=
  match Machine_scanTables 3 demo_second with
  | Ret _ r => r
  | Abort _ r => r
  end.

(** A cycle between rows 0 and 2; row 1 is a child of row 0. *)
Definition cycle_with_child : Vector := [row 1 2 10; row 3 1 5; row 2 1 7].

(** ** The panel of the tables *)

(** A panel is known by its address. *)
Definition Panel : Type := nat.

(** [Machine_setTablesPanel(this, panel)], lines 92 to 96.  [Table_setPanel]
    is a function of [Table.c]; the state is the list of its calls. *)
Definition Machine_setTablesPanel (this : Machine) (panel : Panel)
    : M (list (Table * Panel)) unit :=
  for_each (seq 0 (tableCount this))
    (fun i calls =>
       match tables this !! i with
       | Some t => Ret tt (calls ++ [(t, panel)])
       | None => Abort BadIndex calls
       end).

(** ** Vocabulary of the further properties *)

(** The table that a screen shows once [Machine_populateTablesFromSettings]
    has run: its own, or the process table where it had none. *)
Definition screen_table (processTable : Table) (ss : ScreenSettings) : Table :=
  default processTable (table ss).

(** The screen with that table. *)
Definition with_table (processTable : Table) (ss : ScreenSettings) : ScreenSettings :=
  mkScreenSettings (Some (screen_table processTable ss)).

(** The registry after a table was registered, as a list. *)
Definition registered (ts : list Table) (t : Table) : list Table :=
  if existsb (fun t' => bool_decide (t' = t)) ts then ts else ts ++ [t].

(** The outcome of a computation on the rows that started in [s]: it returned
    or ran out of fuel, in a state that has the identifiers, parents and
    resident values of [s]. *)
Definition kept_rows {A} (s : Vector) (r : result Vector A) : Prop :=
  match r with
  | Ret _ s' => frame s s'
  | Abort e s' => e = OutOfFuel /\ frame s s'
  end.

(** [other_edge s k i]: row [k] is another row than [i] and its parent
    identifier is the identifier of row [i]; these are the rows that the loop
    of [Machine_populateAccForProcess] does not skip at line 108. *)
Definition other_edge (s : Vector) (k i : nat) : Prop :=
  k <> i /\ parent_edge s k i.

(** No row is an ancestor of itself through other rows; a row may name itself
    as its parent. *)
Definition forest_of_others (s : Vector) : Prop :=
  forall i, ~ tc (other_edge s) i i.

(** The rows being computed, as [chain], along the edges between different
    rows. *)
Definition chain_of_others (s : Vector) (stack : list nat) (cur : nat) : Prop :=
  NoDup (cur :: stack) /\ (cur < length s)%nat /\
  forall a, a ∈ stack -> (a < length s)%nat /\ tc (other_edge s) cur a.

(** A certificate as [ranked], for the edges between different rows. *)
Definition ranked_others (rank : nat -> nat) (s : Vector) : bool :=
  forallb (fun k =>
    forallb (fun i =>
      implb (negb (bool_decide (k = i)) && bool_decide (parentAt s k = idAt s i))
            (rank k <? rank i)%nat)
      (seq 0 (length s)))
    (seq 0 (length s)).

(** The rows of a system whose first process, with identifier [0], names
    itself as its parent. *)
Definition with_own_parent : Vector := [row 0 0 40; row 1 0 10; row 2 1 5].


(** The accumulated values have grown from the resident values of [rows]:
    a row holds the sentinel or at least its resident value. *)
Definition grown (rows s : Vector) : Prop :=
  frame rows s /\
  forall j, (j < length rows)%nat -> accAt s j = -1 \/ rawAt rows j <= accAt s j.

(** * Lemmas and theorems *)

(** ** The monad, loops and vectors *)

(** Loop rule: an invariant on the indices already processed. *)
Lemma for_each_inv {St} (Inv : list nat -> St -> Prop)
    (body : nat -> M St unit) (l : list nat) (s : St) :
  Inv [] s ->
  (forall done i rest s1, l = done ++ i :: rest -> Inv done s1 ->
     exists s2, body i s1 = Ret tt s2 /\ Inv (done ++ [i]) s2) ->
  exists s', for_each l body s = Ret tt s' /\ Inv l s'.
Proof.
  intros H0 Hstep.
  cut (forall rest done s1, l = done ++ rest -> Inv done s1 ->
         exists s', for_each rest body s1 = Ret tt s' /\ Inv l s').
  { intros Hgen. apply (Hgen l [] s); [reflexivity | exact H0]. }
  induction rest as [|i rest IH]; intros done s1 Hl Hinv.
  - rewrite app_nil_r in Hl. subst done. exists s1. split; [reflexivity | exact Hinv].
  - destruct (Hstep done i rest s1 Hl Hinv) as (s2 & Hb & Hinv2).
    destruct (IH (done ++ [i]) s2) as (s' & Hrun & Hfin).
    + rewrite <- app_assoc. exact Hl.
    + exact Hinv2.
    + exists s'. split; [|exact Hfin].
      simpl. unfold bind. rewrite Hb. exact Hrun.
Qed.

Lemma Vector_get_Some (s : Vector) i p :
  s !! i = Some p -> Vector_get i s = Ret p s.
Proof. intros H. unfold Vector_get. rewrite H. reflexivity. Qed.

Lemma Process_update_Some (s : Vector) i f p :
  s !! i = Some p -> Process_update i f s = Ret tt (<[i := f p]> s).
Proof.
  intros H. unfold Process_update, bind. rewrite (Vector_get_Some _ _ _ H).
  reflexivity.
Qed.

Lemma frame_refl s : frame s s.
Proof. reflexivity. Qed.

Lemma frame_trans s1 s2 s3 : frame s1 s2 -> frame s2 s3 -> frame s1 s3.
Proof. unfold frame. congruence. Qed.

Lemma frame_length s s' : frame s s' -> length s' = length s.
Proof.
  unfold frame. intros H. apply (f_equal length) in H.
  rewrite !length_fmap in H. exact H.
Qed.

Lemma frame_at s s' j :
  frame s s' -> shape <$> (s' !! j) = shape <$> (s !! j).
Proof.
  unfold frame. intros H.
  pose proof (list_lookup_fmap shape s' j) as H1.
  pose proof (list_lookup_fmap shape s j) as H2.
  rewrite H in H1. congruence.
Qed.

Lemma frame_lookup s s' j p :
  frame s s' -> s !! j = Some p ->
  exists p', s' !! j = Some p' /\ shape p' = shape p.
Proof.
  intros H Hj. apply (frame_at _ _ j) in H. rewrite Hj in H.
  destruct (s' !! j) as [p'|]; simpl in H; [|discriminate].
  exists p'. split; [reflexivity | congruence].
Qed.

Lemma frame_shapeAt s s' j :
  frame s s' ->
  idAt s' j = idAt s j /\ parentAt s' j = parentAt s j /\ rawAt s' j = rawAt s j.
Proof.
  unfold idAt, parentAt, rawAt. intros H. apply (frame_at _ _ j) in H.
  destruct (s' !! j) as [p'|], (s !! j) as [p|]; simpl in *; try discriminate; auto.
  unfold shape in H. inversion H. auto.
Qed.

Lemma frame_is_child s s' i k : frame s s' -> is_child s' i k = is_child s i k.
Proof.
  intros H. unfold is_child.
  destruct (frame_shapeAt s s' k H) as (_ & -> & _).
  destruct (frame_shapeAt s s' i H) as (-> & _). reflexivity.
Qed.

Lemma frame_insert s j p p' :
  s !! j = Some p -> shape p' = shape p -> frame s (<[j := p']> s).
Proof.
  intros Hj Hf. unfold frame. rewrite list_fmap_insert, Hf.
  apply list_insert_id. rewrite list_lookup_fmap, Hj. reflexivity.
Qed.

Lemma accAt_insert (s : Vector) (j k : nat) p :
  (j < length s)%nat ->
  accAt (<[j := p]> s) k = if decide (k = j) then m_accResident p else accAt s k.
Proof.
  intros Hj. unfold accAt. destruct (decide (k = j)) as [->|Hne].
  - rewrite list_lookup_insert_eq by exact Hj. reflexivity.
  - rewrite list_lookup_insert_ne by congruence. reflexivity.
Qed.

Lemma sumZ_app {A} (f : A -> Z) l1 l2 : sumZ f (l1 ++ l2) = sumZ f l1 + sumZ f l2.
Proof. induction l1 as [|x l1 IH]; simpl; [reflexivity | rewrite IH; lia]. Qed.

Lemma sumZ_ext {A} (f g : A -> Z) l :
  (forall x, x ∈ l -> f x = g x) -> sumZ f l = sumZ g l.
Proof.
  induction l as [|x l IH]; intros H; simpl; [reflexivity|].
  rewrite (H x) by (left). rewrite IH; [reflexivity|].
  intros y Hy. apply H. right. exact Hy.
Qed.

Lemma lookup_At (s : Vector) j p :
  s !! j = Some p ->
  idAt s j = id p /\ parentAt s j = parent p /\
  rawAt s j = m_resident p /\ accAt s j = m_accResident p.
Proof. intros H. unfold idAt, parentAt, rawAt, accAt. rewrite H. auto. Qed.

Lemma lookup_lt_frame (s0 s : Vector) (j : nat) :
  frame s0 s -> (j < length s0)%nat -> exists p, s !! j = Some p.
Proof.
  intros Hf Hj. apply lookup_lt_is_Some. rewrite (frame_length _ _ Hf). exact Hj.
Qed.

(** ** The parent graph *)

Lemma parent_edge_lt s k i :
  parent_edge s k i -> (k < length s)%nat /\ (i < length s)%nat.
Proof.
  intros (pk & pi & Hk & Hi & _).
  split; eapply lookup_lt_Some; eassumption.
Qed.

Lemma parent_edge_At (s : Vector) (k i : nat) :
  (k < length s)%nat -> (i < length s)%nat ->
  parent_edge s k i <-> parentAt s k = idAt s i.
Proof.
  intros Hk Hi.
  destruct (lookup_lt_is_Some_2 _ _ Hk) as [pk Hpk].
  destruct (lookup_lt_is_Some_2 _ _ Hi) as [pi Hpi].
  destruct (lookup_At _ _ _ Hpk) as (_ & -> & _).
  destruct (lookup_At _ _ _ Hpi) as (-> & _).
  split.
  - intros (pk' & pi' & Hk' & Hi' & E). congruence.
  - intros E. exists pk, pi. auto.
Qed.

Lemma is_child_edge (s : Vector) (i k : nat) :
  (k < length s)%nat -> (i < length s)%nat ->
  is_child s i k = true -> parent_edge s k i.
Proof.
  intros Hk Hi H. unfold is_child in H. apply bool_decide_eq_true in H.
  apply parent_edge_At; tauto.
Qed.

Lemma bounded_NoDup_length (l : list nat) (n : nat) :
  NoDup l -> (forall a, a ∈ l -> (a < n)%nat) -> (length l <= n)%nat.
Proof.
  intros Hnd Hlt.
  assert (length l <= length (seq 0 n))%nat as H.
  { apply submseteq_length, NoDup_submseteq; [exact Hnd|].
    intros a Ha. apply elem_of_seq. specialize (Hlt a Ha). lia. }
  rewrite length_seq in H. exact H.
Qed.

Lemma chain_length s stack cur :
  chain s stack cur -> (length stack < length s)%nat.
Proof.
  intros (Hnd & Hcur & Hst).
  assert (length (cur :: stack) <= length s)%nat as H.
  { apply bounded_NoDup_length; [exact Hnd|].
    intros a Ha. apply elem_of_cons in Ha as [->|Ha]; [exact Hcur|].
    apply Hst, Ha. }
  simpl in H. lia.
Qed.

Lemma chain_nil (s : Vector) (cur : nat) : (cur < length s)%nat -> chain s [] cur.
Proof.
  intros H. split; [|split; [exact H|]].
  - apply NoDup_singleton.
  - intros a Ha. apply elem_of_nil in Ha. contradiction.
Qed.

Lemma chain_push s stack cur k :
  acyclic s -> chain s stack cur -> parent_edge s k cur ->
  chain s (cur :: stack) k.
Proof.
  intros Hac (Hnd & Hcur & Hst) He.
  assert (forall a, a ∈ cur :: stack -> (a < length s)%nat /\ tc (parent_edge s) k a) as Hall.
  { intros a Ha. apply elem_of_cons in Ha as [->|Ha].
    - split; [exact Hcur | apply tc_once, He].
    - destruct (Hst a Ha) as [Hlt Htc]. split; [exact Hlt|].
      eapply tc_l; eassumption. }
  split; [|split; [apply (parent_edge_lt _ _ _ He) | exact Hall]].
  apply NoDup_cons. split; [|exact Hnd].
  intros Hin. apply (Hac k). apply Hall, Hin.
Qed.

Lemma subtree_total_stable (s : Vector) :
  acyclic s ->
  forall d d' stack i, chain s stack i ->
    (length s < d + length stack)%nat -> (length s < d' + length stack)%nat ->
    subtree_total d s i = subtree_total d' s i.
Proof.
  intros Hac. induction d as [|d IH]; intros d' stack i Hch Hd Hd'.
  { apply chain_length in Hch. lia. }
  destruct d' as [|d']; [apply chain_length in Hch; lia|].
  simpl. f_equal. apply sumZ_ext. intros k Hk.
  destruct (is_child s i k) eqn:Hc; [|reflexivity].
  apply elem_of_seq in Hk.
  apply (IH d' (i :: stack) k).
  - apply chain_push; [exact Hac | exact Hch |].
    apply is_child_edge; [lia | exact (proj1 (proj2 Hch)) | exact Hc].
  - simpl. lia.
  - simpl. lia.
Qed.

(** The subtree totals satisfy the defining equation of the accumulated
    value when the parent graph has no cycle. *)
Lemma subtree_total_eq (s : Vector) (i : nat) :
  acyclic s -> (i < length s)%nat ->
  subtree_total (S (length s)) s i =
  rawAt s i +
  sumZ (fun k => if is_child s i k then subtree_total (S (length s)) s k else 0)
       (seq 0 (length s)).
Proof.
  intros Hac Hi. simpl. f_equal. apply sumZ_ext. intros k Hk.
  destruct (is_child s i k) eqn:Hc; [|reflexivity].
  apply elem_of_seq in Hk.
  change (subtree_total (length s) s k = subtree_total (S (length s)) s k).
  apply (subtree_total_stable s Hac _ _ [i] k).
  - apply chain_push; [exact Hac | apply chain_nil, Hi |].
    apply is_child_edge; [lia | exact Hi | exact Hc].
  - simpl. lia.
  - simpl. lia.
Qed.

Lemma bind_Ret {St A B} (c : M St A) (k : A -> M St B) s a s' :
  c s = Ret a s' -> bind c k s = k a s'.
Proof. intros H. unfold bind. rewrite H. reflexivity. Qed.

Lemma populate_unfold (fuel n cur : nat) :
  Machine_populateAccForProcess (S fuel) n cur =
  (do row <- Vector_get cur;
   if bool_decide (m_accResident row <> -1) then ret (m_accResident row)
   else
     Process_update cur (fun p => set_accResident (m_resident p) p) ;;
     for_each (seq 0 n)
       (accumulate_child (Machine_populateAccForProcess fuel n) cur (id row)) ;;
     do process <- Vector_get cur;
     ret (m_accResident process)).
Proof. reflexivity. Qed.

(** ** The accumulation on a forest *)

Section Acyclic.

Variable s0 : Vector.
Hypothesis Hacyc : acyclic s0.

Let n := length s0.
Let T (i : nat) : Z := subtree_total (S n) s0 i.
Let E := parent_edge s0.

Lemma T_eq (i : nat) :
  (i < n)%nat ->
  T i = rawAt s0 i + sumZ (fun k => if is_child s0 i k then T k else 0) (seq 0 n).
Proof. intros Hi. apply subtree_total_eq; assumption. Qed.

Lemma populate_acyclic :
  forall fuel stack cur s,
    frame s0 s -> chain s0 stack cur -> (n < fuel + length stack)%nat ->
    (forall j, rtc E j cur -> accAt s j = -1 \/ accAt s j = T j) ->
    exists s',
      Machine_populateAccForProcess fuel n cur s = Ret (T cur) s' /\
      frame s0 s' /\ accAt s' cur = T cur /\
      forall j, accAt s' j = accAt s j \/ (rtc E j cur /\ accAt s' j = T j).
Proof.
  induction fuel as [|f IH]; intros stack cur s Hfr Hch Hfuel Hpre.
  { apply chain_length in Hch. fold n in Hch. lia. }
  pose proof Hch as (Hnd & Hcur & Hst).
  destruct (lookup_lt_frame s0 s cur Hfr Hcur) as [p Hp].
  destruct (lookup_At _ _ _ Hp) as (Hid & Hpar & Hraw & Hacc).
  rewrite populate_unfold, (bind_Ret _ _ _ _ _ (Vector_get_Some _ _ _ Hp)).
  destruct (bool_decide_reflect (m_accResident p <> -1)) as [Hne|Heq].
  { destruct (Hpre cur) as [H|H]; [reflexivity | congruence |].
    exists s. unfold ret. rewrite <- Hacc, H. auto. }
  assert (m_accResident p = -1) as Hm1 by (destruct (decide (m_accResident p = -1)); tauto).
  clear Heq.
  rewrite (bind_Ret _ _ _ _ _ (Process_update_Some _ _ _ _ Hp)).
  set (s1 := <[cur := set_accResident (m_resident p) p]> s).
  assert (frame s s1) as Hfr1 by (eapply frame_insert; [exact Hp | reflexivity]).
  assert (cur < length s)%nat as Hcur' by (eapply lookup_lt_Some; eassumption).
  destruct (frame_shapeAt _ _ cur Hfr) as (Hid0 & Hpar0 & Hraw0).
  destruct (for_each_inv
    (fun done s' =>
       frame s0 s' /\
       accAt s' cur = rawAt s0 cur + sumZ (fun k => if is_child s0 cur k then T k else 0) done /\
       forall j, j <> cur -> accAt s' j = accAt s j \/ (tc E j cur /\ accAt s' j = T j))
    (accumulate_child (Machine_populateAccForProcess f n) cur (id p))
    (seq 0 n) s1) as (s2 & Hrun & Hfr2 & Hacc2 & Hoth2).
  - (* the invariant holds at loop entry *)
    split; [eapply frame_trans; eassumption|]. split.
    + unfold s1. rewrite accAt_insert by exact Hcur'.
      rewrite decide_True by reflexivity. simpl. lia.
    + intros j Hj. left. unfold s1. rewrite accAt_insert by exact Hcur'.
      rewrite decide_False by exact Hj. reflexivity.
  - (* one iteration *)
    intros done i rest sa Hl (Hfa & Hacca & Hotha).
    assert (i < n)%nat as Hi.
    { assert (i ∈ seq 0 n) as Hin by (rewrite Hl; apply elem_of_app; right; left).
      apply elem_of_seq in Hin. lia. }
    unfold accumulate_child.
    destruct (bool_decide_reflect (i = cur)) as [->|Hic].
    { exists sa. split; [reflexivity|]. split; [exact Hfa|]. split; [|exact Hotha].
      rewrite sumZ_app. simpl. unfold is_child at 2.
      rewrite bool_decide_eq_false_2 by tauto. lia. }
    destruct (lookup_lt_frame s0 sa i Hfa Hi) as [r Hr].
    rewrite (bind_Ret _ _ _ _ _ (Vector_get_Some _ _ _ Hr)).
    destruct (lookup_At _ _ _ Hr) as (_ & Hrpar & _).
    destruct (frame_shapeAt _ _ i Hfa) as (_ & Hpari & _).
    assert (bool_decide (parent r = id p) = is_child s0 cur i) as Hck.
    { unfold is_child. apply bool_decide_ext. split.
      - intros Heq. split; [exact Hic | congruence].
      - intros [_ Heq]. congruence. }
    rewrite Hck. destruct (is_child s0 cur i) eqn:Hchild.
    2:{ exists sa. split; [reflexivity|]. split; [exact Hfa|]. split; [|exact Hotha].
        rewrite sumZ_app. simpl. rewrite Hchild. lia. }
    assert (E i cur) as Hedge by (apply is_child_edge; assumption).
    destruct (IH (cur :: stack) i sa) as (sb & Hcall & Hfb & Haccb & Hothb).
    + exact Hfa.
    + apply chain_push; assumption.
    + simpl. lia.
    + intros j Hj.
      assert (tc E j cur) as Htc by (eapply tc_rtc_l; [exact Hj | apply tc_once, Hedge]).
      assert (j <> cur) as Hne by (intros ->; exact (Hacyc _ Htc)).
      destruct (Hotha j Hne) as [->|[_ ->]]; [|right; reflexivity].
      apply Hpre. apply tc_rtc. exact Htc.
    + rewrite (bind_Ret _ _ _ _ _ Hcall).
      destruct (lookup_lt_frame s0 sb cur Hfb Hcur) as [pc Hpc].
      rewrite (Process_update_Some _ _ _ _ Hpc).
      assert (cur < length sb)%nat as Hcurb by (eapply lookup_lt_Some; eassumption).
      eexists. split; [reflexivity|]. split; [|split].
      * eapply frame_trans; [exact Hfb|]. eapply frame_insert; [exact Hpc | reflexivity].
      * rewrite accAt_insert by exact Hcurb. rewrite decide_True by reflexivity. simpl.
        destruct (lookup_At _ _ _ Hpc) as (_ & _ & _ & <-).
        rewrite sumZ_app. simpl. rewrite Hchild.
        destruct (Hothb cur) as [->|[Hrt _]]; [lia|].
        exfalso. apply (Hacyc cur). eapply tc_rtc_l; [exact Hrt | apply tc_once, Hedge].
      * intros j Hj. rewrite accAt_insert by exact Hcurb.
        rewrite decide_False by exact Hj.
        destruct (Hothb j) as [->|[Hrt ->]]; [apply Hotha, Hj|].
        right. split; [|reflexivity].
        eapply tc_rtc_l; [exact Hrt | apply tc_once, Hedge].
  - (* after the loop *)
    rewrite (bind_Ret _ _ _ _ _ Hrun).
    destruct (lookup_lt_frame s0 s2 cur Hfr2 Hcur) as [p2 Hp2].
    rewrite (bind_Ret _ _ _ _ _ (Vector_get_Some _ _ _ Hp2)).
    destruct (lookup_At _ _ _ Hp2) as (_ & _ & _ & Hacc2').
    assert (accAt s2 cur = T cur) as HT by (rewrite Hacc2, T_eq by exact Hcur; reflexivity).
    exists s2. unfold ret. rewrite <- Hacc2', HT.
    split; [reflexivity|]. split; [exact Hfr2|]. split; [reflexivity|].
    intros j. destruct (decide (j = cur)) as [->|Hne].
    + right. split; [reflexivity | exact HT].
    + destruct (Hoth2 j Hne) as [H|[Htc H]]; [left; exact H|].
      right. split; [apply tc_rtc, Htc | exact H].
Qed.

End Acyclic.

(** ** General facts on the accumulation *)

Lemma bind_inv {St A B} (c : M St A) (k : A -> M St B) s b s'' :
  bind c k s = Ret b s'' -> exists a s', c s = Ret a s' /\ k a s' = Ret b s''.
Proof.
  unfold bind. destruct (c s) as [a s'|e s']; [|discriminate].
  intros H. exists a, s'. auto.
Qed.

(** A loop whose body keeps a preorder on states keeps it. *)
Lemma for_each_preserves {St} (P : St -> St -> Prop) (body : nat -> M St unit) :
  (forall s, P s s) -> (forall s1 s2 s3, P s1 s2 -> P s2 s3 -> P s1 s3) ->
  forall l : list nat,
    (forall i s s', i ∈ l -> body i s = Ret tt s' -> P s s') ->
    forall s s', for_each l body s = Ret tt s' -> P s s'.
Proof.
  intros Hrefl Htrans. induction l as [|i l IH]; intros Hbody s s' Hrun.
  - simpl in Hrun. injection Hrun as <-. apply Hrefl.
  - simpl in Hrun. apply bind_inv in Hrun as ([] & s1 & Hb & Hrest).
    apply (Htrans _ s1).
    + apply (Hbody i); [left | exact Hb].
    + apply IH; [|exact Hrest]. intros j sa sb Hj. apply Hbody. right. exact Hj.
Qed.

Lemma Process_update_inv (i : nat) f (s s' : Vector) :
  Process_update i f s = Ret tt s' ->
  exists p, s !! i = Some p /\ s' = <[i := f p]> s.
Proof.
  unfold Process_update, bind, Vector_get.
  destruct (s !! i) as [p|]; [|discriminate].
  intros H. injection H as <-. exists p. auto.
Qed.

Lemma Vector_get_inv (i : nat) (s s' : Vector) p :
  Vector_get i s = Ret p s' -> s !! i = Some p /\ s' = s.
Proof.
  unfold Vector_get. destruct (s !! i) as [q|]; [|discriminate].
  intros H. injection H as <- <-. auto.
Qed.

(** The accumulation of one row only writes accumulated values. *)
Lemma populate_frame :
  forall fuel n cur s v s',
    Machine_populateAccForProcess fuel n cur s = Ret v s' -> frame s s'.
Proof.
  induction fuel as [|f IH]; intros n cur s v s' Hrun; [discriminate|].
  rewrite populate_unfold in Hrun.
  apply bind_inv in Hrun as (p & sa & Hget & Hrun).
  apply Vector_get_inv in Hget as [Hp ->].
  destruct (bool_decide (m_accResident p <> -1)).
  { injection Hrun as _ <-. apply frame_refl. }
  apply bind_inv in Hrun as ([] & s1 & Hupd & Hrun).
  apply bind_inv in Hrun as ([] & s2 & Hloop & Hrun).
  apply bind_inv in Hrun as (p2 & sb & Hget2 & Hrun).
  apply Vector_get_inv in Hget2 as [Hp2 ->]. injection Hrun as _ <-.
  apply Process_update_inv in Hupd as (p' & Hp' & ->).
  apply (frame_trans _ (<[cur := set_accResident (m_resident p') p']> s));
    [eapply frame_insert; [exact Hp' | reflexivity]|].
  refine (for_each_preserves frame _ frame_refl frame_trans _ _ _ _ Hloop).
  intros i sa sb _ Hbody. unfold accumulate_child in Hbody.
  destruct (bool_decide (i = cur)); [injection Hbody as <-; apply frame_refl|].
  apply bind_inv in Hbody as (r & sc & Hget & Hbody).
  apply Vector_get_inv in Hget as [Hr ->].
  destruct (bool_decide (parent r = id p)); [|injection Hbody as <-; apply frame_refl].
  apply bind_inv in Hbody as (w & sd & Hcall & Hupd).
  apply Process_update_inv in Hupd as (pc & Hpc & ->).
  apply (frame_trans _ sd); [eapply IH; exact Hcall|].
  eapply frame_insert; [exact Hpc | reflexivity].
Qed.

(** A loop that updates every row in turn maps the update over the vector. *)
Lemma for_each_update (f : Process -> Process) (s : Vector) :
  for_each (seq 0 (length s)) (fun i => Process_update i f) s = Ret tt (f <$> s).
Proof.
  destruct (for_each_inv
    (fun done (s' : Vector) =>
       forall j, s' !! j = if decide (j < length done)%nat then f <$> (s !! j) else s !! j)
    (fun i => Process_update i f) (seq 0 (length s)) s) as (s' & Hrun & Hinv).
  - intros j. destruct (decide (j < length (@nil nat))%nat) as [H|]; [simpl in H; lia | reflexivity].
  - intros done i rest s1 Hl Hinv.
    assert (i = length done /\ (i < length s)%nat) as [-> Hlt].
    { assert (seq 0 (length s) !! length done = Some i) as H.
      { rewrite Hl. rewrite lookup_app_r by lia.
        rewrite Nat.sub_diag. reflexivity. }
      apply lookup_seq in H. lia. }
    destruct (lookup_lt_is_Some_2 _ _ Hlt) as [p Hp].
    assert (s1 !! length done = Some p) as Hp1.
    { rewrite Hinv, decide_False by lia. exact Hp. }
    rewrite (Process_update_Some _ _ _ _ Hp1).
    eexists. split; [reflexivity|]. intros j.
    rewrite length_app. simpl.
    destruct (decide (j = length done)) as [->|Hne].
    + rewrite list_lookup_insert_eq by (eapply lookup_lt_Some; eassumption).
      rewrite decide_True by lia. rewrite Hp. reflexivity.
    + rewrite list_lookup_insert_ne by congruence. rewrite Hinv.
      destruct (decide (j < length done)%nat), (decide (j < length done + 1)%nat);
        try reflexivity; lia.
  - rewrite Hrun. f_equal. apply list_eq. intros j.
    rewrite Hinv, list_lookup_fmap, length_seq.
    destruct (decide (j < length s)%nat) as [|Hge]; [reflexivity|].
    rewrite lookup_ge_None_2 by lia. reflexivity.
Qed.

(** The three loops of [Machine_populateAccumulatedFields]: all accumulated
    values are reset, every row is accumulated, and the accumulated value is
    copied over the resident value of every row. *)
Lemma populateAccumulatedFields_loops (fuel : nat) (rows s2 : Vector) :
  for_each (seq 0 (length rows))
    (fun i => do _ <- Machine_populateAccForProcess fuel (length rows) i; ret tt)
    (set_accResident (-1) <$> rows) = Ret tt s2 ->
  Machine_populateAccumulatedFields fuel rows = Ret tt (publish_acc <$> s2) /\
  frame rows s2.
Proof.
  intros Hloop.
  assert (frame (set_accResident (-1) <$> rows) s2) as Hfr.
  { refine (for_each_preserves frame _ frame_refl frame_trans _ _ _ _ Hloop).
    intros i sa sb _ Hb. apply bind_inv in Hb as (v & sc & Hcall & Hret).
    injection Hret as <-. eapply populate_frame; exact Hcall. }
  assert (frame rows (set_accResident (-1) <$> rows)) as Hfr0.
  { unfold frame. rewrite <- list_fmap_compose. reflexivity. }
  split; [|eapply frame_trans; eassumption].
  unfold Machine_populateAccumulatedFields.
  rewrite (bind_Ret _ _ rows (length rows) rows) by reflexivity.
  rewrite (bind_Ret _ _ _ _ _ (for_each_update _ rows)).
  rewrite (bind_Ret _ _ _ _ _ Hloop).
  assert (length s2 = length rows) as <-.
  { rewrite (frame_length _ _ Hfr). apply (frame_length _ _ Hfr0). }
  apply for_each_update.
Qed.

Lemma populateAccumulatedFields_inv (fuel : nat) (rows rows' : Vector) :
  Machine_populateAccumulatedFields fuel rows = Ret tt rows' ->
  exists s2,
    for_each (seq 0 (length rows))
      (fun i => do _ <- Machine_populateAccForProcess fuel (length rows) i; ret tt)
      (set_accResident (-1) <$> rows) = Ret tt s2 /\
    rows' = publish_acc <$> s2.
Proof.
  intros Hrun. unfold Machine_populateAccumulatedFields in Hrun.
  rewrite (bind_Ret _ _ rows (length rows) rows) in Hrun by reflexivity.
  rewrite (bind_Ret _ _ _ _ _ (for_each_update _ rows)) in Hrun.
  apply bind_inv in Hrun as ([] & s2 & Hloop & Hlast).
  exists s2. split; [exact Hloop|].
  destruct (populateAccumulatedFields_loops _ _ _ Hloop) as [Hall _].
  unfold Machine_populateAccumulatedFields in Hall.
  rewrite (bind_Ret _ _ rows (length rows) rows) in Hall by reflexivity.
  rewrite (bind_Ret _ _ _ _ _ (for_each_update _ rows)) in Hall.
  rewrite (bind_Ret _ _ _ _ _ Hloop) in Hall. congruence.
Qed.

Lemma frame_sym s s' : frame s s' -> frame s' s.
Proof. unfold frame. congruence. Qed.

Lemma frame_parent_edge s s' k i :
  frame s s' -> parent_edge s k i -> parent_edge s' k i.
Proof.
  intros Hf (pk & pi & Hk & Hi & Heq).
  destruct (frame_lookup _ _ _ _ Hf Hk) as (pk' & Hk' & Hsk).
  destruct (frame_lookup _ _ _ _ Hf Hi) as (pi' & Hi' & Hsi).
  exists pk', pi'. unfold shape in *. split; [exact Hk'|]. split; [exact Hi'|].
  congruence.
Qed.

Lemma frame_acyclic s s' : frame s s' -> acyclic s -> acyclic s'.
Proof.
  intros Hf Hac i Htc. apply (Hac i).
  apply (tc_congruence (fun x : nat => x) (parent_edge s)) in Htc; [exact Htc|].
  intros x y. apply frame_parent_edge, frame_sym, Hf.
Qed.

Lemma frame_subtree_total s s' d i :
  frame s s' -> subtree_total d s' i = subtree_total d s i.
Proof.
  intros Hf. revert i. induction d as [|d IH]; intros i; [reflexivity|].
  simpl. destruct (frame_shapeAt _ _ i Hf) as (_ & _ & ->).
  rewrite (frame_length _ _ Hf). f_equal.
  apply sumZ_ext. intros k _. rewrite (frame_is_child _ _ _ _ Hf), IH. reflexivity.
Qed.

(** On a forest, the second loop of [Machine_populateAccumulatedFields]
    leaves in every row the total of its subtree. *)
Lemma accumulate_forest (rows : Vector) (fuel : nat) :
  acyclic rows -> (length rows < fuel)%nat ->
  exists s2,
    for_each (seq 0 (length rows))
      (fun i => do _ <- Machine_populateAccForProcess fuel (length rows) i; ret tt)
      (set_accResident (-1) <$> rows) = Ret tt s2 /\
    frame rows s2 /\
    forall j, (j < length rows)%nat ->
      accAt s2 j = subtree_total (S (length rows)) rows j.
Proof.
  intros Hac Hfuel.
  set (s0 := set_accResident (-1) <$> rows).
  assert (frame rows s0) as Hfr0.
  { unfold frame, s0. rewrite <- list_fmap_compose. reflexivity. }
  assert (length s0 = length rows) as Hlen by apply (frame_length _ _ Hfr0).
  assert (acyclic s0) as Hac0 by (eapply frame_acyclic; eassumption).
  assert (forall j, subtree_total (S (length s0)) s0 j =
                    subtree_total (S (length rows)) rows j) as HT.
  { intros j. rewrite Hlen. apply frame_subtree_total, Hfr0. }
  destruct (for_each_inv
    (fun done s' =>
       frame s0 s' /\
       (forall j, (j < length s0)%nat ->
          accAt s' j = -1 \/ accAt s' j = subtree_total (S (length s0)) s0 j) /\
       (forall j, j ∈ done -> accAt s' j = subtree_total (S (length s0)) s0 j))
    (fun i => do _ <- Machine_populateAccForProcess fuel (length rows) i; ret tt)
    (seq 0 (length rows)) s0) as (s2 & Hrun & Hfr2 & _ & Hdone).
  - split; [apply frame_refl|]. split.
    + intros j Hj. left. destruct (lookup_lt_is_Some_2 _ _ Hj) as [p Hp].
      destruct (lookup_At _ _ _ Hp) as (_ & _ & _ & ->).
      unfold s0 in Hp. apply list_lookup_fmap_Some_1 in Hp as (q & -> & _).
      reflexivity.
    + intros j Hj. apply elem_of_nil in Hj. contradiction.
  - intros done i rest s1 Hl (Hf1 & Hall & Hd).
    assert (i < length s0)%nat as Hi.
    { assert (i ∈ seq 0 (length rows)) as Hin by (rewrite Hl; apply elem_of_app; right; left).
      apply elem_of_seq in Hin. lia. }
    destruct (populate_acyclic s0 Hac0 fuel [] i s1 Hf1) as (sb & Hcall & Hfb & Hacc & Hoth).
    + apply chain_nil, Hi.
    + simpl. lia.
    + intros j Hj. apply Hall.
      apply rtc_tc in Hj as [->|Htc]; [exact Hi|].
      apply tc_rtc, rtc_inv in Htc as [->|(y & He & _)]; [exact Hi|].
      apply (parent_edge_lt _ _ _ He).
    + rewrite <- Hlen. rewrite (bind_Ret _ _ _ _ _ Hcall).
      exists sb. split; [reflexivity|]. split; [exact Hfb|]. split.
      * intros j Hj. destruct (Hoth j) as [->|[_ ->]]; [apply Hall, Hj | right; reflexivity].
      * intros j Hj. apply elem_of_app in Hj as [Hj|Hj].
        -- destruct (Hoth j) as [->|[_ ->]]; [apply Hd, Hj | reflexivity].
        -- apply list_elem_of_singleton in Hj as ->. exact Hacc.
  - exists s2. split; [exact Hrun|]. split; [eapply frame_trans; eassumption|].
    intros j Hj. rewrite <- HT. apply Hdone. apply elem_of_seq. lia.
Qed.

(** ** Sums *)

Lemma sumZ_fmap {A B} (f : A -> B) (g : B -> Z) (l : list A) :
  sumZ g (f <$> l) = sumZ (fun x => g (f x)) l.
Proof.
  induction l as [|x l IH]; [reflexivity|].
  rewrite fmap_cons. simpl. rewrite IH. reflexivity.
Qed.

Lemma sumZ_add {A} (f g : A -> Z) (l : list A) :
  sumZ (fun x => f x + g x) l = sumZ f l + sumZ g l.
Proof. induction l as [|x l IH]; simpl; [reflexivity | rewrite IH; lia]. Qed.

Lemma sumZ_zero {A} (l : list A) : sumZ (fun _ => 0) l = 0.
Proof. induction l as [|x l IH]; simpl; [reflexivity | rewrite IH; reflexivity]. Qed.

Lemma sumZ_exchange {A B} (f : A -> B -> Z) (l1 : list A) (l2 : list B) :
  sumZ (fun x => sumZ (fun y => f x y) l2) l1 =
  sumZ (fun y => sumZ (fun x => f x y) l1) l2.
Proof.
  induction l1 as [|x l1 IH]; simpl.
  - rewrite sumZ_zero. reflexivity.
  - rewrite IH, sumZ_add. reflexivity.
Qed.

Lemma sumZ_lookup {A} (g : A -> Z) (l : list A) :
  sumZ g l = sumZ (fun k => from_option g 0 (l !! k)) (seq 0 (length l)).
Proof.
  induction l as [|x l IH]; [reflexivity|].
  change (g x + sumZ g l =
          g x + sumZ (fun k => from_option g 0 ((x :: l) !! k)) (seq 1 (length l))).
  rewrite <- fmap_S_seq, sumZ_fmap, IH. reflexivity.
Qed.

Lemma forallb_other_id (x : Z) (l : Vector) :
  forallb (fun p => negb (bool_decide (x = id p))) l = false -> x ∈ id <$> l.
Proof.
  induction l as [|p l IH]; simpl; [discriminate|].
  destruct (bool_decide_reflect (x = id p)) as [->|Hne]; simpl.
  - intros _. left.
  - intros H. right. apply IH, H.
Qed.

(** With distinct identifiers at most one row has a given identifier. *)
Lemma sumZ_unique_id (x c : Z) (l : Vector) :
  NoDup (id <$> l) ->
  sumZ (fun p => if bool_decide (x = id p) then c else 0) l =
  if forallb (fun p => negb (bool_decide (x = id p))) l then 0 else c.
Proof.
  induction l as [|p l IH]; intros Hnd; simpl; [reflexivity|].
  rewrite fmap_cons in Hnd. apply NoDup_cons in Hnd as [Hnotin Hnd].
  rewrite (IH Hnd).
  destruct (bool_decide_reflect (x = id p)) as [->|Hne]; simpl; [|reflexivity].
  destruct (forallb _ l) eqn:Hall; [lia|].
  exfalso. apply Hnotin, forallb_other_id, Hall.
Qed.

(** ** The accumulated values of a forest *)

(** Where every row holds its own value plus the values of the rows naming it
    as parent, and identifiers are distinct, the roots hold the whole total. *)
Lemma roots_total (s : Vector) :
  NoDup (id <$> s) ->
  (forall p, p ∈ s ->
     m_accResident p =
     m_resident p +
     sumZ (fun q => if bool_decide (parent q = id p) then m_accResident q else 0) s) ->
  sumZ (fun q => if is_root s q then m_accResident q else 0) s = sumZ m_resident s.
Proof.
  intros Hnd Heq.
  assert (sumZ m_accResident s =
          sumZ m_resident s +
          sumZ (fun q => if is_root s q then 0 else m_accResident q) s) as Hsum.
  { rewrite (sumZ_ext _ _ _ Heq), sumZ_add, sumZ_exchange. f_equal.
    apply sumZ_ext. intros q _. apply sumZ_unique_id, Hnd. }
  assert (sumZ m_accResident s =
          sumZ (fun q => if is_root s q then m_accResident q else 0) s +
          sumZ (fun q => if is_root s q then 0 else m_accResident q) s) as Hsplit.
  { rewrite <- sumZ_add. apply sumZ_ext. intros q _. destruct (is_root s q); lia. }
  lia.
Qed.

Lemma forest_equation (rows s2 : Vector) :
  acyclic rows -> frame rows s2 ->
  (forall j, (j < length rows)%nat ->
     accAt s2 j = subtree_total (S (length rows)) rows j) ->
  forall i p, s2 !! i = Some p ->
    m_accResident p =
    m_resident p +
    sumZ (fun q => if bool_decide (parent q = id p) then m_accResident q else 0) s2.
Proof.
  intros Hac Hfr HT i p Hp.
  pose proof (frame_length _ _ Hfr) as Hlen.
  assert (i < length rows)%nat as Hi by (rewrite <- Hlen; eapply lookup_lt_Some; eassumption).
  destruct (lookup_At _ _ _ Hp) as (Hid & _ & Hraw & Hacc).
  destruct (frame_shapeAt _ _ i Hfr) as (Hid0 & _ & Hraw0).
  rewrite <- Hacc, (HT i Hi), (subtree_total_eq rows i Hac Hi).
  rewrite <- Hraw, Hraw0. f_equal.
  rewrite (sumZ_lookup _ s2), Hlen. apply sumZ_ext. intros k Hk.
  apply elem_of_seq in Hk.
  destruct (lookup_lt_frame _ _ k Hfr) as [q Hq]; [lia|].
  rewrite Hq. cbn [from_option].
  destruct (lookup_At _ _ _ Hq) as (_ & Hpar & _ & Haccq).
  destruct (frame_shapeAt _ _ k Hfr) as (_ & Hpar0 & _).
  rewrite <- (HT k) by lia. rewrite Haccq.
  assert (is_child rows i k = bool_decide (parent q = id p)) as ->; [|reflexivity].
  unfold is_child. apply bool_decide_ext. rewrite <- Hpar, Hpar0, <- Hid, Hid0.
  split; [tauto|]. intros Heq. split; [|exact Heq].
  intros ->. apply (Hac i), tc_once. apply parent_edge_At; [exact Hi | exact Hi | exact Heq].
Qed.

Lemma frame_ids s s' : frame s s' -> id <$> s' = id <$> s.
Proof.
  intros Hf. apply list_eq. intros j. rewrite !list_lookup_fmap.
  pose proof (frame_at _ _ j Hf) as H.
  destruct (s' !! j) as [p'|], (s !! j) as [p|]; simpl in *; try discriminate;
    [|reflexivity].
  unfold shape in H. congruence.
Qed.

Lemma is_root_publish (s : Vector) (q : Process) :
  is_root (publish_acc <$> s) q = is_root s q.
Proof.
  unfold is_root. induction s as [|p s IH]; [reflexivity|].
  rewrite fmap_cons. simpl. rewrite IH. reflexivity.
Qed.

Lemma ranked_acyclic (rank : nat -> nat) (s : Vector) :
  ranked rank s = true -> acyclic s.
Proof.
  intros Hr.
  assert (forall k i, parent_edge s k i -> (rank k < rank i)%nat) as Hedge.
  { intros k i He. destruct (parent_edge_lt _ _ _ He) as [Hk Hi].
    apply parent_edge_At in He; [|exact Hk|exact Hi].
    unfold ranked in Hr. rewrite forallb_forall in Hr.
    specialize (Hr k). rewrite forallb_forall in Hr.
    assert (In k (seq 0 (length s))) as Hink by (apply in_seq; lia).
    assert (In i (seq 0 (length s))) as Hini by (apply in_seq; lia).
    specialize (Hr Hink i Hini).
    rewrite bool_decide_eq_true_2 in Hr by exact He. simpl in Hr.
    apply Nat.ltb_lt in Hr. exact Hr. }
  assert (forall k i, tc (parent_edge s) k i -> (rank k < rank i)%nat) as Htc.
  { intros k i H. induction H as [k i He|k j i He _ IH].
    - apply Hedge, He.
    - apply Hedge in He. lia. }
  intros i Hi. apply Htc in Hi. lia.
Qed.

(** C1: on a row set whose parent graph has no cycle (rows whose parent
    identifier names no row are roots of the forest), the accumulation pass
    returns, keeps the identifiers and parents, and leaves in every row an
    accumulated value equal to the row's resident value before the pass plus
    the accumulated values of all rows whose parent identifier is its
    identifier; and, the identifiers being distinct, the accumulated values
    of the roots add up to the resident values of all rows before the
    pass. *)
Theorem accumulation_on_forest (rows : Vector) (fuel : nat) :
  acyclic rows -> (length rows < fuel)%nat ->
  exists rows',
    Machine_populateAccumulatedFields fuel rows = Ret tt rows' /\
    length rows' = length rows /\
    (forall i p p', rows !! i = Some p -> rows' !! i = Some p' ->
       id p' = id p /\ parent p' = parent p /\
       m_accResident p' =
       m_resident p +
       sumZ (fun q => if bool_decide (parent q = id p') then m_accResident q else 0)
            rows') /\
    (NoDup (id <$> rows) ->
     sumZ (fun q => if is_root rows' q then m_accResident q else 0) rows' =
     sumZ m_resident rows).
Proof.
  intros Hac Hfuel.
  destruct (accumulate_forest rows fuel Hac Hfuel) as (s2 & Hloop & Hfr & HT).
  destruct (populateAccumulatedFields_loops _ _ _ Hloop) as [Hrun _].
  pose proof (forest_equation rows s2 Hac Hfr HT) as Heq.
  assert (forall g : Process -> Z,
            (forall p, g (publish_acc p) = g p) ->
            sumZ g (publish_acc <$> s2) = sumZ g s2) as Hpub.
  { intros g Hg. rewrite sumZ_fmap. apply sumZ_ext. intros p _. apply Hg. }
  exists (publish_acc <$> s2). split; [exact Hrun|]. split; [|split].
  - rewrite length_fmap. apply (frame_length _ _ Hfr).
  - intros i p p' Hp Hp'.
    apply list_lookup_fmap_Some_1 in Hp' as (p2 & -> & Hp2).
    destruct (frame_lookup _ _ _ _ Hfr Hp) as (q & Hq & Hsh).
    assert (q = p2) as -> by congruence.
    unfold shape in Hsh. injection Hsh as Hi Hpa Hre.
    simpl. split; [exact Hi|]. split; [exact Hpa|].
    rewrite Hpub by reflexivity. rewrite <- Hre. apply (Heq i), Hp2.
  - intros Hnd.
    rewrite sumZ_fmap.
    rewrite (sumZ_ext _ (fun q => if is_root s2 q then m_accResident q else 0)).
    2:{ intros q _. rewrite is_root_publish. unfold is_root. reflexivity. }
    rewrite roots_total.
    + change (sumZ m_resident s2) with (sumZ (fun p => snd (shape p)) s2).
      rewrite <- (sumZ_fmap shape snd s2), Hfr, sumZ_fmap. reflexivity.
    + rewrite (frame_ids _ _ Hfr). exact Hnd.
    + intros p Hp. apply list_elem_of_lookup in Hp as [i Hp].
      apply (Heq i), Hp.
Qed.

Lemma accumulation_on_forest_witness :
  exists rows',
    Machine_populateAccumulatedFields 5 scenario = Ret tt rows' /\
    length rows' = length scenario /\
    (forall i p p', scenario !! i = Some p -> rows' !! i = Some p' ->
       id p' = id p /\ parent p' = parent p /\
       m_accResident p' =
       m_resident p +
       sumZ (fun q => if bool_decide (parent q = id p') then m_accResident q else 0)
            rows') /\
    (NoDup (id <$> scenario) ->
     sumZ (fun q => if is_root rows' q then m_accResident q else 0) rows' =
     sumZ m_resident scenario).
Proof.
  apply (accumulation_on_forest scenario 5).
  - apply (ranked_acyclic (fun i => 4 - i)%nat). vm_compute. reflexivity.
  - simpl. lia.
Defined.

(** The scenario of the specification: the accumulated values are 185, 60, 25
    and 10. *)
Example scenario_accumulated :
  Machine_populateAccumulatedFields 5 scenario =
  Ret tt [mkProcess 1 0 185 185; mkProcess 2 1 60 60;
          mkProcess 3 1 25 25; mkProcess 4 2 10 10].
Proof. vm_compute. reflexivity. Qed.

(** A row whose parent is missing is a root. *)
Example orphan_accumulated :
  Machine_populateAccumulatedFields 2 [row 1 99 5] = Ret tt [mkProcess 1 99 5 5].
Proof. vm_compute. reflexivity. Qed.

(** ** The counted accumulation computes the accumulation *)

Lemma erase_bind {A B} (m : M Counted A) (m' : M Vector A)
    (k : A -> M Counted B) (k' : A -> M Vector B) (c : Counted) :
  erase (m c) = m' (vec c) ->
  (forall a c1, erase (k a c1) = k' a (vec c1)) ->
  erase (bind m k c) = bind m' k' (vec c).
Proof.
  intros Hm Hk. unfold bind. rewrite <- Hm.
  destruct (m c) as [a c1|e c1]; simpl; [apply Hk | reflexivity].
Qed.

Lemma erase_lift {A} (m : M Vector A) (c : Counted) :
  erase (lift m c) = m (vec c).
Proof. unfold lift. destruct (m (vec c)); reflexivity. Qed.

Lemma erase_for_each (body : nat -> M Counted unit) (body' : nat -> M Vector unit)
    (l : list nat) :
  (forall i c, erase (body i c) = body' i (vec c)) ->
  forall c, erase (for_each l body c) = for_each l body' (vec c).
Proof.
  intros Hb. induction l as [|i l IH]; intros c; simpl; [reflexivity|].
  apply erase_bind; [apply Hb | intros _ c1; apply IH].
Qed.

(** The counted functions compute what the functions of the model compute. *)
Lemma erase_populate (fuel n cur : nat) (c : Counted) :
  erase (Machine_populateAccForProcess_counted fuel n cur c) =
  Machine_populateAccForProcess fuel n cur (vec c).
Proof.
  revert cur c. induction fuel as [|f IH]; intros cur c; [reflexivity|].
  rewrite populate_unfold. simpl.
  apply erase_bind; [apply erase_lift|]. intros row c1.
  destruct (bool_decide (m_accResident row <> -1)); [reflexivity|].
  apply erase_bind; [apply erase_lift|]. intros _ c2.
  apply erase_bind.
  - apply erase_for_each. intros i c3. unfold accumulate_child_counted, accumulate_child.
    unfold bind at 1. simpl.
    destruct (bool_decide (i = cur)); [reflexivity|].
    apply (erase_bind _ _ _ _ (mkCounted (vec c3) (S (iterations c3)))); [apply erase_lift|].
    intros r c4. destruct (bool_decide (parent r = id row)); [|reflexivity].
    apply erase_bind; [apply IH|]. intros v c5. apply erase_lift.
  - intros _ c3. apply erase_bind; [apply erase_lift|]. intros p c4. reflexivity.
Qed.

Lemma erase_populateAccumulatedFields (fuel : nat) (c : Counted) :
  erase (Machine_populateAccumulatedFields_counted fuel c) =
  Machine_populateAccumulatedFields fuel (vec c).
Proof.
  unfold Machine_populateAccumulatedFields_counted, Machine_populateAccumulatedFields.
  apply erase_bind; [apply erase_lift|]. intros n c1.
  apply erase_bind; [apply erase_for_each; intros; apply erase_lift|]. intros _ c2.
  apply erase_bind.
  - apply erase_for_each. intros i c3.
    apply erase_bind; [apply erase_populate | reflexivity].
  - intros _ c3. apply erase_for_each. intros; apply erase_lift.
Qed.

(** ** The accumulation on arbitrary parent links *)

Lemma uncomputed_le_length (s : Vector) : (uncomputed s <= length s)%nat.
Proof.
  induction s as [|p s IH]; simpl; [lia|].
  destruct (bool_decide (m_accResident p = -1)); lia.
Qed.

Lemma uncomputed_insert (s : Vector) (j : nat) (p p' : Process) :
  s !! j = Some p ->
  (uncomputed (<[j := p']> s) +
     (if bool_decide (m_accResident p = (-1)%Z) then 1 else 0) =
   uncomputed s +
     (if bool_decide (m_accResident p' = (-1)%Z) then 1 else 0))%nat.
Proof.
  revert j. induction s as [|q s IH]; intros j Hj; [discriminate|].
  destruct j as [|j]; simpl in *.
  - injection Hj as ->. lia.
  - specialize (IH j Hj). lia.
Qed.

Lemma uncomputed_reset (s : Vector) :
  uncomputed (set_accResident (-1) <$> s) = length s.
Proof.
  induction s as [|p s IH]; [reflexivity|].
  rewrite fmap_cons. simpl. rewrite IH. reflexivity.
Qed.

Lemma uncomputed_none (s : Vector) :
  Forall (fun p => 0 <= m_accResident p) s -> uncomputed s = 0%nat.
Proof.
  induction 1 as [|p s Hp _ IH]; simpl; [reflexivity|].
  rewrite bool_decide_eq_false_2 by lia. exact IH.
Qed.

Lemma wf_lookup (s : Vector) (j : nat) (p : Process) :
  wf s -> s !! j = Some p -> 0 <= m_resident p /\ -1 <= m_accResident p.
Proof. intros Hwf Hj. exact (Forall_lookup_1 _ _ _ _ Hwf Hj). Qed.

Lemma lift_Ret {A} (m : M Vector A) (c : Counted) a s :
  m (vec c) = Ret a s -> lift m c = Ret a (mkCounted s (iterations c)).
Proof. intros H. unfold lift. rewrite H. reflexivity. Qed.

Lemma populate_counted_unfold (fuel n cur : nat) :
  Machine_populateAccForProcess_counted (S fuel) n cur =
  (do row <- lift (Vector_get cur);
   if bool_decide (m_accResident row <> -1) then ret (m_accResident row)
   else
     lift (Process_update cur (fun p => set_accResident (m_resident p) p)) ;;
     for_each (seq 0 n)
       (accumulate_child_counted
          (Machine_populateAccForProcess_counted fuel n) cur (id row)) ;;
     do process <- lift (Vector_get cur);
     ret (m_accResident process)).
Proof. reflexivity. Qed.

(** With resident values that are not negative, a call returns whatever the
    parent links are: a row that is being computed no longer holds the
    sentinel, so every nested call that computes starts from fewer uncomputed
    rows.  Each of the [k] rows computed under the call costs [n] iterations
    of the loop. *)
Lemma populate_counted_nonneg (n : nat) :
  forall fuel cur c,
    length (vec c) = n -> wf (vec c) -> (cur < n)%nat ->
    (uncomputed (vec c) < fuel)%nat ->
    exists v c' k,
      Machine_populateAccForProcess_counted fuel n cur c = Ret v c' /\
      0 <= v /\ frame (vec c) (vec c') /\ wf (vec c') /\
      0 <= accAt (vec c') cur /\
      (forall j, 0 <= accAt (vec c) j -> 0 <= accAt (vec c') j) /\
      uncomputed (vec c) = (uncomputed (vec c') + k)%nat /\
      iterations c' = (iterations c + n * k)%nat.
Proof.
  induction fuel as [|f IH]; intros cur c Hlen Hwf Hcur Hfuel; [lia|].
  destruct c as [s it]. cbn [vec iterations] in *.
  destruct (lookup_lt_is_Some_2 s cur) as [p Hp]; [lia|].
  destruct (wf_lookup _ _ _ Hwf Hp) as [Hraw Hacc].
  destruct (lookup_At _ _ _ Hp) as (_ & _ & _ & HaccAt).
  rewrite populate_counted_unfold.
  rewrite (bind_Ret _ _ _ _ _ (lift_Ret _ (mkCounted s it) _ _ (Vector_get_Some _ _ _ Hp))).
  destruct (bool_decide_reflect (m_accResident p <> -1)) as [Hne|Heq].
  { exists (m_accResident p), (mkCounted s it), 0%nat. simpl.
    split; [reflexivity|]. split; [lia|]. split; [apply frame_refl|].
    split; [exact Hwf|]. split; [lia|]. split; [auto|]. lia. }
  assert (m_accResident p = -1) as Hm1 by lia. clear Heq.
  rewrite (bind_Ret _ _ _ _ _
             (lift_Ret _ (mkCounted s it) _ _ (Process_update_Some _ _ _ _ Hp))).
  simpl. set (s1 := <[cur := set_accResident (m_resident p) p]> s).
  assert (uncomputed s = uncomputed s1 + 1)%nat as Hu1.
  { pose proof (uncomputed_insert s cur p (set_accResident (m_resident p) p) Hp) as H.
    simpl in H. rewrite (bool_decide_eq_true_2 _ Hm1) in H.
    rewrite bool_decide_eq_false_2 in H by lia. fold s1 in H. lia. }
  assert (frame s s1) as Hfr1 by (eapply frame_insert; [exact Hp | reflexivity]).
  assert (wf s1) as Hwf1.
  { apply Forall_insert; [exact Hwf|]. simpl. lia. }
  assert (accAt s1 cur = m_resident p) as Hacc1.
  { unfold s1. rewrite accAt_insert by lia. rewrite decide_True by reflexivity.
    reflexivity. }
  destruct (for_each_inv
    (fun done c' =>
       frame s (vec c') /\ wf (vec c') /\ 0 <= accAt (vec c') cur /\
       (forall j, 0 <= accAt s1 j -> 0 <= accAt (vec c') j) /\
       exists k, uncomputed s1 = (uncomputed (vec c') + k)%nat /\
                 iterations c' = (it + length done + n * k)%nat)
    (accumulate_child_counted (Machine_populateAccForProcess_counted f n) cur (id p))
    (seq 0 n) (mkCounted s1 it)) as (c2 & Hrun & Hfr2 & Hwf2 & Hacc2 & Hmono2 & k2 & Hu2 & Hit2).
  - simpl. split; [exact Hfr1|]. split; [exact Hwf1|]. split; [lia|].
    split; [auto|]. exists 0%nat. lia.
  - intros done i rest [sa ita] Hl (Hfa & Hwfa & Hacca & Hmonoa & ka & Hua & Hita).
    simpl in *.
    assert (i < n)%nat as Hi.
    { assert (i ∈ seq 0 n) as Hin by (rewrite Hl; apply elem_of_app; right; left).
      apply elem_of_seq in Hin. lia. }
    pose proof (frame_length _ _ Hfa) as Hlena.
    unfold accumulate_child_counted.
    rewrite (bind_Ret _ _ _ tt (mkCounted sa (S ita))) by reflexivity.
    destruct (bool_decide (i = cur)).
    { eexists. split; [reflexivity|]. simpl. split; [exact Hfa|].
      split; [exact Hwfa|]. split; [exact Hacca|]. split; [exact Hmonoa|].
      exists ka. rewrite length_app. simpl. lia. }
    destruct (lookup_lt_is_Some_2 sa i) as [r Hr]; [lia|].
    rewrite (bind_Ret _ _ _ _ _
               (lift_Ret _ (mkCounted sa (S ita)) _ _ (Vector_get_Some _ _ _ Hr))).
    destruct (bool_decide (parent r = id p)).
    2:{ eexists. split; [reflexivity|]. simpl. split; [exact Hfa|].
        split; [exact Hwfa|]. split; [exact Hacca|]. split; [exact Hmonoa|].
        exists ka. rewrite length_app. simpl. lia. }
    destruct (IH i (mkCounted sa (S ita))) as (v & [sb itb] & kb & Hcall & Hv & Hfb & Hwfb & _ & Hmonob & Hub & Hitb);
      simpl in *; [lia | exact Hwfa | exact Hi | lia |].
    rewrite (bind_Ret _ _ _ _ _ Hcall).
    pose proof (frame_length _ _ Hfb) as Hlenb.
    destruct (lookup_lt_is_Some_2 sb cur) as [pc Hpc]; [lia|].
    rewrite (lift_Ret _ (mkCounted sb itb) _ _ (Process_update_Some _ _ _ _ Hpc)).
    destruct (lookup_At _ _ _ Hpc) as (_ & _ & _ & Hpcacc).
    pose proof (Hmonob cur Hacca) as Hcurb. rewrite Hpcacc in Hcurb.
    destruct (wf_lookup _ _ _ Hwfb Hpc) as [Hpcraw _].
    eexists. split; [reflexivity|]. simpl.
    split; [|split; [|split; [|split]]].
    + eapply frame_trans; [exact Hfa|]. eapply frame_trans; [exact Hfb|].
      eapply frame_insert; [exact Hpc | reflexivity].
    + apply Forall_insert; [exact Hwfb|]. simpl. lia.
    + rewrite accAt_insert by lia. rewrite decide_True by reflexivity. simpl. lia.
    + intros j Hj. rewrite accAt_insert by lia.
      destruct (decide (j = cur)); [simpl; lia|]. apply Hmonob, Hmonoa, Hj.
    + exists (ka + kb)%nat. rewrite length_app. simpl.
      pose proof (uncomputed_insert sb cur pc
                    (set_accResident (m_accResident pc + v) pc) Hpc) as H.
      simpl in H. rewrite !bool_decide_eq_false_2 in H by lia. lia.
  - rewrite (bind_Ret _ _ _ _ _ Hrun). destruct c2 as [s2 it2]. simpl in *.
    pose proof (frame_length _ _ Hfr2) as Hlen2.
    destruct (lookup_lt_is_Some_2 s2 cur) as [p2 Hp2]; [lia|].
    rewrite (bind_Ret _ _ _ _ _
               (lift_Ret _ (mkCounted s2 it2) _ _ (Vector_get_Some _ _ _ Hp2))).
    destruct (lookup_At _ _ _ Hp2) as (_ & _ & _ & Hp2acc).
    exists (m_accResident p2), (mkCounted s2 it2), (S k2). simpl.
    split; [reflexivity|]. split; [lia|]. split; [exact Hfr2|].
    split; [exact Hwf2|]. split; [exact Hacc2|]. split.
    + intros j Hj. apply Hmono2. unfold s1. rewrite accAt_insert by lia.
      destruct (decide (j = cur)); [simpl; lia | exact Hj].
    + rewrite length_seq in Hit2. lia.
Qed.

Lemma for_each_lift (body : nat -> M Vector unit) (l : list nat) (c : Counted) :
  for_each l (fun i => lift (body i)) c = lift (for_each l body) c.
Proof.
  revert c. induction l as [|i l IH]; intros [s it]; [reflexivity|].
  simpl. unfold bind, lift at 1 3. simpl.
  destruct (body i s) as [[] s'|e s']; [|reflexivity].
  rewrite IH. reflexivity.
Qed.

(** The second loop of [Machine_populateAccumulatedFields] on resident values
    that are not negative: it returns, every accumulated value is not
    negative, and the inner loop has run [n * n] times. *)
Lemma accumulate_counted_nonneg (rows : Vector) (fuel it : nat) :
  Forall (fun p => 0 <= m_resident p) rows -> (length rows < fuel)%nat ->
  exists s2,
    for_each (seq 0 (length rows))
      (fun i => do _ <- Machine_populateAccForProcess_counted fuel (length rows) i;
                ret tt)
      (mkCounted (set_accResident (-1) <$> rows) it) =
    Ret tt (mkCounted s2 (it + length rows * length rows)) /\
    frame rows s2 /\ Forall (fun p => 0 <= m_accResident p) s2.
Proof.
  intros Hraw Hfuel.
  set (n := length rows). set (s0 := set_accResident (-1) <$> rows).
  assert (frame rows s0) as Hfr0.
  { unfold frame, s0. rewrite <- list_fmap_compose. reflexivity. }
  assert (wf s0) as Hwf0.
  { unfold wf, s0. apply Forall_fmap. eapply Forall_impl; [exact Hraw|].
    intros p Hp. unfold compose. simpl in *. lia. }
  destruct (for_each_inv
    (fun done c' =>
       frame s0 (vec c') /\ wf (vec c') /\
       (forall j, j ∈ done -> 0 <= accAt (vec c') j) /\
       exists k, n = (uncomputed (vec c') + k)%nat /\
                 iterations c' = (it + n * k)%nat)
    (fun i => do _ <- Machine_populateAccForProcess_counted fuel n i; ret tt)
    (seq 0 n) (mkCounted s0 it)) as ([s2 it2] & Hrun & Hfr2 & Hwf2 & Hdone & k2 & Hu2 & Hit2).
  - simpl. split; [apply frame_refl|]. split; [exact Hwf0|]. split.
    + intros j Hj. apply elem_of_nil in Hj. contradiction.
    + exists 0%nat. unfold s0. rewrite uncomputed_reset. fold n. lia.
  - intros done i rest [sa ita] Hl (Hfa & Hwfa & Hda & ka & Hua & Hita). simpl in *.
    assert (i < n)%nat as Hi.
    { assert (i ∈ seq 0 n) as Hin by (rewrite Hl; apply elem_of_app; right; left).
      apply elem_of_seq in Hin. lia. }
    assert (length sa = n) as Hlena.
    { rewrite (frame_length _ _ Hfa). apply (frame_length _ _ Hfr0). }
    pose proof (uncomputed_le_length sa) as Hle.
    destruct (populate_counted_nonneg n fuel i (mkCounted sa ita))
      as (v & [sb itb] & kb & Hcall & _ & Hfb & Hwfb & Hib & Hmonob & Hub & Hitb);
      simpl in *; [exact Hlena | exact Hwfa | exact Hi | lia |].
    rewrite (bind_Ret _ _ _ _ _ Hcall).
    eexists. split; [reflexivity|]. simpl.
    split; [eapply frame_trans; eassumption|]. split; [exact Hwfb|]. split.
    + intros j Hj. apply elem_of_app in Hj as [Hj|Hj].
      * apply Hmonob, Hda, Hj.
      * apply list_elem_of_singleton in Hj as ->. exact Hib.
    + exists (ka + kb)%nat. lia.
  - simpl in *.
    assert (Forall (fun p => 0 <= m_accResident p) s2) as Hall.
    { apply Forall_lookup_2. intros j p Hp.
      destruct (lookup_At _ _ _ Hp) as (_ & _ & _ & <-).
      apply Hdone, elem_of_seq.
      apply lookup_lt_Some in Hp.
      rewrite (frame_length _ _ Hfr2), (frame_length _ _ Hfr0) in Hp. lia. }
    exists s2. split; [|split; [eapply frame_trans; eassumption | exact Hall]].
    rewrite Hrun. rewrite (uncomputed_none _ Hall) in Hu2.
    do 2 f_equal. lia.
Qed.

Lemma for_each_update_counted (f : Process -> Process) (s : Vector) (it : nat) :
  for_each (seq 0 (length s)) (fun i => lift (Process_update i f)) (mkCounted s it) =
  Ret tt (mkCounted (f <$> s) it).
Proof.
  rewrite for_each_lift.
  apply (lift_Ret _ (mkCounted s it)), for_each_update.
Qed.

Lemma populateAccumulatedFields_counted_loops (fuel : nat) (rows s2 : Vector)
    (it it2 : nat) :
  for_each (seq 0 (length rows))
    (fun i => do _ <- Machine_populateAccForProcess_counted fuel (length rows) i;
              ret tt)
    (mkCounted (set_accResident (-1) <$> rows) it) = Ret tt (mkCounted s2 it2) ->
  length s2 = length rows ->
  Machine_populateAccumulatedFields_counted fuel (mkCounted rows it) =
  Ret tt (mkCounted (publish_acc <$> s2) it2).
Proof.
  intros Hloop Hlen. unfold Machine_populateAccumulatedFields_counted.
  rewrite (bind_Ret _ _ _ (length rows) (mkCounted rows it)) by reflexivity.
  rewrite (bind_Ret _ _ _ _ _ (for_each_update_counted _ rows it)).
  rewrite (bind_Ret _ _ _ _ _ Hloop).
  rewrite <- Hlen. apply for_each_update_counted.
Qed.

(** On resident values that are not negative the pass returns and leaves
    accumulated values that are not negative. *)
Lemma populateAccumulatedFields_nonneg (rows : Vector) (fuel : nat) :
  Forall (fun p => 0 <= m_resident p) rows -> (length rows < fuel)%nat ->
  exists rows',
    Machine_populateAccumulatedFields fuel rows = Ret tt rows' /\
    length rows' = length rows /\
    Forall (fun p => 0 <= m_accResident p) rows'.
Proof.
  intros Hraw Hfuel.
  destruct (accumulate_counted_nonneg rows fuel 0 Hraw Hfuel) as (s2 & Hloop & Hfr & Hall).
  pose proof (frame_length _ _ Hfr) as Hlen.
  pose proof (populateAccumulatedFields_counted_loops _ _ _ _ _ Hloop Hlen) as Hrun.
  apply (f_equal erase) in Hrun. rewrite erase_populateAccumulatedFields in Hrun.
  simpl in Hrun. exists (publish_acc <$> s2).
  split; [exact Hrun|]. split; [rewrite length_fmap; exact Hlen|].
  apply Forall_fmap. eapply Forall_impl; [exact Hall|]. intros p Hp. exact Hp.
Qed.

(** C2: whatever the parent links are (cycles, rows that are each other's
    parent, dangling references, repeated identifiers), on resident values
    that are not negative the accumulation pass returns, for every fuel above
    the number of rows, and every accumulated value it leaves is an integer
    that is not negative. *)
Theorem accumulation_terminates (rows : Vector) (fuel : nat) :
  Forall (fun p => 0 <= m_resident p) rows -> (length rows < fuel)%nat ->
  exists rows',
    Machine_populateAccumulatedFields fuel rows = Ret tt rows' /\
    length rows' = length rows /\
    Forall (fun p => 0 <= m_accResident p) rows'.
Proof. apply populateAccumulatedFields_nonneg. Qed.

Lemma accumulation_terminates_witness :
  exists rows',
    Machine_populateAccumulatedFields 3 [row 1 2 10; row 2 1 7] = Ret tt rows' /\
    length rows' = length [row 1 2 10; row 2 1 7] /\
    Forall (fun p => 0 <= m_accResident p) rows'.
Proof.
  apply (accumulation_terminates [row 1 2 10; row 2 1 7] 3).
  - repeat constructor; simpl; lia.
  - simpl. lia.
Defined.

(** Two rows that are each other's parent: the pass returns 27 and 17. *)
Example mutual_cycle_accumulated :
  Machine_populateAccumulatedFields 3 [row 1 2 10; row 2 1 7] =
  Ret tt [mkProcess 1 2 27 27; mkProcess 2 1 17 17].
Proof. vm_compute. reflexivity. Qed.

(** With a resident value of [-1] a row of a cycle is taken for uncomputed
    again and again: the recursion does not end. *)
Example mutual_cycle_sentinel_raw :
  Machine_populateAccumulatedFields 50 [row 1 2 (-1); row 2 1 (-1)] =
  Abort OutOfFuel [row 1 2 (-1); row 2 1 (-1)].
Proof. vm_compute. reflexivity. Qed.

(** ** The cost of the accumulation *)

(** On resident values that are not negative every row is computed once, and
    computing a row walks the whole vector: the pass runs the inner loop
    [n * n] times on [n] rows, whatever the parent links are. *)
Lemma accumulation_is_quadratic (rows : Vector) (fuel : nat) :
  Forall (fun p => 0 <= m_resident p) rows -> (length rows < fuel)%nat ->
  exists rows',
    Machine_populateAccumulatedFields_counted fuel (mkCounted rows 0) =
    Ret tt (mkCounted rows' (length rows * length rows)).
Proof.
  intros Hraw Hfuel.
  destruct (accumulate_counted_nonneg rows fuel 0 Hraw Hfuel) as (s2 & Hloop & Hfr & _).
  exists (publish_acc <$> s2).
  apply populateAccumulatedFields_counted_loops; [exact Hloop|].
  apply (frame_length _ _ Hfr).
Qed.

Lemma flat_is_root (m : nat) (p : Process) :
  parent p = 0 -> is_root (flat m) p = true.
Proof.
  intros Hp. unfold is_root, flat. apply forallb_forall. intros q Hq.
  apply list_elem_of_In, list_elem_of_fmap in Hq as (i & -> & _).
  simpl. rewrite Hp. rewrite bool_decide_eq_false_2 by lia. reflexivity.
Qed.

Lemma flat_parent_edges (m : nat) : parent_edges (flat m) = 0%nat.
Proof.
  unfold parent_edges.
  assert (forall l : Vector, Forall (fun p => parent p = 0) l ->
            filter (fun p => is_root (flat m) p = false) l = []) as H.
  { induction 1 as [|p l Hp _ IH]; [reflexivity|].
    rewrite filter_cons_False; [exact IH|].
    rewrite (flat_is_root m p Hp). discriminate. }
  rewrite H; [reflexivity|].
  unfold flat. apply Forall_fmap, Forall_forall. intros i _. reflexivity.
Qed.

Lemma flat_NoDup (m : nat) : NoDup (id <$> flat m).
Proof.
  unfold flat. rewrite <- list_fmap_compose.
  apply NoDup_fmap_2_strong; [|apply NoDup_seq].
  intros i j _ _ H. unfold compose in H. simpl in H. lia.
Qed.

(** C9: the accumulation is not linear in the number of rows and parent
    edges.  For every constant [c] there is a row set, with distinct
    identifiers and resident values that are not negative, on which the pass
    runs the loop of [Machine_populateAccForProcess] more than
    [c * (n + e)] times: [c + 1] rows without parent take [(c + 1) * (c + 1)]
    iterations. *)
Theorem accumulation_not_linear :
  forall c : nat,
  exists rows rows' it,
    Forall (fun p => 0 <= m_resident p) rows /\ NoDup (id <$> rows) /\
    Machine_populateAccumulatedFields_counted (S (length rows)) (mkCounted rows 0) =
    Ret tt (mkCounted rows' it) /\
    (c * (length rows + parent_edges rows) < it)%nat.
Proof.
  intros c.
  assert (Forall (fun p => 0 <= m_resident p) (flat (S c))) as Hraw.
  { unfold flat. apply Forall_fmap, Forall_forall. intros i _.
    unfold compose. simpl. lia. }
  destruct (accumulation_is_quadratic (flat (S c)) (S (length (flat (S c)))) Hraw)
    as (rows' & Hrun); [lia|].
  exists (flat (S c)), rows', (length (flat (S c)) * length (flat (S c)))%nat.
  split; [exact Hraw|]. split; [apply flat_NoDup|]. split; [exact Hrun|].
  rewrite flat_parent_edges.
  assert (length (flat (S c)) = S c) as ->.
  { unfold flat. rewrite length_fmap, length_seq. reflexivity. }
  nia.
Qed.

(** Four rows without parent: 16 iterations. *)
Example flat_four_iterations :
  exists rows',
    Machine_populateAccumulatedFields_counted 5 (mkCounted (flat 4) 0) =
    Ret tt (mkCounted rows' 16).
Proof. eexists. vm_compute. reflexivity. Qed.

(** ** Running the pass again *)

(** C4: the pass run twice on the same rows, nothing in between.  The first
    run leaves the accumulated values 150 and 50 and has copied them over
    the resident values; the second run starts from these and leaves 200
    and 50. *)
Theorem accumulation_twice_differs :
  exists rows1 rows2,
    Machine_populateAccumulatedFields 3 parent_and_child = Ret tt rows1 /\
    Machine_populateAccumulatedFields 3 rows1 = Ret tt rows2 /\
    m_accResident <$> rows1 = [150; 50] /\
    m_accResident <$> rows2 = [200; 50].
Proof. do 2 eexists. vm_compute. repeat split; reflexivity. Qed.

Lemma parent_edge_fields (s s' : Vector) (k i : nat) :
  id <$> s' = id <$> s -> parent <$> s' = parent <$> s ->
  parent_edge s k i -> parent_edge s' k i.
Proof.
  intros Hid Hpar (pk & pi & Hk & Hi & Heq).
  assert (exists pk', s' !! k = Some pk' /\ parent pk' = parent pk) as (pk' & Hk' & Hpk).
  { pose proof (list_lookup_fmap parent s' k) as H1.
    rewrite Hpar, list_lookup_fmap, Hk in H1.
    destruct (s' !! k) as [pk'|]; simpl in H1; [|discriminate].
    exists pk'. split; [reflexivity | congruence]. }
  assert (exists pi', s' !! i = Some pi' /\ id pi' = id pi) as (pi' & Hi' & Hpi).
  { pose proof (list_lookup_fmap id s' i) as H1.
    rewrite Hid, list_lookup_fmap, Hi in H1.
    destruct (s' !! i) as [pi'|]; simpl in H1; [|discriminate].
    exists pi'. split; [reflexivity | congruence]. }
  exists pk', pi'. split; [exact Hk'|]. split; [exact Hi' | congruence].
Qed.

(** When the pass has returned, the resident value of every row is its
    accumulated value, and identifiers and parents are unchanged.  A pass run
    again on these very rows takes the accumulated values for resident
    values. *)
Lemma pass_publishes_accumulated (fuel : nat) (rows rows' : Vector) :
  Machine_populateAccumulatedFields fuel rows = Ret tt rows' ->
  Forall (fun p => m_resident p = m_accResident p) rows' /\
  id <$> rows' = id <$> rows /\ parent <$> rows' = parent <$> rows /\
  (acyclic rows -> forall fuel', (length rows < fuel')%nat ->
   exists rows'',
     Machine_populateAccumulatedFields fuel' rows' = Ret tt rows'' /\
     forall i p' p'', rows' !! i = Some p' -> rows'' !! i = Some p'' ->
       m_accResident p'' =
       m_accResident p' +
       sumZ (fun q => if bool_decide (parent q = id p'') then m_accResident q else 0)
            rows'').
Proof.
  intros Hrun.
  destruct (populateAccumulatedFields_inv _ _ _ Hrun) as (s2 & Hloop & ->).
  destruct (populateAccumulatedFields_loops _ _ _ Hloop) as [_ Hfr].
  assert (Forall (fun p => m_resident p = m_accResident p) (publish_acc <$> s2)) as Hall.
  { apply Forall_fmap, Forall_forall. intros p _. reflexivity. }
  assert (id <$> (publish_acc <$> s2) = id <$> rows) as Hid.
  { rewrite <- list_fmap_compose. apply (frame_ids _ _ Hfr). }
  assert (parent <$> (publish_acc <$> s2) = parent <$> rows) as Hpar.
  { rewrite <- list_fmap_compose. apply list_eq. intros j.
    rewrite !list_lookup_fmap. pose proof (frame_at _ _ j Hfr) as H.
    destruct (s2 !! j) as [p'|], (rows !! j) as [p|]; simpl in *; try discriminate;
      [|reflexivity].
    unfold shape in H. congruence. }
  split; [exact Hall|]. split; [exact Hid|]. split; [exact Hpar|].
  intros Hac fuel' Hfuel. set (rows' := publish_acc <$> s2) in *.
  assert (length rows' = length rows) as Hlen.
  { unfold rows'. rewrite length_fmap. apply (frame_length _ _ Hfr). }
  assert (acyclic rows') as Hac'.
  { intros i Htc. apply (Hac i).
    apply (tc_congruence (fun x : nat => x) (parent_edge rows)) in Htc; [exact Htc|].
    intros x y. apply parent_edge_fields; congruence. }
  destruct (accumulate_forest rows' fuel' Hac') as (s3 & Hloop3 & Hfr3 & HT3); [lia|].
  destruct (populateAccumulatedFields_loops _ _ _ Hloop3) as [Hrun3 _].
  pose proof (forest_equation rows' s3 Hac' Hfr3 HT3) as Heq.
  exists (publish_acc <$> s3). split; [exact Hrun3|].
  intros i p' p'' Hp' Hp''.
  apply list_lookup_fmap_Some_1 in Hp'' as (p3 & -> & Hp3).
  destruct (frame_lookup _ _ _ _ Hfr3 Hp') as (q & Hq & Hsh).
  assert (q = p3) as -> by congruence.
  unfold shape in Hsh. injection Hsh as _ _ Hre.
  rewrite sumZ_fmap. simpl.
  rewrite (Heq i p3 Hp3), Hre.
  rewrite (Forall_lookup_1 _ _ _ _ Hall Hp'). reflexivity.
Qed.


(** ** The loop over the tables *)

Section Scan.

Context {E : Type} {PC : PlatformClock E} {TC : TableClass E}.

Lemma refreshed_tables (method : Table -> State E -> State E) t (s : State E) :
  tables (this (refreshed method t s)) = tables (this s) /\
  prevMonotonicMs (this (refreshed method t s)) = prevMonotonicMs (this s) /\
  monotonicMs (this (refreshed method t s)) = monotonicMs (this s).
Proof. unfold refreshed. simpl. auto. Qed.

Lemma refresh_all_clock (ts : list Table) (s : State E) :
  tables (this (refresh_all ts s)) = tables (this s) /\
  prevMonotonicMs (this (refresh_all ts s)) = prevMonotonicMs (this s) /\
  monotonicMs (this (refresh_all ts s)) = monotonicMs (this s).
Proof.
  revert s. induction ts as [|t ts IH]; intros s; [auto|].
  unfold refresh_all in *. simpl. destruct (IH (refresh_table s t)) as (-> & -> & ->).
  unfold refresh_table, refreshed. simpl. auto.
Qed.

Lemma scan_table_run (r : Run E) (i : nat) (t : Table) :
  tables (this (state r)) !! i = Some t ->
  scan_table i r =
  Ret tt (mkRun (refresh_table (state r) t) (firstScanDone r)
                (calls r ++ table_calls t)).
Proof.
  intros Ht. unfold scan_table.
  rewrite (bind_Ret _ _ r t r) by (unfold table_at; rewrite Ht; reflexivity).
  unfold bind, call_method. simpl. unfold refresh_table, table_calls.
  rewrite <- !app_assoc. reflexivity.
Qed.

(** The loop of [Machine_scanTables] refreshes the tables in registration
    order. *)
Lemma scan_tables_loop (r : Run E) :
  for_each (seq 0 (tableCount (this (state r)))) scan_table r =
  Ret tt (mkRun (refresh_all (tables (this (state r))) (state r)) (firstScanDone r)
                (calls r ++ flat_map table_calls (tables (this (state r))))).
Proof.
  set (ts := tables (this (state r))).
  destruct (for_each_inv
    (fun done r' =>
       r' = mkRun (refresh_all (take (length done) ts) (state r)) (firstScanDone r)
                  (calls r ++ flat_map table_calls (take (length done) ts)))
    scan_table (seq 0 (length ts)) r) as (r' & Hrun & ->).
  - destruct r as [s f c]. simpl. f_equal. symmetry. apply app_nil_r.
  - intros done i rest r1 Hl ->.
    assert (i = length done /\ (i < length ts)%nat) as [-> Hlt].
    { assert (seq 0 (length ts) !! length done = Some i) as Hi.
      { rewrite Hl. rewrite lookup_app_r by lia. rewrite Nat.sub_diag. reflexivity. }
      apply lookup_seq in Hi. lia. }
    destruct (lookup_lt_is_Some_2 _ _ Hlt) as [t Ht].
    eexists. split.
    + apply scan_table_run. simpl.
      destruct (refresh_all_clock (take (length done) ts) (state r)) as (-> & _).
      exact Ht.
    + simpl. rewrite length_app. simpl. rewrite Nat.add_1_r.
      rewrite (take_S_r _ _ _ Ht). unfold refresh_all. rewrite foldl_app. simpl.
      rewrite flat_map_app. simpl. rewrite <- app_assoc. reflexivity.
  - unfold tableCount. fold ts. rewrite Hrun, length_seq, firstn_all. reflexivity.
Qed.

(** [Machine_scanTables] step by step. *)
Lemma scanTables_run (fuel : nat) (r : Run E) :
  Machine_scanTables fuel r =
  let r1 := advanced r in
  let m1 := this (state r1) in
  if bool_decide (monotonicMs m1 > prevMonotonicMs m1) then
    let s1 := mkState (set_maxUserId 0 m1) (rows (state r1)) (ext (state r1)) in
    let s2 := refresh_all (tables m1) s1 in
    let evs := calls r1 ++ [EvResetFieldWidths] ++ flat_map table_calls (tables m1) in
    match Machine_populateAccumulatedFields fuel (rows s2) with
    | Ret _ rows' =>
      Ret tt (mkRun (mkState (this s2) rows' (ext s2)) (firstScanDone r1)
                    (evs ++ [EvSetUidColumnWidth (maxUserId (this s2))]))
    | Abort e rows' =>
      Abort e (mkRun (mkState (this s2) rows' (ext s2)) (firstScanDone r1) evs)
    end
  else Abort AssertFail r1.
Proof.
  unfold Machine_scanTables.
  assert ((fun r0 : Run E =>
             if firstScanDone r0 then
               (with_machine (fun m => set_prevMonotonicMs (monotonicMs m) m) ;;
                read_monotonic) r0
             else
               (with_machine (set_prevMonotonicMs 0) ;;
                with_machine (set_monotonicMs 1) ;;
                fun r' => Ret tt (mkRun (state r') true (calls r'))) r0) r =
          Ret tt (advanced r)) as Hadv.
  { unfold advanced. destruct r as [[m rs e] [|] c]; simpl.
    - unfold bind, with_machine, read_monotonic. simpl.
      destruct (Platform_gettime_monotonic e) as [ms e']. reflexivity.
    - reflexivity. }
  rewrite (bind_Ret _ _ _ _ _ Hadv). clear Hadv.
  generalize (advanced r). intros r1. cbv zeta.
  rewrite (bind_Ret _ _ r1 (this (state r1)) r1) by reflexivity.
  destruct (bool_decide (monotonicMs (this (state r1)) > prevMonotonicMs (this (state r1))));
    [|reflexivity].
  unfold assert.
  rewrite (bind_Ret _ _ r1 tt r1) by reflexivity.
  set (rA := mkRun (mkState (set_maxUserId 0 (this (state r1))) (rows (state r1))
                            (ext (state r1)))
                   (firstScanDone r1) (calls r1)).
  rewrite (bind_Ret _ _ r1 tt rA) by reflexivity.
  set (rB := mkRun (state rA) (firstScanDone r1) (calls r1 ++ [EvResetFieldWidths])).
  rewrite (bind_Ret _ _ rA tt rB) by reflexivity.
  rewrite (bind_Ret _ _ rB (this (state rB)) rB) by reflexivity.
  rewrite (bind_Ret _ _ _ _ _ (scan_tables_loop rB)).
  unfold bind at 1. unfold populateAccumulatedFields_of_machine.
  cbn [state this rows ext calls firstScanDone rB rA].
  change (tables (set_maxUserId 0 (this (state r1)))) with (tables (this (state r1))).
  destruct (Machine_populateAccumulatedFields fuel _) as [[] rows'|e rows'].
  - unfold bind, the_machine, call. simpl. rewrite <- !app_assoc. reflexivity.
  - simpl. rewrite <- !app_assoc. reflexivity.
Qed.

End Scan.

(** ** No failed assertion in the accumulation *)

Lemma no_assert_bind {St A B} (c : M St A) (k : A -> M St B) (s : St) :
  no_assert (c s) -> (forall a s', no_assert (k a s')) -> no_assert (bind c k s).
Proof.
  intros Hc Hk. unfold bind. destruct (c s) as [a s'|e s'] eqn:Hcs; [apply Hk|].
  intros s'' Heq. apply (Hc s'). congruence.
Qed.

Lemma no_assert_for_each {St} (body : nat -> M St unit) (l : list nat) :
  (forall i s, no_assert (body i s)) -> forall s, no_assert (for_each l body s).
Proof.
  intros Hb. induction l as [|i l IH]; intros s; simpl.
  - intros s' Heq. discriminate.
  - apply no_assert_bind; [apply Hb | intros _ s'; apply IH].
Qed.

Lemma no_assert_Vector_get (i : nat) (s : Vector) : no_assert (Vector_get i s).
Proof. unfold Vector_get. intros s'. destruct (s !! i); discriminate. Qed.

Lemma no_assert_Process_update (i : nat) f (s : Vector) :
  no_assert (Process_update i f s).
Proof.
  unfold Process_update. apply no_assert_bind; [apply no_assert_Vector_get|].
  intros p s' s''. discriminate.
Qed.

Lemma no_assert_populate (fuel n cur : nat) (s : Vector) :
  no_assert (Machine_populateAccForProcess fuel n cur s).
Proof.
  revert cur s. induction fuel as [|f IH]; intros cur s.
  { intros s'. discriminate. }
  rewrite populate_unfold. apply no_assert_bind; [apply no_assert_Vector_get|].
  intros row s1. destruct (bool_decide (m_accResident row <> -1)).
  { intros s'. discriminate. }
  apply no_assert_bind; [apply no_assert_Process_update|]. intros _ s2.
  apply no_assert_bind.
  - apply no_assert_for_each. intros i s3. unfold accumulate_child.
    destruct (bool_decide (i = cur)); [intros s'; discriminate|].
    apply no_assert_bind; [apply no_assert_Vector_get|]. intros r s4.
    destruct (bool_decide (parent r = id row)); [|intros s'; discriminate].
    apply no_assert_bind; [apply IH|]. intros v s5. apply no_assert_Process_update.
  - intros _ s3. apply no_assert_bind; [apply no_assert_Vector_get|].
    intros p s4 s'. discriminate.
Qed.

Lemma no_assert_populateAccumulatedFields (fuel : nat) (s : Vector) :
  no_assert (Machine_populateAccumulatedFields fuel s).
Proof.
  unfold Machine_populateAccumulatedFields.
  apply no_assert_bind; [intros s'; discriminate|]. intros n s1.
  apply no_assert_bind.
  { apply no_assert_for_each. intros. apply no_assert_Process_update. }
  intros _ s2. apply no_assert_bind.
  { apply no_assert_for_each. intros i s3.
    apply no_assert_bind; [apply no_assert_populate|]. intros v s4 s'. discriminate. }
  intros _ s3. apply no_assert_for_each. intros. apply no_assert_Process_update.
Qed.

(** ** Clock, assertion and order of a scan *)

Section ScanCycle.

Context {E : Type} {PC : PlatformClock E} {TC : TableClass E}.

Lemma advanced_tables (r : Run E) :
  tables (this (state (advanced r))) = tables (this (state r)).
Proof.
  unfold advanced. destruct (firstScanDone r); [|reflexivity].
  destruct (Platform_gettime_monotonic (ext (state r))). reflexivity.
Qed.

Lemma advanced_clock (r : Run E) :
  firstScanDone (advanced r) = true /\
  if firstScanDone r then
    prevMonotonicMs (this (state (advanced r))) = monotonicMs (this (state r)) /\
    monotonicMs (this (state (advanced r))) =
    fst (Platform_gettime_monotonic (ext (state r))) /\
    calls (advanced r) = calls r ++ [EvGettimeMonotonic]
  else
    prevMonotonicMs (this (state (advanced r))) = 0 /\
    monotonicMs (this (state (advanced r))) = 1 /\
    calls (advanced r) = calls r.
Proof.
  unfold advanced. destruct (firstScanDone r).
  - destruct (Platform_gettime_monotonic (ext (state r))). simpl. auto.
  - simpl. auto.
Qed.

(** What a scan that returns leaves in the machine and in the calls. *)
Lemma scanTables_inv (fuel : nat) (r r' : Run E) :
  Machine_scanTables fuel r = Ret tt r' ->
  let r1 := advanced r in
  let s1 := mkState (set_maxUserId 0 (this (state r1))) (rows (state r1))
                    (ext (state r1)) in
  let s2 := refresh_all (tables (this (state r))) s1 in
  prevMonotonicMs (this (state r1)) < monotonicMs (this (state r1)) /\
  exists rows',
    Machine_populateAccumulatedFields fuel (rows s2) = Ret tt rows' /\
    r' = mkRun (mkState (this s2) rows' (ext s2)) true
           (calls r1 ++ [EvResetFieldWidths] ++
            flat_map table_calls (tables (this (state r))) ++
            [EvSetUidColumnWidth (maxUserId (this s2))]).
Proof.
  intros Hrun. rewrite scanTables_run in Hrun. cbv zeta in *.
  rewrite advanced_tables in Hrun.
  destruct (bool_decide_reflect
              (monotonicMs (this (state (advanced r))) >
               prevMonotonicMs (this (state (advanced r))))) as [Hgt|]; [|discriminate].
  split; [lia|].
  destruct (Machine_populateAccumulatedFields fuel _) as [[] rows'|e rows'];
    [|discriminate].
  exists rows'. split; [reflexivity|].
  destruct (advanced_clock r) as [Hf _]. rewrite Hf in Hrun.
  injection Hrun as <-. rewrite <- !app_assoc. reflexivity.
Qed.

(** C7: a call of [Machine_scanTables] that returns has, in this order,
    advanced the clock ([advanced]), set [maxUserId] to zero ([s1]), called
    [Row_resetFieldWidths], refreshed every table of the registry in
    registration order, each with prepare, then ingest, then cleanup before
    the next table ([refresh_all] and the calls made), run the accumulation on
    the rows of the process table as the refresh left them, and last passed
    [maxUserId], as the refresh left it, to [Row_setUidColumnWidth]. *)
Theorem scan_order (fuel : nat) (r r' : Run E) :
  Machine_scanTables fuel r = Ret tt r' ->
  let r1 := advanced r in
  let s1 := mkState (set_maxUserId 0 (this (state r1))) (rows (state r1))
                    (ext (state r1)) in
  let s2 := refresh_all (tables (this (state r))) s1 in
  exists rows',
    Machine_populateAccumulatedFields fuel (rows s2) = Ret tt rows' /\
    state r' = mkState (this s2) rows' (ext s2) /\
    calls r' =
    calls r ++ (if firstScanDone r then [EvGettimeMonotonic] else []) ++
    [EvResetFieldWidths] ++
    flat_map table_calls (tables (this (state r))) ++
    [EvSetUidColumnWidth (maxUserId (this s2))].
Proof.
  intros Hrun. destruct (scanTables_inv _ _ _ Hrun) as (_ & rows' & Hacc & ->).
  cbv zeta. exists rows'. split; [exact Hacc|]. split; [reflexivity|].
  simpl. destruct (advanced_clock r) as [_ Hc].
  destruct (firstScanDone r).
  - destruct Hc as (_ & _ & ->). rewrite <- !app_assoc. reflexivity.
  - destruct Hc as (_ & _ & ->). reflexivity.
Qed.

(** C6: on a scan that is not the first, a timestamp that is not above the
    time of the previous scan makes the assertion fail: the call aborts
    after the clock was read, before any table is refreshed, and the rows are
    untouched.  With a timestamp above the time of the previous scan, and on
    the first scan, no call of [Machine_scanTables] ends in a failed
    assertion. *)
Theorem clock_regression_aborts (fuel : nat) (r : Run E) :
  (firstScanDone r = true ->
   fst (Platform_gettime_monotonic (ext (state r))) <= monotonicMs (this (state r)) ->
   Machine_scanTables fuel r = Abort AssertFail (advanced r) /\
   calls (advanced r) = calls r ++ [EvGettimeMonotonic] /\
   rows (state (advanced r)) = rows (state r)) /\
  (firstScanDone r = false \/
   monotonicMs (this (state r)) < fst (Platform_gettime_monotonic (ext (state r))) ->
   forall r', Machine_scanTables fuel r <> Abort AssertFail r').
Proof.
  pose proof (advanced_clock r) as [_ Hclk]. split.
  - intros Hfirst Hle. rewrite Hfirst in Hclk. destruct Hclk as (Hp & Hm & Hc).
    rewrite scanTables_run. cbv zeta.
    rewrite bool_decide_eq_false_2 by lia.
    split; [reflexivity|]. split; [exact Hc|].
    unfold advanced. rewrite Hfirst.
    destruct (Platform_gettime_monotonic (ext (state r))). reflexivity.
  - intros Hok r' Hrun. rewrite scanTables_run in Hrun. cbv zeta in Hrun.
    assert (monotonicMs (this (state (advanced r))) >
            prevMonotonicMs (this (state (advanced r)))) as Hgt.
    { destruct (firstScanDone r).
      - destruct Hclk as (-> & -> & _). destruct Hok as [Hok|Hok]; [discriminate | lia].
      - destruct Hclk as (-> & -> & _). lia. }
    rewrite (bool_decide_eq_true_2 _ Hgt) in Hrun.
    destruct (Machine_populateAccumulatedFields fuel _) as [[] rows'|e rows'] eqn:Hacc;
      [discriminate|].
    injection Hrun as -> _.
    exact (no_assert_populateAccumulatedFields _ _ _ Hacc).
Qed.

Lemma scan_cycles_clock (fuel : nat) :
  forall k (r0 r' : Run E) (history : list (Run E)),
    scan_cycles fuel k r0 = Ret history r' ->
    forall j rj, history !! j = Some rj ->
      firstScanDone rj = true /\
      prevMonotonicMs (this (state rj)) < monotonicMs (this (state rj)) /\
      (j = 0%nat ->
       if firstScanDone r0 then
         prevMonotonicMs (this (state rj)) = monotonicMs (this (state r0)) /\
         monotonicMs (this (state rj)) =
         fst (Platform_gettime_monotonic (ext (state r0)))
       else
         prevMonotonicMs (this (state rj)) = 0 /\ monotonicMs (this (state rj)) = 1) /\
      (forall j' rp, j = S j' -> history !! j' = Some rp ->
         prevMonotonicMs (this (state rj)) = monotonicMs (this (state rp)) /\
         monotonicMs (this (state rj)) =
         fst (Platform_gettime_monotonic (ext (state rp)))).
Proof.
  induction k as [|k IH]; intros r0 r' history Hrun j rj Hj.
  { injection Hrun as <- _. discriminate. }
  simpl in Hrun.
  apply bind_inv in Hrun as ([] & r1 & Hscan & Hrun).
  apply bind_inv in Hrun as (r1' & r1'' & Hget & Hrun).
  injection Hget as <- <-.
  apply bind_inv in Hrun as (later & r2 & Hlater & Hret).
  injection Hret as <- <-.
  destruct (scanTables_inv _ _ _ Hscan) as (Hlt & rows' & _ & Hr1).
  cbv zeta in *.
  pose proof (advanced_clock r0) as [_ Hclk].
  assert (prevMonotonicMs (this (state r1)) = prevMonotonicMs (this (state (advanced r0))) /\
          monotonicMs (this (state r1)) = monotonicMs (this (state (advanced r0))) /\
          firstScanDone r1 = true) as (Hp1 & Hm1 & Hf1).
  { rewrite Hr1. simpl.
    destruct (refresh_all_clock (tables (this (state r0)))
                (mkState (set_maxUserId 0 (this (state (advanced r0))))
                         (rows (state (advanced r0))) (ext (state (advanced r0)))))
      as (_ & -> & ->). auto. }
  destruct j as [|j].
  - injection Hj as <-. split; [exact Hf1|]. split; [lia|]. split.
    + intros _. rewrite Hp1, Hm1. destruct (firstScanDone r0); tauto.
    + intros j' rp Hj'. discriminate.
  - simpl in Hj. destruct (IH _ _ _ Hlater j rj Hj) as (Hfj & Hltj & Hz & HS).
    split; [exact Hfj|]. split; [exact Hltj|]. split; [intros Hj0; discriminate|].
    intros j' rp Hj' Hrp. injection Hj' as <-.
    destruct j as [|j].
    + simpl in Hrp. injection Hrp as <-.
      specialize (Hz eq_refl). rewrite Hf1 in Hz. exact Hz.
    + simpl in Hrp. apply (HS j rp eq_refl Hrp).
Qed.

(** C5: in a sequence of scans from the start of the program, the first scan
    sets the previous time to 0 and the time to 1; every later scan sets the
    previous time to the time of the scan before it and the time to the
    timestamp it reads from the monotonic clock; and after every scan of the
    sequence the time is above the previous time. *)
Theorem logical_time_advances (fuel k : nat) (r0 r' : Run E) (history : list (Run E)) :
  firstScanDone r0 = false ->
  scan_cycles fuel k r0 = Ret history r' ->
  forall j rj, history !! j = Some rj ->
    prevMonotonicMs (this (state rj)) < monotonicMs (this (state rj)) /\
    (j = 0%nat ->
     prevMonotonicMs (this (state rj)) = 0 /\ monotonicMs (this (state rj)) = 1) /\
    (forall j' rp, j = S j' -> history !! j' = Some rp ->
       prevMonotonicMs (this (state rj)) = monotonicMs (this (state rp)) /\
       monotonicMs (this (state rj)) =
       fst (Platform_gettime_monotonic (ext (state rp)))).
Proof.
  intros Hfirst Hrun j rj Hj.
  destruct (scan_cycles_clock fuel k r0 r' history Hrun j rj Hj) as (_ & Hlt & Hz & HS).
  rewrite Hfirst in Hz. auto.
Qed.

End ScanCycle.

(** ** The resident values from one cycle to the next *)

Section NextCycle.

Context {E : Type} {PC : PlatformClock E} {TC : TableClass E}.

Lemma scanTables_accumulation (fuel : nat) (r r' : Run E) :
  Machine_scanTables fuel r = Ret tt r' ->
  Machine_populateAccumulatedFields fuel (accumulation_input r) =
  Ret tt (rows (state r')).
Proof.
  intros Hrun. destruct (scanTables_inv _ _ _ Hrun) as (_ & rows' & Hpass & ->).
  exact Hpass.
Qed.

(** C10, as the code has it: when the accumulation of a scan cycle has
    returned, the resident value of every row has been overwritten with its
    accumulated value, identifiers and parents being those of the rows that
    the refresh had left.  The next cycle refreshes the tables before it
    accumulates, and its accumulation reads the resident values that this
    refresh leaves: on a forest the new accumulated value of a row is that
    resident value plus the new accumulated values of its children.  It is
    the accumulated value of the cycle before only for a row whose resident
    value the refresh has left as it was. *)
Theorem resident_overwritten (fuel : nat) (r r1 : Run E) :
  Machine_scanTables fuel r = Ret tt r1 ->
  (Machine_populateAccumulatedFields fuel (accumulation_input r) =
   Ret tt (rows (state r1)) /\
   Forall (fun p => m_resident p = m_accResident p) (rows (state r1)) /\
   id <$> rows (state r1) = id <$> accumulation_input r /\
   parent <$> rows (state r1) = parent <$> accumulation_input r) /\
  forall fuel' r2,
    Machine_scanTables fuel' r1 = Ret tt r2 ->
    Machine_populateAccumulatedFields fuel' (accumulation_input r1) =
    Ret tt (rows (state r2)) /\
    (acyclic (accumulation_input r1) ->
     (length (accumulation_input r1) < fuel')%nat ->
     forall i q p2,
       accumulation_input r1 !! i = Some q -> rows (state r2) !! i = Some p2 ->
       m_accResident p2 =
       m_resident q +
       sumZ (fun c => if bool_decide (parent c = id p2) then m_accResident c else 0)
            (rows (state r2)) /\
       forall p,
         rows (state r1) !! i = Some p -> m_resident q = m_resident p ->
         m_accResident p2 =
         m_accResident p +
         sumZ (fun c => if bool_decide (parent c = id p2) then m_accResident c else 0)
              (rows (state r2))).
Proof.
  intros Hrun.
  pose proof (scanTables_accumulation _ _ _ Hrun) as Hpass.
  destruct (pass_publishes_accumulated _ _ _ Hpass) as (Hall & Hid & Hpar & _).
  split; [auto|].
  intros fuel' r2 Hrun2.
  pose proof (scanTables_accumulation _ _ _ Hrun2) as Hpass2.
  split; [exact Hpass2|].
  intros Hac Hfuel i q p2 Hq Hp2.
  destruct (accumulate_forest _ fuel' Hac Hfuel) as (s3 & Hloop3 & Hfr3 & HT3).
  destruct (populateAccumulatedFields_loops _ _ _ Hloop3) as [Hrun3 _].
  pose proof (forest_equation _ s3 Hac Hfr3 HT3) as Heq.
  assert (rows (state r2) = publish_acc <$> s3) as Hrows by congruence.
  rewrite Hrows in *.
  apply list_lookup_fmap_Some_1 in Hp2 as (p3 & -> & Hp3).
  destruct (frame_lookup _ _ _ _ Hfr3 Hq) as (q' & Hq' & Hsh).
  assert (q' = p3) as -> by congruence.
  unfold shape in Hsh. injection Hsh as _ _ Hre.
  assert (m_accResident (publish_acc p3) =
          m_resident q +
          sumZ (fun c => if bool_decide (parent c = id (publish_acc p3))
                         then m_accResident c else 0) (publish_acc <$> s3)) as Hnew.
  { rewrite sumZ_fmap. simpl. rewrite (Heq i p3 Hp3), Hre. reflexivity. }
  split; [exact Hnew|].
  intros p Hp Hsame. rewrite Hnew, Hsame.
  rewrite (Forall_lookup_1 _ _ _ _ Hall Hp). reflexivity.
Qed.

End NextCycle.

(** ** The table registry *)

Lemma existsb_table (t : Table) (ts : list Table) :
  existsb (fun t' => bool_decide (t' = t)) ts = true <-> t ∈ ts.
Proof.
  rewrite existsb_exists. split.
  - intros (t' & Hin & Heq). apply bool_decide_eq_true in Heq. subst t'.
    apply list_elem_of_In, Hin.
  - intros Hin. exists t. split; [apply list_elem_of_In, Hin|].
    apply bool_decide_eq_true. reflexivity.
Qed.

Lemma addTable_present (this : Machine) (t : Table) :
  t ∈ tables this -> Machine_addTable this t = this.
Proof.
  intros Hin. unfold Machine_addTable.
  rewrite (proj2 (existsb_table t (tables this)) Hin). reflexivity.
Qed.

Lemma addTable_absent (this : Machine) (t : Table) :
  t ∉ tables this -> Machine_addTable this t = set_tables (tables this ++ [t]) this.
Proof.
  intros Hnotin. unfold Machine_addTable.
  destruct (existsb _ (tables this)) eqn:Hex; [|reflexivity].
  apply existsb_table in Hex. contradiction.
Qed.

Lemma addTable_fields (this : Machine) (t : Table) :
  settings (Machine_addTable this t) = settings this /\
  activeTable (Machine_addTable this t) = activeTable this /\
  exists later, tables (Machine_addTable this t) = tables this ++ later.
Proof.
  unfold Machine_addTable. destruct (existsb _ (tables this)); simpl.
  - split; [reflexivity|]. split; [reflexivity|]. exists []. rewrite app_nil_r. reflexivity.
  - split; [reflexivity|]. split; [reflexivity|]. exists [t]. reflexivity.
Qed.

(** One screen: its table is registered, and it becomes the active table if
    the screen is the first. *)
Lemma populate_screen_run (pt : Table) (i : nat) (this : Machine) (st : Settings) :
  settings this = Some st -> (i < length (screens st))%nat ->
  exists t st' later this',
    populate_screen pt i this = Ret tt this' /\
    settings this' = Some st' /\ length (screens st') = length (screens st) /\
    tables this' = tables this ++ later /\
    (tables this = [] -> later = [t]) /\
    activeTable this' = if bool_decide (i = 0%nat) then Some t else activeTable this.
Proof.
  intros Hst Hi. unfold populate_screen. rewrite Hst.
  destruct (lookup_lt_is_Some_2 _ _ Hi) as [ss Hss]. rewrite Hss.
  destruct (table ss) as [t|].
  - destruct (addTable_fields
                (if bool_decide (i = 0%nat) then set_activeTable t this else this) t)
      as (Hs & Ha & later & Ht).
    exists t, st, later. eexists. split; [reflexivity|].
    rewrite Hs, Ha, Ht. destruct (bool_decide (i = 0%nat)); simpl;
      (split; [exact Hst|]; split; [reflexivity|]; split; [reflexivity|];
       split; [|reflexivity]).
    all: intros Hnil; unfold Machine_addTable in Ht; simpl in Ht;
      rewrite Hnil in Ht; simpl in Ht; congruence.
  - set (st' := mkSettings (<[i := mkScreenSettings (Some pt)]> (screens st))).
    destruct (addTable_fields
                (if bool_decide (i = 0%nat)
                 then set_activeTable pt (set_settings st' this)
                 else set_settings st' this) pt)
      as (Hs & Ha & later & Ht).
    exists pt, st', later. eexists. split; [reflexivity|].
    rewrite Hs, Ha, Ht. destruct (bool_decide (i = 0%nat)); simpl;
      (split; [reflexivity|]; split; [apply length_insert|]; split; [reflexivity|];
       split; [|reflexivity]).
    all: intros Hnil; unfold Machine_addTable in Ht; simpl in Ht;
      rewrite Hnil in Ht; simpl in Ht; congruence.
Qed.

(** C8: registering a table that is in the registry leaves the machine as it
    is; registering another table appends it to the registry and changes
    nothing else; a registry without repetition stays so; and
    [Machine_populateTablesFromSettings] on an empty registry and at least
    one screen returns with the table registered first as active table. *)
Theorem table_registration (this : Machine) (t : Table) :
  (t ∈ tables this -> Machine_addTable this t = this) /\
  (t ∉ tables this ->
   Machine_addTable this t = set_tables (tables this ++ [t]) this) /\
  (NoDup (tables this) -> NoDup (tables (Machine_addTable this t))) /\
  (forall st pt, tables this = [] -> screens st <> [] ->
     exists this' first later,
       Machine_populateTablesFromSettings st pt this = Ret tt this' /\
       tables this' = first :: later /\ activeTable this' = Some first).
Proof.
  split; [apply addTable_present|]. split; [apply addTable_absent|]. split.
  { intros Hnd. destruct (decide (t ∈ tables this)) as [Hin|Hnotin].
    - rewrite addTable_present by exact Hin. exact Hnd.
    - rewrite addTable_absent by exact Hnotin. simpl.
      apply NoDup_app. split; [exact Hnd|]. split; [|apply NoDup_singleton].
      intros x Hx Hx'. apply list_elem_of_singleton in Hx'. subst x. contradiction. }
  intros st pt Hnil Hscreens.
  unfold Machine_populateTablesFromSettings.
  set (m0 := set_processTable pt (set_settings st this)).
  destruct (screens st) as [|ss0 rest] eqn:Hsc; [contradiction|]. clear Hscreens.
  change (length (ss0 :: rest)) with (S (length rest)).
  change (seq 0 (S (length rest))) with (0%nat :: seq 1 (length rest)).
  destruct (populate_screen_run pt 0 m0 st) as (first & st1 & later1 & m1 & Hrun1 & Hst1 & Hlen1 & Ht1 & Hl1 & Ha1);
    [reflexivity | rewrite Hsc; simpl; lia |].
  assert (tables m0 = []) as Hnil0 by exact Hnil.
  rewrite Hnil0, (Hl1 Hnil0) in Ht1. simpl in Ht1, Ha1.
  simpl for_each. rewrite (bind_Ret _ _ _ _ _ Hrun1).
  destruct (for_each_inv
    (fun done m' =>
       (exists later, tables m' = first :: later) /\ activeTable m' = Some first /\
       exists st', settings m' = Some st' /\ length (screens st') = length (screens st))
    (populate_screen pt) (seq 1 (length rest)) m1) as (m2 & Hrun2 & (later2 & Ht2) & Ha2 & _).
  - split; [exists []; exact Ht1|]. split; [exact Ha1|]. exists st1. auto.
  - intros done i rest' ma Hl ((latera & Hta) & Haa & sta & Hsta & Hlena).
    assert (1 <= i < S (length rest))%nat as Hi.
    { assert (i ∈ seq 1 (length rest)) as Hin by (rewrite Hl; apply elem_of_app; right; left).
      apply elem_of_seq in Hin. lia. }
    destruct (populate_screen_run pt i ma sta Hsta) as (t' & st' & later' & mb & Hrunb & Hstb & Hlenb & Htb & _ & Hab).
    { rewrite Hlena, Hsc. simpl. lia. }
    exists mb. split; [exact Hrunb|].
    rewrite bool_decide_eq_false_2 in Hab by lia.
    split; [exists (latera ++ later'); rewrite Htb, Hta; reflexivity|].
    split; [congruence|]. exists st'. split; [exact Hstb | congruence].
  - exists m2, first, later2. auto.
Qed.

(** ** The claims on a small machine *)

Lemma logical_time_advances_witness :
  firstScanDone demo_run = false /\
  scan_cycles 3 2 demo_run = Ret [demo_first; demo_second] demo_second /\
  [demo_first; demo_second] !! 1%nat = Some demo_second /\
  (prevMonotonicMs (this (state demo_second)) < monotonicMs (this (state demo_second)) /\
   (1%nat = 0%nat ->
    prevMonotonicMs (this (state demo_second)) = 0 /\
    monotonicMs (this (state demo_second)) = 1) /\
   (forall j' rp, 1%nat = S j' -> [demo_first; demo_second] !! j' = Some rp ->
      prevMonotonicMs (this (state demo_second)) = monotonicMs (this (state rp)) /\
      monotonicMs (this (state demo_second)) =
      fst (Platform_gettime_monotonic (ext (state rp))))).
Proof.
  split; [reflexivity|]. split; [vm_compute; reflexivity|]. split; [reflexivity|].
  apply (logical_time_advances 3 2 demo_run demo_second [demo_first; demo_second]).
  - reflexivity.
  - vm_compute. reflexivity.
  - reflexivity.
Defined.

(** The first scan leaves the times 0 and 1, the second 1 and 5000. *)
Example demo_times :
  (prevMonotonicMs (this (state demo_first)), monotonicMs (this (state demo_first)),
   prevMonotonicMs (this (state demo_second)), monotonicMs (this (state demo_second)))
  = (0, 1, 1, 5000).
Proof. vm_compute. reflexivity. Qed.

Lemma clock_regression_aborts_witness :
  firstScanDone demo_third = true /\
  fst (Platform_gettime_monotonic (ext (state demo_third))) <=
  monotonicMs (this (state demo_third)) /\
  (Machine_scanTables 3 demo_third = Abort AssertFail (advanced demo_third) /\
   calls (advanced demo_third) = calls demo_third ++ [EvGettimeMonotonic] /\
   rows (state (advanced demo_third)) = rows (state demo_third)) /\
  (forall r', Machine_scanTables 3 demo_second <> Abort AssertFail r').
Proof.
  split; [reflexivity|]. split; [vm_compute; discriminate|]. split.
  - apply (proj1 (clock_regression_aborts 3 demo_third)).
    + reflexivity.
    + vm_compute. discriminate.
  - apply (proj2 (clock_regression_aborts 3 demo_second)).
    right. vm_compute. reflexivity.
Defined.

Lemma scan_order_witness :
  Machine_scanTables 3 demo_first = Ret tt demo_second /\
  exists rows',
    Machine_populateAccumulatedFields 3
      (rows (refresh_all (tables (this (state demo_first)))
               (mkState (set_maxUserId 0 (this (state (advanced demo_first))))
                        (rows (state (advanced demo_first)))
                        (ext (state (advanced demo_first)))))) = Ret tt rows' /\
    state demo_second =
    mkState
      (this (refresh_all (tables (this (state demo_first)))
               (mkState (set_maxUserId 0 (this (state (advanced demo_first))))
                        (rows (state (advanced demo_first)))
                        (ext (state (advanced demo_first))))))
      rows'
      (ext (refresh_all (tables (this (state demo_first)))
               (mkState (set_maxUserId 0 (this (state (advanced demo_first))))
                        (rows (state (advanced demo_first)))
                        (ext (state (advanced demo_first)))))) /\
    calls demo_second =
    calls demo_first ++
    (if firstScanDone demo_first then [EvGettimeMonotonic] else []) ++
    [EvResetFieldWidths] ++
    flat_map table_calls (tables (this (state demo_first))) ++
    [EvSetUidColumnWidth
       (maxUserId
          (this (refresh_all (tables (this (state demo_first)))
                   (mkState (set_maxUserId 0 (this (state (advanced demo_first))))
                            (rows (state (advanced demo_first)))
                            (ext (state (advanced demo_first)))))))].
Proof.
  split; [vm_compute; reflexivity|].
  apply (scan_order 3 demo_first demo_second).
  vm_compute. reflexivity.
Defined.

(** The calls of the second scan of the run. *)
Example demo_calls :
  calls demo_second =
  calls demo_first ++
  [EvGettimeMonotonic; EvResetFieldWidths;
   EvScanPrepare 0%nat; EvScanIterate 0%nat; EvScanCleanup 0%nat;
   EvScanPrepare 7%nat; EvScanIterate 7%nat; EvScanCleanup 7%nat;
   EvSetUidColumnWidth 1000].
Proof. vm_compute. reflexivity. Qed.

Lemma table_registration_witness :
  ((7%nat ∈ tables demo_machine) /\
   Machine_addTable demo_machine 7%nat = demo_machine) /\
  ((9%nat ∉ tables demo_machine) /\
   Machine_addTable demo_machine 9%nat =
   set_tables (tables demo_machine ++ [9%nat]) demo_machine) /\
  (NoDup (tables demo_machine) /\
   NoDup (tables (Machine_addTable demo_machine 9%nat))) /\
  exists this' first later,
    Machine_populateTablesFromSettings
      (mkSettings [mkScreenSettings None; mkScreenSettings (Some 7%nat);
                   mkScreenSettings None])
      0%nat (set_tables [] demo_machine) = Ret tt this' /\
    tables this' = first :: later /\ activeTable this' = Some first.
Proof.
  assert (7%nat ∈ tables demo_machine) as H7.
  { simpl. rewrite !elem_of_cons. lia. }
  assert (9%nat ∉ tables demo_machine) as H9.
  { simpl. rewrite !elem_of_cons, elem_of_nil. lia. }
  assert (NoDup (tables demo_machine)) as Hnd.
  { simpl. apply NoDup_cons. split; [|apply NoDup_singleton].
    rewrite elem_of_cons, elem_of_nil. lia. }
  split; [split; [exact H7|]|split; [split; [exact H9|]|split; [split; [exact Hnd|]|]]].
  - apply (proj1 (table_registration demo_machine 7%nat)), H7.
  - apply (proj1 (proj2 (table_registration demo_machine 9%nat))), H9.
  - apply (proj1 (proj2 (proj2 (table_registration demo_machine 9%nat)))), Hnd.
  - apply (proj2 (proj2 (proj2 (table_registration (set_tables [] demo_machine) 0%nat)))).
    + reflexivity.
    + discriminate.
Defined.

(** Three screens, the first and the third on the process table: the
    registry is the process table, then table 7; the process table is
    active. *)
Example demo_registry :
  exists this',
    Machine_populateTablesFromSettings
      (mkSettings [mkScreenSettings None; mkScreenSettings (Some 7%nat);
                   mkScreenSettings None])
      0%nat (set_tables [] demo_machine) = Ret tt this' /\
    tables this' = [0%nat; 7%nat] /\ activeTable this' = Some 0%nat.
Proof. eexists. vm_compute. repeat split; reflexivity. Qed.

(** The first two scans of the small machine: the first leaves 150 and 50,
    the second ingests 100 and 50 again and accumulates from these. *)
Lemma resident_overwritten_witness :
  (Machine_populateAccumulatedFields 3 (accumulation_input demo_run) =
   Ret tt (rows (state demo_first)) /\
   Forall (fun p => m_resident p = m_accResident p) (rows (state demo_first)) /\
   id <$> rows (state demo_first) = id <$> accumulation_input demo_run /\
   parent <$> rows (state demo_first) = parent <$> accumulation_input demo_run) /\
  Machine_populateAccumulatedFields 3 (accumulation_input demo_first) =
  Ret tt (rows (state demo_second)) /\
  forall i q p2,
    accumulation_input demo_first !! i = Some q ->
    rows (state demo_second) !! i = Some p2 ->
    m_accResident p2 =
    m_resident q +
    sumZ (fun c => if bool_decide (parent c = id p2) then m_accResident c else 0)
         (rows (state demo_second)) /\
    forall p,
      rows (state demo_first) !! i = Some p -> m_resident q = m_resident p ->
      m_accResident p2 =
      m_accResident p +
      sumZ (fun c => if bool_decide (parent c = id p2) then m_accResident c else 0)
           (rows (state demo_second)).
Proof.
  assert (Machine_scanTables 3 demo_run = Ret tt demo_first) as Hrun.
  { vm_compute. reflexivity. }
  assert (Machine_scanTables 3 demo_first = Ret tt demo_second) as Hrun2.
  { vm_compute. reflexivity. }
  destruct (resident_overwritten 3 demo_run demo_first Hrun) as [Hfirst Hnext].
  split; [exact Hfirst|].
  destruct (Hnext 3%nat demo_second Hrun2) as [Hpass Hforest].
  split; [exact Hpass|].
  apply Hforest.
  - apply (ranked_acyclic (fun i => 2 - i)%nat). vm_compute. reflexivity.
  - vm_compute. lia.
Defined.

(** C10 as the specification words it fails on the small machine: the first
    scan leaves the accumulated values 150 and 50, written over the resident
    values; the ingest of the second scan writes the resident values 100 and
    50 again, and the accumulation of the second scan reads 100 in the first
    row, not 150, and leaves 150 and 50 again. *)
Lemma next_cycle_reads_accumulated_fails :
  Machine_scanTables 3 demo_run = Ret tt demo_first /\
  Machine_scanTables 3 demo_first = Ret tt demo_second /\
  rows (state demo_first) = [mkProcess 1 0 150 150; mkProcess 2 1 50 50] /\
  accumulation_input demo_first = [row 1 0 100; row 2 1 50] /\
  Machine_populateAccumulatedFields 3 (accumulation_input demo_first) =
  Ret tt (rows (state demo_second)) /\
  rows (state demo_second) = [mkProcess 1 0 150 150; mkProcess 2 1 50 50] /\
  ~ next_cycle_reads_accumulated demo_first.
Proof.
  split; [vm_compute; reflexivity|]. split; [vm_compute; reflexivity|].
  split; [vm_compute; reflexivity|]. split; [vm_compute; reflexivity|].
  split; [vm_compute; reflexivity|]. split; [vm_compute; reflexivity|].
  intros H.
  specialize (H 0%nat (mkProcess 1 0 150 150) (row 1 0 100)).
  assert (m_resident (row 1 0 100) = m_accResident (mkProcess 1 0 150 150)) as Habs.
  { apply H; vm_compute; reflexivity. }
  simpl in Habs. discriminate.
Qed.

(** ** The contribution of a child *)

Lemma erase_traced_bind {A B} (m : M Traced A) (m' : M Vector A)
    (k : A -> M Traced B) (k' : A -> M Vector B) (t : Traced) :
  erase_traced (m t) = m' (t_vec t) ->
  (forall a t1, erase_traced (k a t1) = k' a (t_vec t1)) ->
  erase_traced (bind m k t) = bind m' k' (t_vec t).
Proof.
  intros Hm Hk. unfold bind. rewrite <- Hm.
  destruct (m t) as [a t1|e t1]; simpl; [apply Hk | reflexivity].
Qed.

Lemma erase_lift_traced {A} (m : M Vector A) (t : Traced) :
  erase_traced (lift_traced m t) = m (t_vec t).
Proof. unfold lift_traced. destruct (m (t_vec t)); reflexivity. Qed.

Lemma erase_traced_for_each (body : nat -> M Traced unit)
    (body' : nat -> M Vector unit) (l : list nat) :
  (forall i t, erase_traced (body i t) = body' i (t_vec t)) ->
  forall t, erase_traced (for_each l body t) = for_each l body' (t_vec t).
Proof.
  intros Hb. induction l as [|i l IH]; intros t; simpl; [reflexivity|].
  apply erase_traced_bind; [apply Hb | intros _ t1; apply IH].
Qed.

(** The traced functions compute what the functions of the model compute. *)
Lemma erase_populate_traced (fuel n : nat) (stack : list nat) (cur : nat) (t : Traced) :
  erase_traced (Machine_populateAccForProcess_traced fuel n stack cur t) =
  Machine_populateAccForProcess fuel n cur (t_vec t).
Proof.
  revert stack cur t. induction fuel as [|f IH]; intros stack cur t; [reflexivity|].
  rewrite populate_unfold. simpl.
  apply erase_traced_bind; [apply erase_lift_traced|]. intros row t1.
  destruct (bool_decide (m_accResident row <> -1)); [reflexivity|].
  apply erase_traced_bind; [apply erase_lift_traced|]. intros _ t2.
  apply erase_traced_bind.
  - apply erase_traced_for_each. intros i t3.
    unfold accumulate_child_traced, accumulate_child.
    destruct (bool_decide (i = cur)); [reflexivity|].
    apply erase_traced_bind; [apply erase_lift_traced|].
    intros r t4. destruct (bool_decide (parent r = id row)); [|reflexivity].
    apply erase_traced_bind; [apply IH|]. intros v t5.
    unfold bind, lift_traced, record.
    destruct (Process_update cur _ (t_vec t5)) as [[] s|e s]; reflexivity.
  - intros _ t3. apply erase_traced_bind; [apply erase_lift_traced|].
    intros p t4. reflexivity.
Qed.

Lemma erase_populateAccumulatedFields_traced (fuel : nat) (t : Traced) :
  erase_traced (Machine_populateAccumulatedFields_traced fuel t) =
  Machine_populateAccumulatedFields fuel (t_vec t).
Proof.
  unfold Machine_populateAccumulatedFields_traced, Machine_populateAccumulatedFields.
  apply erase_traced_bind; [apply erase_lift_traced|]. intros n t1.
  apply erase_traced_bind;
    [apply erase_traced_for_each; intros; apply erase_lift_traced|].
  intros _ t2. apply erase_traced_bind.
  - apply erase_traced_for_each. intros i t3.
    apply erase_traced_bind; [apply erase_populate_traced | reflexivity].
  - intros _ t3. apply erase_traced_for_each. intros; apply erase_lift_traced.
Qed.

(** A loop keeps what every iteration keeps. *)
Lemma for_each_post {St} (P : St -> Prop) (body : nat -> M St unit) (l : list nat) :
  (forall i s s', i ∈ l -> P s -> body i s = Ret tt s' -> P s') ->
  forall s s', P s -> for_each l body s = Ret tt s' -> P s'.
Proof.
  induction l as [|i l IH]; intros Hbody s s' Hs Hrun.
  - simpl in Hrun. injection Hrun as <-. exact Hs.
  - simpl in Hrun. apply bind_inv in Hrun as ([] & s1 & Hb & Hrest).
    apply (IH (fun j sa sb Hj => Hbody j sa sb (list_elem_of_further _ _ _ Hj)) s1);
      [|exact Hrest].
    apply (Hbody i s); [left | exact Hs | exact Hb].
Qed.

Lemma lift_traced_inv {A} (m : M Vector A) (t t' : Traced) (a : A) :
  lift_traced m t = Ret a t' ->
  exists s', m (t_vec t) = Ret a s' /\ t' = mkTraced s' (contributions t).
Proof.
  unfold lift_traced. destruct (m (t_vec t)) as [b s'|e s']; [|discriminate].
  intros Heq. injection Heq as <- <-. exists s'. auto.
Qed.

Lemma received_app (j : nat) (l1 l2 : list Contribution) :
  received j (l1 ++ l2) = received j l1 + received j l2.
Proof. apply sumZ_app. Qed.

Lemma received_single (j : nat) (c : Contribution) :
  received j [c] = if bool_decide (to_row c = j) then amount c else 0.
Proof. unfold received. simpl. lia. Qed.

Lemma contributes_current_snoc (rows : Vector) (l : list Contribution) (c : Contribution) :
  contributes_current rows l ->
  amount c = rawAt rows (from_row c) + received (from_row c) l ->
  contributes_current rows (l ++ [c]).
Proof.
  intros Hl Hc before c' after Heq.
  destruct after as [|c'' after] using rev_ind.
  - apply app_inj_tail in Heq as [<- <-]. exact Hc.
  - clear IHafter. rewrite app_comm_cons, app_assoc in Heq.
    apply app_inj_tail in Heq as [-> _]. apply (Hl before c' after). reflexivity.
Qed.

Lemma populate_traced_unfold (fuel n : nat) (stack : list nat) (cur : nat) :
  Machine_populateAccForProcess_traced (S fuel) n stack cur =
  (do row <- lift_traced (Vector_get cur);
   if bool_decide (m_accResident row <> -1) then ret (m_accResident row)
   else
     lift_traced (Process_update cur (fun p => set_accResident (m_resident p) p)) ;;
     for_each (seq 0 n)
       (accumulate_child_traced
          (Machine_populateAccForProcess_traced fuel n (cur :: stack))
          (cur :: stack) cur (id row)) ;;
     do process <- lift_traced (Vector_get cur);
     ret (m_accResident process)).
Proof. reflexivity. Qed.

Lemma accAt_nonneg (s : Vector) (j : nat) :
  wf s -> (j < length s)%nat -> accAt s j <> -1 -> 0 <= accAt s j.
Proof.
  intros Hwf Hj Hne. destruct (lookup_lt_is_Some_2 _ _ Hj) as [p Hp].
  destruct (lookup_At _ _ _ Hp) as (_ & _ & _ & Hacc).
  destruct (wf_lookup _ _ _ Hwf Hp) as [_ Hge]. lia.
Qed.

Lemma populate_traced_inv (rows : Vector) :
  forall fuel stack cur t v t',
    (cur < length rows)%nat -> traced_inv rows t ->
    Machine_populateAccForProcess_traced fuel (length rows) stack cur t = Ret v t' ->
    traced_inv rows t' /\
    (forall j, accAt (t_vec t) j <> -1 -> accAt (t_vec t') j <> -1) /\
    accAt (t_vec t') cur <> -1 /\ v = accAt (t_vec t') cur.
Proof.
  induction fuel as [|f IH]; intros stack cur t v t' Hcur Hinv Hrun; [discriminate|].
  rewrite populate_traced_unfold in Hrun.
  apply bind_inv in Hrun as (row & t0 & Hget & Hrun).
  apply lift_traced_inv in Hget as (s0 & Hget & ->).
  apply Vector_get_inv in Hget as [Hrow ->].
  destruct t as [s log]. cbn [t_vec contributions] in *.
  destruct (lookup_At _ _ _ Hrow) as (_ & _ & Hrraw & Hracc).
  destruct (bool_decide_reflect (m_accResident row <> -1)) as [Hne|Heq].
  { injection Hrun as <- <-. cbn [t_vec]. rewrite Hracc. auto. }
  assert (m_accResident row = -1) as Hm1 by lia. clear Heq.
  apply bind_inv in Hrun as ([] & t1 & Hupd & Hrun).
  apply lift_traced_inv in Hupd as (s1 & Hupd & ->).
  apply Process_update_inv in Hupd as (row' & Hrow' & ->).
  cbn [t_vec contributions] in *.
  assert (row' = row) as -> by congruence. clear Hrow'.
  apply bind_inv in Hrun as ([] & t2 & Hloop & Hrun).
  apply bind_inv in Hrun as (p2 & t3 & Hget2 & Hrun).
  apply lift_traced_inv in Hget2 as (s3 & Hget2 & ->).
  apply Vector_get_inv in Hget2 as [Hp2 ->].
  injection Hrun as <- <-. cbn [t_vec contributions] in *.
  destruct Hinv as (Hwf & Hfr & Hrec & Hlog). cbn [t_vec contributions] in *.
  pose proof (frame_length _ _ Hfr) as Hlen.
  set (s1 := <[cur := set_accResident (m_resident row) row]> s) in *.
  destruct (wf_lookup _ _ _ Hwf Hrow) as [Hrowraw _].
  assert (forall j, accAt s1 j = if decide (j = cur) then m_resident row else accAt s j)
    as Hacc1.
  { intros j. unfold s1. rewrite accAt_insert by lia.
    destruct (decide (j = cur)); reflexivity. }
  assert (frame s s1) as Hfr1 by (eapply frame_insert; [exact Hrow | reflexivity]).
  assert (traced_inv rows (mkTraced s1 log) /\
          (forall j, accAt s1 j <> -1 -> accAt (t_vec (mkTraced s1 log)) j <> -1))
    as Hentry.
  { split; [|auto]. split; [|split; [|split]]; cbn [t_vec contributions].
    - apply Forall_insert; [exact Hwf|]. simpl. lia.
    - eapply frame_trans; eassumption.
    - intros j Hj. specialize (Hrec j Hj). cbn [t_vec contributions] in Hrec.
      rewrite Hacc1. destruct (decide (j = cur)) as [->|Hne]; [|exact Hrec].
      rewrite bool_decide_eq_false_2 by lia.
      rewrite bool_decide_eq_true_2 in Hrec by congruence.
      destruct (frame_shapeAt _ _ cur Hfr) as (_ & _ & Hraw). lia.
    - exact Hlog. }
  assert (traced_inv rows t2 /\ (forall j, accAt s1 j <> -1 -> accAt (t_vec t2) j <> -1))
    as [Hinv2 Hmono2].
  { refine (for_each_post
              (fun t'' => traced_inv rows t'' /\
                          forall j, accAt s1 j <> -1 -> accAt (t_vec t'') j <> -1)
              _ _ _ _ _ Hentry Hloop).
    clear Hloop Hp2 p2 t2. intros i ta tb Hi [Hinva Hmonoa] Hbody.
    apply elem_of_seq in Hi. unfold accumulate_child_traced in Hbody.
    destruct (bool_decide_reflect (i = cur)) as [->|Hic].
    { injection Hbody as <-. auto. }
    apply bind_inv in Hbody as (r & ta' & Hget & Hbody).
    apply lift_traced_inv in Hget as (sa & Hget & ->).
    apply Vector_get_inv in Hget as [Hr ->].
    destruct (bool_decide (parent r = id row)).
    2:{ injection Hbody as <-. destruct ta. auto. }
    apply bind_inv in Hbody as (w & tc & Hcall & Hbody).
    assert (mkTraced (t_vec ta) (contributions ta) = ta) as Hta by (destruct ta; reflexivity).
    rewrite Hta in Hcall. clear Hta.
    destruct (IH (cur :: stack) i ta w tc) as (Hinvc & Hmonoc & Hic' & ->);
      [lia | exact Hinva | exact Hcall |].
    apply bind_inv in Hbody as ([] & td & Hupd & Hrecord).
    apply lift_traced_inv in Hupd as (sd & Hupd & ->).
    apply Process_update_inv in Hupd as (pc & Hpc & ->).
    injection Hrecord as <-. cbn [t_vec contributions].
    destruct tc as [sc logc]. cbn [t_vec contributions] in *.
    destruct Hinvc as (Hwfc & Hfrc & Hrecc & Hlogc). cbn [t_vec contributions] in *.
    pose proof (frame_length _ _ Hfrc) as Hlenc.
    destruct (lookup_At _ _ _ Hpc) as (_ & _ & _ & Hpcacc).
    assert (accAt sc cur <> -1) as Hcurc.
    { apply Hmonoc, Hmonoa. rewrite Hacc1, decide_True by reflexivity. lia. }
    pose proof (accAt_nonneg sc cur Hwfc ltac:(lia) Hcurc) as Hcur0.
    pose proof (accAt_nonneg sc i Hwfc ltac:(lia) Hic') as Hi0.
    destruct (wf_lookup _ _ _ Hwfc Hpc) as [Hpcraw _].
    assert (forall j, accAt (<[cur := set_accResident (m_accResident pc + accAt sc i) pc]> sc) j =
                      if decide (j = cur) then accAt sc cur + accAt sc i else accAt sc j)
      as Haccd.
    { intros j. rewrite accAt_insert by lia.
      destruct (decide (j = cur)); [simpl; lia | reflexivity]. }
    split; [split; [|split; [|split]]|]; cbn [t_vec contributions].
    - apply Forall_insert; [exact Hwfc|]. simpl. lia.
    - eapply frame_trans; [exact Hfrc|]. eapply frame_insert; [exact Hpc | reflexivity].
    - intros j Hj. specialize (Hrecc j Hj).
      rewrite Haccd, received_app, received_single. cbn [to_row amount].
      destruct (decide (j = cur)) as [->|Hne].
      + rewrite bool_decide_eq_false_2 by lia.
        rewrite bool_decide_eq_false_2 in Hrecc by exact Hcurc.
        rewrite (bool_decide_eq_true_2 (cur = cur)) by reflexivity. lia.
      + rewrite (bool_decide_eq_false_2 (cur = j)) by congruence.
        destruct (bool_decide (accAt sc j = -1)); lia.
    - apply contributes_current_snoc; [exact Hlogc|]. cbn [amount from_row].
      specialize (Hrecc i ltac:(lia)).
      rewrite bool_decide_eq_false_2 in Hrecc by exact Hic'. exact Hrecc.
    - intros j Hj. rewrite Haccd. destruct (decide (j = cur)); [lia|].
      apply Hmonoc, Hmonoa, Hj. }
  destruct (lookup_At _ _ _ Hp2) as (_ & _ & _ & Hp2acc).
  assert (accAt (t_vec t2) cur <> -1) as Hcur2.
  { apply Hmono2. rewrite Hacc1, decide_True by reflexivity. lia. }
  destruct t2 as [s2 log2]. cbn [t_vec contributions] in *.
  split; [exact Hinv2|]. split; [|split; [exact Hcur2 | congruence]].
  intros j Hj. apply Hmono2. rewrite Hacc1.
  destruct (decide (j = cur)) as [->|]; [lia | exact Hj].
Qed.

Lemma for_each_lift_traced (body : nat -> M Vector unit) (l : list nat) (t : Traced) :
  for_each l (fun i => lift_traced (body i)) t = lift_traced (for_each l body) t.
Proof.
  revert t. induction l as [|i l IH]; intros [s log]; [reflexivity|].
  simpl. unfold bind, lift_traced at 1 3. simpl.
  destruct (body i s) as [[] s'|e s']; [|reflexivity].
  rewrite IH. reflexivity.
Qed.

(** The traced pass on resident values that are not negative: every
    contribution is the current value of the child. *)
Lemma populateAccumulatedFields_traced_inv (rows : Vector) (fuel : nat) (t' : Traced) :
  Forall (fun p => 0 <= m_resident p) rows ->
  Machine_populateAccumulatedFields_traced fuel (mkTraced rows []) = Ret tt t' ->
  contributes_current rows (contributions t').
Proof.
  intros Hraw Hrun. unfold Machine_populateAccumulatedFields_traced in Hrun.
  rewrite (bind_Ret _ _ _ (length rows) (mkTraced rows [])) in Hrun by reflexivity.
  apply bind_inv in Hrun as ([] & t1 & Hreset & Hrun).
  rewrite for_each_lift_traced in Hreset.
  apply lift_traced_inv in Hreset as (s1 & Hreset & ->).
  cbn [t_vec contributions] in *. rewrite for_each_update in Hreset.
  injection Hreset as <-.
  apply bind_inv in Hrun as ([] & t2 & Hloop & Hlast).
  rewrite for_each_lift_traced in Hlast.
  apply lift_traced_inv in Hlast as (s3 & _ & ->). cbn [contributions].
  assert (traced_inv rows (mkTraced (set_accResident (-1) <$> rows) [])) as Hentry.
  { split; [|split; [|split]]; cbn [t_vec contributions].
    - apply Forall_fmap. eapply Forall_impl; [exact Hraw|].
      intros p Hp. unfold compose. simpl in *. lia.
    - unfold frame. rewrite <- list_fmap_compose. reflexivity.
    - intros j Hj. destruct (lookup_lt_is_Some_2 _ _ Hj) as [p Hp].
      assert (accAt (set_accResident (-1) <$> rows) j = -1) as ->.
      { unfold accAt. rewrite list_lookup_fmap, Hp. reflexivity. }
      rewrite bool_decide_eq_true_2 by reflexivity. reflexivity.
    - intros before c after Heq. destruct before; discriminate. }
  assert (traced_inv rows t2) as (_ & _ & _ & Hlog); [|exact Hlog].
  refine (for_each_post (traced_inv rows) _ _ _ _ _ Hentry Hloop).
  intros i ta tb Hi Hinva Hbody. apply elem_of_seq in Hi.
  apply bind_inv in Hbody as (v & tc & Hcall & Hret). injection Hret as <-.
  apply (populate_traced_inv rows fuel [] i ta v tc); [lia | exact Hinva | exact Hcall].
Qed.

(** C3, as the code has it: on resident values that are not negative the
    pass returns, and the value that a child contributes to its parent, also
    when the child is met while it is in progress on a cycle, is the child's
    resident value plus what the child has itself received from its own
    children up to that moment; it is the resident value alone only when the
    child has received nothing yet. *)
Theorem in_progress_contributes_current (rows : Vector) (fuel : nat) :
  Forall (fun p => 0 <= m_resident p) rows -> (length rows < fuel)%nat ->
  exists rows' log,
    Machine_populateAccumulatedFields_traced fuel (mkTraced rows []) =
    Ret tt (mkTraced rows' log) /\
    forall before c after, log = before ++ c :: after ->
      amount c = rawAt rows (from_row c) + received (from_row c) before.
Proof.
  intros Hraw Hfuel.
  destruct (populateAccumulatedFields_nonneg rows fuel Hraw Hfuel) as (rows' & Hrun & _).
  pose proof (erase_populateAccumulatedFields_traced fuel (mkTraced rows [])) as Her.
  cbn [t_vec] in Her. rewrite Hrun in Her.
  destruct (Machine_populateAccumulatedFields_traced fuel (mkTraced rows []))
    as [[] [s log]|e t] eqn:Htr; [|discriminate].
  exists s, log. split; [reflexivity|].
  exact (populateAccumulatedFields_traced_inv rows fuel _ Hraw Htr).
Qed.

Lemma in_progress_contributes_current_witness :
  exists rows' log,
    Machine_populateAccumulatedFields_traced 4 (mkTraced cycle_with_child []) =
    Ret tt (mkTraced rows' log) /\
    forall before c after, log = before ++ c :: after ->
      amount c = rawAt cycle_with_child (from_row c) + received (from_row c) before.
Proof.
  apply (in_progress_contributes_current cycle_with_child 4).
  - repeat constructor; simpl; lia.
  - simpl. lia.
Defined.

(** C3 as the specification words it fails on a cycle with a child: row 0 is
    computed first and receives 5 from row 1; row 2 then meets row 0, which
    is in progress, and takes 15 from it, not its resident value 10. *)
Lemma in_progress_contributes_raw_fails :
  exists rows' log,
    Machine_populateAccumulatedFields_traced 4 (mkTraced cycle_with_child []) =
    Ret tt (mkTraced rows' log) /\
    log = [mkContribution 0 1 5 false; mkContribution 2 0 15 true;
           mkContribution 0 2 22 false] /\
    ~ in_progress_contributes_raw cycle_with_child log.
Proof.
  do 2 eexists. split; [vm_compute; reflexivity|]. split; [reflexivity|].
  intros Hclaim.
  specialize (Hclaim (mkContribution 2 0 15 true)).
  assert (15 = 10) as Habs; [|discriminate].
  apply Hclaim; [|reflexivity].
  apply list_elem_of_further, list_elem_of_here.
Qed.


(** * Further properties of the code *)

(** ** The registry after the settings were read *)

Lemma addTable_registered (this : Machine) (t : Table) :
  Machine_addTable this t = set_tables (registered (tables this) t) this.
Proof.
  unfold Machine_addTable, registered.
  destruct (existsb _ (tables this)); [|reflexivity].
  destruct this. reflexivity.
Qed.

Lemma registered_elem (ts : list Table) (t t' : Table) :
  t' ∈ registered ts t <-> t' = t \/ t' ∈ ts.
Proof.
  unfold registered. destruct (existsb _ ts) eqn:Hex.
  - apply existsb_table in Hex. split; [auto|]. intros [->|H]; assumption.
  - rewrite elem_of_app, list_elem_of_singleton. tauto.
Qed.

Lemma registered_NoDup (ts : list Table) (t : Table) :
  NoDup ts -> NoDup (registered ts t).
Proof.
  intros Hnd. unfold registered. destruct (existsb _ ts) eqn:Hex; [exact Hnd|].
  apply NoDup_app. split; [exact Hnd|]. split; [|apply NoDup_singleton].
  intros x Hx Hx'. apply list_elem_of_singleton in Hx'. subst x.
  apply existsb_table in Hx. congruence.
Qed.

Lemma registered_all_prefix (ts l : list Table) :
  exists later, foldl registered ts l = ts ++ later.
Proof.
  revert ts. induction l as [|t l IH]; intros ts; simpl.
  - exists []. rewrite app_nil_r. reflexivity.
  - destruct (IH (registered ts t)) as (later & ->). unfold registered.
    destruct (existsb _ ts); [exists later; reflexivity|].
    exists ([t] ++ later). rewrite app_assoc. reflexivity.
Qed.

Lemma registered_all_NoDup (ts l : list Table) :
  NoDup ts -> NoDup (foldl registered ts l).
Proof.
  revert ts. induction l as [|t l IH]; intros ts Hnd; simpl; [exact Hnd|].
  apply IH, registered_NoDup, Hnd.
Qed.

Lemma registered_all_elem (ts l : list Table) (t : Table) :
  t ∈ foldl registered ts l <-> t ∈ ts \/ t ∈ l.
Proof.
  revert ts. induction l as [|t0 l IH]; intros ts; simpl.
  - rewrite elem_of_nil. tauto.
  - rewrite IH, registered_elem, elem_of_cons. tauto.
Qed.

Lemma registered_all_known (ts l : list Table) :
  (forall t, t ∈ l -> t ∈ ts) -> foldl registered ts l = ts.
Proof.
  revert ts. induction l as [|t l IH]; intros ts Hl; simpl; [reflexivity|].
  assert (registered ts t = ts) as ->.
  { unfold registered. rewrite (proj2 (existsb_table t ts)); [reflexivity|].
    apply Hl. left. }
  apply IH. intros t' Ht'. apply Hl. right. exact Ht'.
Qed.

Lemma with_table_insert (pt : Table) (l : list ScreenSettings) (j : nat)
    (ss : ScreenSettings) :
  l !! j = Some ss ->
  <[j := with_table pt ss]>
    ((with_table pt <$> take j l) ++ drop j l) =
  (with_table pt <$> take (S j) l) ++
  drop (S j) l.
Proof.
  intros Hj. pose proof (lookup_lt_Some _ _ _ Hj) as Hlt.
  rewrite (take_S_r _ _ _ Hj), fmap_app, <- app_assoc. simpl.
  rewrite (drop_S _ _ _ Hj).
  rewrite insert_app_r_alt by (rewrite length_fmap, length_take; lia).
  rewrite length_fmap, length_take, Nat.min_l by lia.
  rewrite Nat.sub_diag. reflexivity.
Qed.

(** One screen, whether it had a table or not. *)
Lemma populate_screen_step (pt : Table) (i : nat) (m : Machine) (st : Settings)
    (ss : ScreenSettings) :
  settings m = Some st -> screens st !! i = Some ss ->
  populate_screen pt i m =
  Ret tt
    (Machine_addTable
       ((if bool_decide (i = 0%nat) then set_activeTable (screen_table pt ss)
         else fun m' => m')
          (set_settings
             (mkSettings
                (<[i := with_table pt ss]> (screens st)))
             m))
       (screen_table pt ss)).
Proof.
  intros Hst Hss. unfold populate_screen, with_table, screen_table. rewrite Hst, Hss.
  destruct (table ss) as [t|] eqn:Htab; simpl.
  - assert (set_settings
              (mkSettings (<[i := mkScreenSettings (Some t)]> (screens st))) m = m)
      as ->.
    { rewrite list_insert_id.
      - destruct m, st. simpl in *. subst. reflexivity.
      - rewrite Hss. destruct ss. simpl in *. subst. reflexivity. }
    destruct (bool_decide (i = 0%nat)); reflexivity.
  - destruct (bool_decide (i = 0%nat)); reflexivity.
Qed.

(** [Machine_populateTablesFromSettings] in one step: every screen has a
    table, the tables of the screens are registered in the order of the
    screens, and the first screen decides the active table. *)
Lemma populateTablesFromSettings_run (st : Settings) (pt : Table) (this : Machine) :
  Machine_populateTablesFromSettings st pt this =
  Ret tt
    (mkMachine
       (Some (mkSettings
                (with_table pt <$> screens st)))
       (Some pt)
       (match screens st with
        | [] => activeTable this
        | ss :: _ => Some (screen_table pt ss)
        end)
       (foldl registered (tables this) (screen_table pt <$> screens st))
       (prevMonotonicMs this) (monotonicMs this) (maxUserId this)).
Proof.
  unfold Machine_populateTablesFromSettings.
  set (scr := screens st).
  destruct (for_each_inv
    (fun done m =>
       m = mkMachine
             (Some (mkSettings ((with_table pt <$> take (length done) scr) ++
                                drop (length done) scr)))
             (Some pt)
             (match take (length done) scr with
              | [] => activeTable this
              | ss :: _ => Some (screen_table pt ss)
              end)
             (foldl registered (tables this)
                (screen_table pt <$> take (length done) scr))
             (prevMonotonicMs this) (monotonicMs this) (maxUserId this))
    (populate_screen pt) (seq 0 (length scr))
    (set_processTable pt (set_settings st this))) as (m & Hrun & ->).
  - simpl. rewrite drop_0. destruct st. reflexivity.
  - intros done i rest m1 Hl ->.
    assert (i = length done /\ (i < length scr)%nat) as [-> Hlt].
    { assert (seq 0 (length scr) !! length done = Some i) as Hi.
      { rewrite Hl. rewrite lookup_app_r by lia. rewrite Nat.sub_diag. reflexivity. }
      apply lookup_seq in Hi. lia. }
    destruct (lookup_lt_is_Some_2 _ _ Hlt) as [ss Hss].
    eexists. split.
    + eapply populate_screen_step; [reflexivity|]. cbn [screens].
      rewrite lookup_app_r by (rewrite length_fmap, length_take; lia).
      rewrite length_fmap, length_take, Nat.min_l by lia.
      rewrite Nat.sub_diag, lookup_drop, Nat.add_0_r. exact Hss.
    + rewrite length_app. simpl length. rewrite Nat.add_1_r.
      rewrite addTable_registered. cbn [screens].
      rewrite (with_table_insert pt scr (length done) ss Hss).
      rewrite (take_S_r _ _ _ Hss).
      destruct (decide (length done = 0%nat)) as [H0|Hn0].
      * rewrite bool_decide_eq_true_2 by exact H0.
        rewrite H0. simpl. reflexivity.
      * rewrite bool_decide_eq_false_2 by exact Hn0.
        rewrite !fmap_app, foldl_app. simpl.
        destruct (take (length done) scr) as [|ss0 l0] eqn:Htake.
        { apply (f_equal length) in Htake. rewrite length_take in Htake.
          simpl in Htake. lia. }
        reflexivity.
  - rewrite Hrun. rewrite length_seq, firstn_all, drop_all, app_nil_r.
    reflexivity.
Qed.

Lemma settings_registry_facts (st : Settings) (pt : Table) (this this' : Machine) :
  Machine_populateTablesFromSettings st pt this = Ret tt this' ->
  (NoDup (tables this) -> NoDup (tables this')) /\
  forall t, t ∈ tables this' <->
            t ∈ tables this \/
            exists ss, ss ∈ screens st /\
                       t = match table ss with Some t' => t' | None => pt end.
Proof.
  intros Hrun. rewrite populateTablesFromSettings_run in Hrun.
  injection Hrun as <-. cbn [tables].
  split; [apply registered_all_NoDup|].
  intros t. rewrite registered_all_elem, list_elem_of_fmap.
  split; (intros [H|(ss & H1 & H2)]; [left; exact H | right; exists ss]).
  - split; [exact H2|]. rewrite H1. unfold screen_table. destruct (table ss); reflexivity.
  - split; [|exact H1]. rewrite H2. unfold screen_table. destruct (table ss); reflexivity.
Qed.

(** X1: [Machine_populateTablesFromSettings] always returns; it only appends
    to the registry (the tables registered before stay, in their order, at
    the front), it keeps a registry without repetition as such,
    and afterwards the registry holds exactly the tables it held before and
    the tables of the screens, the process table standing for a screen
    without table. *)
Theorem settings_extend_registry (st : Settings) (pt : Table) (this : Machine) :
  exists this',
    Machine_populateTablesFromSettings st pt this = Ret tt this' /\
    (exists later, tables this' = tables this ++ later) /\
    (NoDup (tables this) -> NoDup (tables this')) /\
    forall t, t ∈ tables this' <->
              t ∈ tables this \/
              exists ss, ss ∈ screens st /\
                         t = match table ss with Some t' => t' | None => pt end.
Proof.
  eexists. split; [apply populateTablesFromSettings_run|]. cbn [tables].
  split; [apply registered_all_prefix|]. split; [apply registered_all_NoDup|].
  intros t. rewrite registered_all_elem, list_elem_of_fmap.
  split; (intros [H|(ss & H1 & H2)]; [left; exact H | right; exists ss]).
  - split; [exact H2|]. rewrite H1. unfold screen_table. destruct (table ss); reflexivity.
  - split; [|exact H1]. rewrite H2. unfold screen_table. destruct (table ss); reflexivity.
Qed.

Lemma settings_extend_registry_witness :
  NoDup (tables demo_machine) /\
  exists this',
    Machine_populateTablesFromSettings
      (mkSettings [mkScreenSettings None; mkScreenSettings (Some 9%nat)])
      0%nat demo_machine = Ret tt this' /\
    (exists later, tables this' = tables demo_machine ++ later) /\
    NoDup (tables this') /\
    forall t, t ∈ tables this' <->
              t ∈ tables demo_machine \/
              exists ss,
                ss ∈ screens (mkSettings [mkScreenSettings None;
                                          mkScreenSettings (Some 9%nat)]) /\
                t = match table ss with Some t' => t' | None => 0%nat end.
Proof.
  assert (NoDup (tables demo_machine)) as Hnd.
  { simpl. apply NoDup_cons. split; [|apply NoDup_singleton].
    rewrite elem_of_cons, elem_of_nil. lia. }
  split; [exact Hnd|].
  destruct (settings_extend_registry
              (mkSettings [mkScreenSettings None; mkScreenSettings (Some 9%nat)])
              0%nat demo_machine) as (this' & Hrun & Hpre & Hnd' & Hel).
  exists this'. split; [exact Hrun|]. split; [exact Hpre|].
  split; [exact (Hnd' Hnd) | exact Hel].
Defined.

(** X2: after [Machine_populateTablesFromSettings] the machine holds the
    settings and the process table, no screen is without table (a screen that
    had a table keeps it, a screen that had none shows the process table),
    and the times and [maxUserId] are untouched. *)
Theorem settings_fill_screens (st : Settings) (pt : Table) (this : Machine) :
  exists this' st',
    Machine_populateTablesFromSettings st pt this = Ret tt this' /\
    settings this' = Some st' /\ processTable this' = Some pt /\
    length (screens st') = length (screens st) /\
    (forall i ss, screens st !! i = Some ss ->
       exists ss', screens st' !! i = Some ss' /\
                   table ss' = Some (match table ss with Some t => t | None => pt end)) /\
    prevMonotonicMs this' = prevMonotonicMs this /\
    monotonicMs this' = monotonicMs this /\ maxUserId this' = maxUserId this.
Proof.
  eexists. exists (mkSettings (with_table pt <$> screens st)).
  split; [apply populateTablesFromSettings_run|].
  cbn [settings processTable screens prevMonotonicMs monotonicMs maxUserId].
  split; [reflexivity|]. split; [reflexivity|]. split; [apply length_fmap|].
  split; [|auto]. intros i ss Hss. exists (with_table pt ss).
  rewrite list_lookup_fmap, Hss. split; [reflexivity|].
  unfold with_table, screen_table. simpl. destruct (table ss); reflexivity.
Qed.

(** X3: whatever the registry held before, with at least one screen the
    active table is the table of the first screen (the process table if the
    screen had none) and it is registered; without screen the active table
    is left as it was. *)
Theorem settings_active_table (st : Settings) (pt : Table) (this : Machine) :
  exists this',
    Machine_populateTablesFromSettings st pt this = Ret tt this' /\
    match screens st with
    | [] => activeTable this' = activeTable this
    | ss :: _ =>
      activeTable this' = Some (match table ss with Some t => t | None => pt end) /\
      match table ss with Some t => t | None => pt end ∈ tables this'
    end.
Proof.
  eexists. split; [apply populateTablesFromSettings_run|].
  cbn [activeTable tables]. destruct (screens st) as [|ss rest]; [reflexivity|].
  assert (screen_table pt ss = match table ss with Some t => t | None => pt end) as <-.
  { unfold screen_table. destruct (table ss); reflexivity. }
  split; [reflexivity|]. apply registered_all_elem. right.
  rewrite fmap_cons. left.
Qed.

Lemma with_table_twice (pt : Table) (l : list ScreenSettings) :
  with_table pt <$> (with_table pt <$> l) = with_table pt <$> l /\
  screen_table pt <$> (with_table pt <$> l) = screen_table pt <$> l.
Proof.
  rewrite <- !list_fmap_compose. split; apply list_fmap_ext; intros _ ss _; reflexivity.
Qed.

(** X4: reading the settings again changes nothing, be it the settings
    object that the machine now holds, whose screens all have a table, or
    settings with the contents that were read the first time. *)
Theorem settings_idempotent (st : Settings) (pt : Table) (this this' : Machine) :
  Machine_populateTablesFromSettings st pt this = Ret tt this' ->
  Machine_populateTablesFromSettings st pt this' = Ret tt this' /\
  forall st', settings this' = Some st' ->
    Machine_populateTablesFromSettings st' pt this' = Ret tt this'.
Proof.
  intros Hrun. rewrite populateTablesFromSettings_run in Hrun.
  injection Hrun as <-.
  assert (foldl registered
            (foldl registered (tables this) (screen_table pt <$> screens st))
            (screen_table pt <$> screens st) =
          foldl registered (tables this) (screen_table pt <$> screens st)) as Hreg.
  { apply registered_all_known. intros t Ht.
    apply registered_all_elem. right. exact Ht. }
  split.
  - rewrite populateTablesFromSettings_run.
    cbn [activeTable tables prevMonotonicMs monotonicMs maxUserId].
    rewrite Hreg. do 2 f_equal. destruct (screens st); reflexivity.
  - intros st' Hst'. cbn [settings] in Hst'. injection Hst' as <-.
    rewrite populateTablesFromSettings_run.
    cbn [screens activeTable tables prevMonotonicMs monotonicMs maxUserId].
    destruct (with_table_twice pt (screens st)) as [-> ->].
    rewrite Hreg. do 2 f_equal. destruct (screens st); reflexivity.
Qed.

Lemma settings_idempotent_witness :
  Machine_populateTablesFromSettings
    (mkSettings [mkScreenSettings None; mkScreenSettings (Some 9%nat)]) 0%nat
    (mkMachine
       (Some (mkSettings [mkScreenSettings (Some 0%nat); mkScreenSettings (Some 9%nat)]))
       (Some 0%nat) (Some 0%nat) [0%nat; 7%nat; 9%nat] 0 0 0) =
  Ret tt
    (mkMachine
       (Some (mkSettings [mkScreenSettings (Some 0%nat); mkScreenSettings (Some 9%nat)]))
       (Some 0%nat) (Some 0%nat) [0%nat; 7%nat; 9%nat] 0 0 0) /\
  forall st',
    settings
      (mkMachine
         (Some (mkSettings [mkScreenSettings (Some 0%nat); mkScreenSettings (Some 9%nat)]))
         (Some 0%nat) (Some 0%nat) [0%nat; 7%nat; 9%nat] 0 0 0) = Some st' ->
    Machine_populateTablesFromSettings st' 0%nat
      (mkMachine
         (Some (mkSettings [mkScreenSettings (Some 0%nat); mkScreenSettings (Some 9%nat)]))
         (Some 0%nat) (Some 0%nat) [0%nat; 7%nat; 9%nat] 0 0 0) =
    Ret tt
      (mkMachine
         (Some (mkSettings [mkScreenSettings (Some 0%nat); mkScreenSettings (Some 9%nat)]))
         (Some 0%nat) (Some 0%nat) [0%nat; 7%nat; 9%nat] 0 0 0).
Proof.
  apply (settings_idempotent _ _ demo_machine).
  vm_compute. reflexivity.
Defined.

(** ** Registering one table *)

(** X5: after [Machine_addTable] the table is in the registry; a table is in
    the registry afterwards exactly if it is the one registered or was there
    before; the registry grows by one entry at most; and registering the
    table once more changes nothing. *)
Theorem addTable_member (this : Machine) (t : Table) :
  t ∈ tables (Machine_addTable this t) /\
  (forall t', t' ∈ tables (Machine_addTable this t) <-> t' = t \/ t' ∈ tables this) /\
  (tableCount this <= tableCount (Machine_addTable this t) <= S (tableCount this))%nat /\
  Machine_addTable (Machine_addTable this t) t = Machine_addTable this t.
Proof.
  assert (forall t', t' ∈ tables (Machine_addTable this t) <-> t' = t \/ t' ∈ tables this)
    as Hel.
  { intros t'. rewrite addTable_registered. apply registered_elem. }
  split; [apply Hel; left; reflexivity|]. split; [exact Hel|]. split.
  - unfold tableCount. rewrite addTable_registered. unfold set_tables, registered.
    cbn [tables].
    destruct (existsb _ (tables this)); [lia|]. rewrite length_app. simpl. lia.
  - apply addTable_present, Hel. left. reflexivity.
Qed.

(** ** The panel of the tables *)

Lemma setTablesPanel_run (this : Machine) (panel : Panel) (calls : list (Table * Panel)) :
  Machine_setTablesPanel this panel calls =
  Ret tt (calls ++ ((fun t => (t, panel)) <$> tables this)).
Proof.
  unfold Machine_setTablesPanel, tableCount.
  destruct (for_each_inv
    (fun done c =>
       c = calls ++ ((fun t => (t, panel)) <$> take (length done) (tables this)))
    (fun i c =>
       match tables this !! i with
       | Some t => Ret tt (c ++ [(t, panel)])
       | None => Abort BadIndex c
       end)
    (seq 0 (length (tables this))) calls) as (c & Hrun & ->).
  - simpl. rewrite app_nil_r. reflexivity.
  - intros done i rest c1 Hl ->.
    assert (i = length done /\ (i < length (tables this))%nat) as [-> Hlt].
    { assert (seq 0 (length (tables this)) !! length done = Some i) as Hi.
      { rewrite Hl. rewrite lookup_app_r by lia. rewrite Nat.sub_diag. reflexivity. }
      apply lookup_seq in Hi. lia. }
    destruct (lookup_lt_is_Some_2 _ _ Hlt) as [t Ht]. rewrite Ht.
    eexists. split; [reflexivity|].
    rewrite length_app. simpl. rewrite Nat.add_1_r, (take_S_r _ _ _ Ht), fmap_app.
    rewrite <- app_assoc. reflexivity.
  - rewrite Hrun, length_seq, firstn_all. reflexivity.
Qed.

(** X6: [Machine_setTablesPanel] gives the panel to the tables of the
    registry, in their order, and never indexes outside the registry.  After
    [Machine_populateTablesFromSettings] on an empty registry this is once,
    and only once, to every table that a screen shows, also when several
    screens show the same table. *)
Theorem setTablesPanel_once (st : Settings) (pt : Table) (this this' : Machine)
    (panel : Panel) :
  tables this = [] ->
  Machine_populateTablesFromSettings st pt this = Ret tt this' ->
  exists calls,
    Machine_setTablesPanel this' panel [] = Ret tt calls /\
    calls = (fun t => (t, panel)) <$> tables this' /\
    NoDup calls /\
    forall t, (t, panel) ∈ calls <->
              exists ss, ss ∈ screens st /\
                         t = match table ss with Some t' => t' | None => pt end.
Proof.
  intros Hnil Hrun.
  destruct (settings_registry_facts st pt this this' Hrun) as (Hnd & Hel).
  exists ((fun t => (t, panel)) <$> tables this').
  split; [apply setTablesPanel_run|]. split; [reflexivity|]. split.
  - apply NoDup_fmap_2; [intros x y Hxy; congruence|].
    apply Hnd. rewrite Hnil. apply NoDup_nil_2.
  - intros t. rewrite list_elem_of_fmap. split.
    + intros (t' & Heq & Hin). injection Heq as ->.
      apply Hel in Hin as [Hin|Hin]; [|exact Hin].
      rewrite Hnil in Hin. apply elem_of_nil in Hin. contradiction.
    + intros Hss. exists t. split; [reflexivity|]. apply Hel. right. exact Hss.
Qed.

Lemma setTablesPanel_once_witness :
  exists calls,
    Machine_setTablesPanel
      (mkMachine
         (Some (mkSettings [mkScreenSettings (Some 0%nat); mkScreenSettings (Some 9%nat);
                            mkScreenSettings (Some 0%nat)]))
         (Some 0%nat) (Some 0%nat) [0%nat; 9%nat] 0 0 0) 4%nat [] = Ret tt calls /\
    calls =
    (fun t => (t, 4%nat)) <$>
    tables
      (mkMachine
         (Some (mkSettings [mkScreenSettings (Some 0%nat); mkScreenSettings (Some 9%nat);
                            mkScreenSettings (Some 0%nat)]))
         (Some 0%nat) (Some 0%nat) [0%nat; 9%nat] 0 0 0) /\
    NoDup calls /\
    forall t, (t, 4%nat) ∈ calls <->
              exists ss,
                ss ∈ screens (mkSettings [mkScreenSettings None; mkScreenSettings (Some 9%nat);
                                          mkScreenSettings None]) /\
                t = match table ss with Some t' => t' | None => 0%nat end.
Proof.
  apply (setTablesPanel_once
           (mkSettings [mkScreenSettings None; mkScreenSettings (Some 9%nat);
                        mkScreenSettings None])
           0%nat (set_tables [] demo_machine)).
  - reflexivity.
  - vm_compute. reflexivity.
Defined.

(** ** The accumulation stays inside the vector *)

Lemma bind_Abort {St A B} (c : M St A) (k : A -> M St B) s e s' :
  c s = Abort e s' -> bind c k s = Abort e s'.
Proof. intros H. unfold bind. rewrite H. reflexivity. Qed.

Lemma kept_rows_bind {A B} (c : M Vector A) (k : A -> M Vector B) (s : Vector) :
  kept_rows s (c s) ->
  (forall a s', c s = Ret a s' -> kept_rows s' (k a s')) ->
  kept_rows s (bind c k s).
Proof.
  intros Hc Hk. unfold bind. destruct (c s) as [a s'|e s'] eqn:Hcs; [|exact Hc].
  specialize (Hk a s' eq_refl). simpl in Hc.
  destruct (k a s') as [b s''|e s'']; simpl in *.
  - eapply frame_trans; eassumption.
  - destruct Hk as [-> Hk]. split; [reflexivity | eapply frame_trans; eassumption].
Qed.

Lemma kept_rows_for_each (n : nat) (body : nat -> M Vector unit) (l : list nat) :
  (forall i s, i ∈ l -> length s = n -> kept_rows s (body i s)) ->
  forall s, length s = n -> kept_rows s (for_each l body s).
Proof.
  induction l as [|i l IH]; intros Hb s Hlen; simpl.
  - apply frame_refl.
  - apply kept_rows_bind; [apply Hb; [left | exact Hlen]|].
    intros [] s' Hs'. apply IH.
    + intros j sj Hj. apply Hb. right. exact Hj.
    + pose proof (Hb i s ltac:(left) Hlen) as H. rewrite Hs' in H. simpl in H.
      rewrite (frame_length _ _ H). exact Hlen.
Qed.

Lemma kept_rows_Vector_get (i : nat) (s : Vector) :
  (i < length s)%nat -> kept_rows s (Vector_get i s).
Proof.
  intros Hi. destruct (lookup_lt_is_Some_2 _ _ Hi) as [p Hp].
  rewrite (Vector_get_Some _ _ _ Hp). apply frame_refl.
Qed.

Lemma kept_rows_update_acc (i : nat) (f : Process -> Z) (s : Vector) :
  (i < length s)%nat ->
  kept_rows s (Process_update i (fun p => set_accResident (f p) p) s).
Proof.
  intros Hi. destruct (lookup_lt_is_Some_2 _ _ Hi) as [p Hp].
  rewrite (Process_update_Some _ _ _ _ Hp). simpl.
  eapply frame_insert; [exact Hp | reflexivity].
Qed.

Lemma kept_rows_populate (n : nat) :
  forall fuel cur s,
    length s = n -> (cur < n)%nat ->
    kept_rows s (Machine_populateAccForProcess fuel n cur s).
Proof.
  induction fuel as [|f IH]; intros cur s Hlen Hcur.
  { simpl. split; [reflexivity | apply frame_refl]. }
  rewrite populate_unfold.
  apply kept_rows_bind; [apply kept_rows_Vector_get; lia|].
  intros row s1 Hget. apply Vector_get_inv in Hget as [_ ->].
  destruct (bool_decide (m_accResident row <> -1)); [apply frame_refl|].
  apply kept_rows_bind; [apply kept_rows_update_acc; lia|].
  intros [] s2 Hupd. apply Process_update_inv in Hupd as (p & Hp & ->).
  assert (length (<[cur := set_accResident (m_resident p) p]> s) = n) as Hlen2.
  { rewrite length_insert. exact Hlen. }
  apply kept_rows_bind.
  - apply (kept_rows_for_each n); [|exact Hlen2].
    intros i sa Hi Hlena. apply elem_of_seq in Hi. unfold accumulate_child.
    destruct (bool_decide (i = cur)); [apply frame_refl|].
    apply kept_rows_bind; [apply kept_rows_Vector_get; lia|].
    intros r sb Hget. apply Vector_get_inv in Hget as [_ ->].
    destruct (bool_decide (parent r = id row)); [|apply frame_refl].
    apply kept_rows_bind; [apply IH; [exact Hlena | lia]|].
    intros v sc Hcall. apply kept_rows_update_acc.
    rewrite (frame_length _ _ (populate_frame _ _ _ _ _ _ Hcall)). lia.
  - intros [] s3 Hloop.
    assert (frame (<[cur := set_accResident (m_resident p) p]> s) s3) as Hfr3.
    { refine (for_each_preserves frame _ frame_refl frame_trans _ _ _ _ Hloop).
      intros i sa sb _ Hbody.
      unfold accumulate_child in Hbody.
      destruct (bool_decide (i = cur)); [injection Hbody as <-; apply frame_refl|].
      apply bind_inv in Hbody as (r & sc & Hget & Hbody).
      apply Vector_get_inv in Hget as [Hr ->].
      destruct (bool_decide (parent r = id row));
        [|injection Hbody as <-; apply frame_refl].
      apply bind_inv in Hbody as (w & sd & Hcall & Hupd).
      apply Process_update_inv in Hupd as (pc & Hpc & ->).
      apply (frame_trans _ sd); [eapply populate_frame; exact Hcall|].
      eapply frame_insert; [exact Hpc | reflexivity]. }
    apply kept_rows_bind.
    + apply kept_rows_Vector_get. rewrite (frame_length _ _ Hfr3). lia.
    + intros p3 s4 Hget. apply Vector_get_inv in Hget as [_ ->]. apply frame_refl.
Qed.

(** The outcome of the pass, whatever the rows are. *)
Lemma populateAccumulatedFields_outcome (fuel : nat) (rows : Vector) :
  (exists rows',
     Machine_populateAccumulatedFields fuel rows = Ret tt rows' /\
     id <$> rows' = id <$> rows /\ parent <$> rows' = parent <$> rows) \/
  (exists rows',
     Machine_populateAccumulatedFields fuel rows = Abort OutOfFuel rows' /\
     id <$> rows' = id <$> rows /\ parent <$> rows' = parent <$> rows /\
     m_resident <$> rows' = m_resident <$> rows).
Proof.
  assert (forall s s' : Vector, frame s s' ->
            id <$> s' = id <$> s /\ parent <$> s' = parent <$> s /\
            m_resident <$> s' = m_resident <$> s) as Hfields.
  { intros s s' Hf. unfold frame in Hf.
    assert (forall (g : Z * Z * Z -> Z) (h : Process -> Z),
              (forall p, h p = g (shape p)) -> h <$> s' = h <$> s) as Hg.
    { intros g h Hgh.
      rewrite (list_fmap_ext h (g ∘ shape) s') by (intros; apply Hgh).
      rewrite (list_fmap_ext h (g ∘ shape) s) by (intros; apply Hgh).
      rewrite !list_fmap_compose, Hf. reflexivity. }
    split; [|split].
    - apply (Hg (fun x => fst (fst x))). reflexivity.
    - apply (Hg (fun x => snd (fst x))). reflexivity.
    - apply (Hg snd). reflexivity. }
  assert (frame rows (set_accResident (-1) <$> rows)) as Hfr0.
  { unfold frame. rewrite <- list_fmap_compose. reflexivity. }
  pose proof (kept_rows_for_each (length rows)
                (fun i => do _ <- Machine_populateAccForProcess fuel (length rows) i;
                          ret tt)
                (seq 0 (length rows))) as Hloop.
  specialize (Hloop ltac:(
    intros i s Hi Hlen; apply elem_of_seq in Hi;
    apply kept_rows_bind;
      [apply kept_rows_populate; [exact Hlen | lia]
      | intros v s' _; apply frame_refl])).
  specialize (Hloop (set_accResident (-1) <$> rows) ltac:(apply length_fmap)).
  destruct (for_each (seq 0 (length rows)) _ (set_accResident (-1) <$> rows))
    as [[] s2|e s2] eqn:Hrun; simpl in Hloop.
  - left. destruct (populateAccumulatedFields_loops _ _ _ Hrun) as [Hpass Hfr].
    exists (publish_acc <$> s2). split; [exact Hpass|].
    destruct (Hfields _ _ Hfr) as (Hi & Hp & _).
    rewrite <- !list_fmap_compose. split; [exact Hi | exact Hp].
  - right. destruct Hloop as [-> Hfr]. exists s2. split.
    + unfold Machine_populateAccumulatedFields.
      rewrite (bind_Ret _ _ rows (length rows) rows) by reflexivity.
      rewrite (bind_Ret _ _ _ _ _ (for_each_update _ rows)).
      apply bind_Abort. exact Hrun.
    + apply Hfields. eapply frame_trans; eassumption.
Qed.

(** X7: [Machine_populateAccumulatedFields] never reads or writes outside the
    vector and never fails an assertion: whatever the rows and the parent
    links are, it returns or it runs out of stack.  When it runs out of stack
    the identifiers, parents and resident values of all rows are as they
    were; when it returns, identifiers and parents are as they were. *)
Theorem accumulation_stays_in_vector (fuel : nat) (rows : Vector) :
  (exists rows',
     Machine_populateAccumulatedFields fuel rows = Ret tt rows' /\
     id <$> rows' = id <$> rows /\ parent <$> rows' = parent <$> rows) \/
  (exists rows',
     Machine_populateAccumulatedFields fuel rows = Abort OutOfFuel rows' /\
     id <$> rows' = id <$> rows /\ parent <$> rows' = parent <$> rows /\
     m_resident <$> rows' = m_resident <$> rows).
Proof. apply populateAccumulatedFields_outcome. Qed.

(** ** More on the scan *)

Section ScanMore.

Context {E : Type} {PC : PlatformClock E} {TC : TableClass E}.

Lemma refresh_all_registry (ts : list Table) (s : State E) :
  settings (this (refresh_all ts s)) = settings (this s) /\
  processTable (this (refresh_all ts s)) = processTable (this s) /\
  activeTable (this (refresh_all ts s)) = activeTable (this s).
Proof.
  revert s. induction ts as [|t ts IH]; intros s; [auto|].
  unfold refresh_all in *. simpl. destruct (IH (refresh_table s t)) as (-> & -> & ->).
  unfold refresh_table, refreshed. simpl. auto.
Qed.

Lemma advanced_registry (r : Run E) :
  settings (this (state (advanced r))) = settings (this (state r)) /\
  processTable (this (state (advanced r))) = processTable (this (state r)) /\
  activeTable (this (state (advanced r))) = activeTable (this (state r)).
Proof.
  unfold advanced. destruct (firstScanDone r); [|simpl; auto].
  destruct (Platform_gettime_monotonic (ext (state r))). simpl. auto.
Qed.

(** X8: of the machine, [Machine_scanTables] itself writes the two times and
    [maxUserId] only.  With methods of the tables that do not write the
    registry, a scan that returns leaves the settings, the process table, the
    active table and the tables registered as they were; and the scan is
    marked as done. *)
Theorem scan_keeps_registry (fuel : nat) (r r' : Run E) :
  Machine_scanTables fuel r = Ret tt r' ->
  settings (this (state r')) = settings (this (state r)) /\
  processTable (this (state r')) = processTable (this (state r)) /\
  activeTable (this (state r')) = activeTable (this (state r)) /\
  tables (this (state r')) = tables (this (state r)) /\
  firstScanDone r' = true.
Proof.
  intros Hrun. destruct (scanTables_inv _ _ _ Hrun) as (_ & rows' & _ & ->).
  cbn [state this firstScanDone].
  destruct (refresh_all_registry (tables (this (state r)))
              (mkState (set_maxUserId 0 (this (state (advanced r))))
                       (rows (state (advanced r))) (ext (state (advanced r)))))
    as (-> & -> & ->).
  destruct (refresh_all_clock (tables (this (state r)))
              (mkState (set_maxUserId 0 (this (state (advanced r))))
                       (rows (state (advanced r))) (ext (state (advanced r)))))
    as (-> & _).
  cbn [this]. destruct (advanced_registry r) as (Hs & Hp & Ha).
  pose proof (advanced_tables r) as Ht.
  unfold set_maxUserId. cbn [settings processTable activeTable tables].
  auto.
Qed.


(** X9: the ways in which a scan ends.  It returns; or the assertion on the
    times fails, on a scan that is not the first and reads a timestamp not
    above the time of the scan before, and no table has been refreshed; or
    the accumulation runs out of stack, after every table has been refreshed
    and before the width of the user column is set.  A scan never indexes
    outside the registry or outside the rows. *)
Theorem scan_outcomes (fuel : nat) (r : Run E) :
  (exists r', Machine_scanTables fuel r = Ret tt r') \/
  (Machine_scanTables fuel r = Abort AssertFail (advanced r) /\
   firstScanDone r = true /\
   fst (Platform_gettime_monotonic (ext (state r))) <= monotonicMs (this (state r)) /\
   calls (advanced r) = calls r ++ [EvGettimeMonotonic]) \/
  (exists r',
     Machine_scanTables fuel r = Abort OutOfFuel r' /\
     calls r' =
     calls (advanced r) ++ [EvResetFieldWidths] ++
     flat_map table_calls (tables (this (state r)))).
Proof.
  rewrite scanTables_run. cbv zeta. rewrite advanced_tables.
  pose proof (advanced_clock r) as [_ Hclk].
  destruct (bool_decide_reflect
              (monotonicMs (this (state (advanced r))) >
               prevMonotonicMs (this (state (advanced r))))) as [Hgt|Hle].
  - match goal with
    | |- context [Machine_populateAccumulatedFields fuel ?x] =>
      destruct (populateAccumulatedFields_outcome fuel x) as [(rows' & -> & _)|(rows' & -> & _)]
    end.
    + left. eexists. reflexivity.
    + right. right. eexists. split; [reflexivity|]. reflexivity.
  - right. left. split; [reflexivity|].
    destruct (firstScanDone r).
    + destruct Hclk as (Hp & Hm & Hc). split; [reflexivity|]. split; [lia | exact Hc].
    + destruct Hclk as (Hp & Hm & _). lia.
Qed.

(** X10: a scan returns when the clock has advanced (or the scan is the
    first), the refresh of the tables leaves resident values that are not
    negative, and the stack holds one call more than there are rows.  The
    rows it leaves have accumulated values that are not negative, copied over
    the resident values. *)
Theorem scan_returns (fuel : nat) (r : Run E) :
  firstScanDone r = false \/
  monotonicMs (this (state r)) < fst (Platform_gettime_monotonic (ext (state r))) ->
  let r1 := advanced r in
  let s2 := refresh_all (tables (this (state r)))
              (mkState (set_maxUserId 0 (this (state r1))) (rows (state r1))
                       (ext (state r1))) in
  Forall (fun p => 0 <= m_resident p) (rows s2) ->
  (length (rows s2) < fuel)%nat ->
  exists r',
    Machine_scanTables fuel r = Ret tt r' /\
    length (rows (state r')) = length (rows s2) /\
    Forall (fun p => 0 <= m_accResident p /\ m_resident p = m_accResident p)
           (rows (state r')).
Proof.
  intros Hok r1 s2 Hraw Hfuel. subst r1 s2.
  rewrite scanTables_run. cbv zeta. rewrite advanced_tables.
  pose proof (advanced_clock r) as [_ Hclk].
  rewrite bool_decide_eq_true_2.
  2:{ destruct (firstScanDone r).
      - destruct Hclk as (-> & -> & _). destruct Hok as [Hok|Hok]; [discriminate | lia].
      - destruct Hclk as (-> & -> & _). lia. }
  destruct (populateAccumulatedFields_nonneg _ fuel Hraw Hfuel) as (rows' & Hrun & Hlen & Hacc).
  rewrite Hrun. eexists. split; [reflexivity|]. cbn [state rows].
  split; [exact Hlen|].
  destruct (populateAccumulatedFields_inv _ _ _ Hrun) as (s3 & _ & ->).
  apply Forall_fmap, Forall_forall. intros p Hp. unfold compose. simpl.
  split; [|reflexivity].
  rewrite Forall_fmap, Forall_forall in Hacc. apply (Hacc p Hp).
Qed.


(** X11: nothing of [maxUserId] passes from one scan to the next: a scan that
    returns leaves the same run, and sets the same width of the user column,
    whatever [maxUserId] was before. *)
Theorem scan_forgets_maxUserId (fuel : nat) (r r' : Run E) (uid : Z) :
  Machine_scanTables fuel r = Ret tt r' ->
  Machine_scanTables fuel
    (mkRun (mkState (set_maxUserId uid (this (state r))) (rows (state r)) (ext (state r)))
           (firstScanDone r) (calls r)) = Ret tt r'.
Proof.
  intros Hrun. rewrite scanTables_run in *. cbv zeta in *.
  destruct r as [[m rs e] f c]. destruct m as [st pt at_ ts pv mo mu].
  unfold advanced in *. cbn [state this rows ext firstScanDone calls] in *.
  unfold set_maxUserId, set_monotonicMs, set_prevMonotonicMs in *.
  destruct f.
  - destruct (Platform_gettime_monotonic e) as [ms e'].
    cbn [state this rows ext firstScanDone calls settings processTable
         activeTable tables prevMonotonicMs monotonicMs maxUserId] in *.
    destruct (bool_decide _); [exact Hrun | discriminate].
  - cbn [state this rows ext firstScanDone calls settings processTable
         activeTable tables prevMonotonicMs monotonicMs maxUserId] in *.
    destruct (bool_decide _); [exact Hrun | discriminate].
Qed.


(** X12: in a sequence of scans the times grow: the time after a scan is
    below the time after every later scan of the sequence. *)
Theorem times_increase (fuel k : nat) (r0 r' : Run E) (history : list (Run E)) :
  scan_cycles fuel k r0 = Ret history r' ->
  forall j j' rj rj',
    (j < j')%nat -> history !! j = Some rj -> history !! j' = Some rj' ->
    monotonicMs (this (state rj)) < monotonicMs (this (state rj')).
Proof.
  intros Hrun j j' rj rj' Hlt. revert rj'.
  induction Hlt as [|j' Hle IH]; intros rj' Hj Hj'.
  - destruct (scan_cycles_clock fuel k r0 r' history Hrun (S j) rj' Hj')
      as (_ & Hgt & _ & Hprev).
    destruct (Hprev j rj eq_refl Hj) as [Hp _]. lia.
  - assert (is_Some (history !! j')) as [rm Hm].
    { apply lookup_lt_is_Some. apply lookup_lt_Some in Hj'. lia. }
    specialize (IH rm Hj Hm).
    destruct (scan_cycles_clock fuel k r0 r' history Hrun (S j') rj' Hj')
      as (_ & Hgt & _ & Hprev).
    destruct (Hprev j' rm eq_refl Hm) as [Hp _]. lia.
Qed.


End ScanMore.

Lemma scan_keeps_registry_witness :
  settings (this (state demo_second)) = settings (this (state demo_first)) /\
  processTable (this (state demo_second)) = processTable (this (state demo_first)) /\
  activeTable (this (state demo_second)) = activeTable (this (state demo_first)) /\
  tables (this (state demo_second)) = tables (this (state demo_first)) /\
  firstScanDone demo_second = true.
Proof.
  apply (scan_keeps_registry 3 demo_first demo_second).
  vm_compute. reflexivity.
Defined.

Lemma scan_returns_witness :
  exists r',
    Machine_scanTables 3 demo_first = Ret tt r' /\
    length (rows (state r')) =
    length (rows (refresh_all (tables (this (state demo_first)))
                    (mkState (set_maxUserId 0 (this (state (advanced demo_first))))
                             (rows (state (advanced demo_first)))
                             (ext (state (advanced demo_first)))))) /\
    Forall (fun p => 0 <= m_accResident p /\ m_resident p = m_accResident p)
           (rows (state r')).
Proof.
  apply (scan_returns 3 demo_first).
  - right. vm_compute. reflexivity.
  - vm_compute. repeat constructor; discriminate.
  - vm_compute. lia.
Defined.

Lemma scan_forgets_maxUserId_witness :
  Machine_scanTables 3
    (mkRun (mkState (set_maxUserId 77 (this (state demo_first)))
                    (rows (state demo_first)) (ext (state demo_first)))
           (firstScanDone demo_first) (calls demo_first)) = Ret tt demo_second.
Proof.
  apply (scan_forgets_maxUserId 3 demo_first demo_second 77).
  vm_compute. reflexivity.
Defined.

Lemma times_increase_witness :
  monotonicMs (this (state demo_first)) < monotonicMs (this (state demo_second)).
Proof.
  refine (times_increase 3 2 demo_run demo_second [demo_first; demo_second] _
            0%nat 1%nat demo_first demo_second _ _ _).
  - vm_compute. reflexivity.
  - lia.
  - reflexivity.
  - reflexivity.
Defined.

(** ** Rows that name themselves as parent *)

Lemma other_edge_lt s k i :
  other_edge s k i -> (k < length s)%nat /\ (i < length s)%nat.
Proof. intros [_ He]. apply (parent_edge_lt _ _ _ He). Qed.

Lemma is_child_other_edge (s : Vector) (i k : nat) :
  (k < length s)%nat -> (i < length s)%nat ->
  is_child s i k = true -> other_edge s k i.
Proof.
  intros Hk Hi H. split.
  - unfold is_child in H. apply bool_decide_eq_true in H. tauto.
  - apply is_child_edge; assumption.
Qed.

Lemma frame_other_edge s s' k i :
  frame s s' -> other_edge s k i -> other_edge s' k i.
Proof. intros Hf [Hne He]. split; [exact Hne|]. eapply frame_parent_edge; eassumption. Qed.

Lemma others_chain_length s stack cur :
  chain_of_others s stack cur -> (length stack < length s)%nat.
Proof.
  intros (Hnd & Hcur & Hst).
  assert (length (cur :: stack) <= length s)%nat as H.
  { apply bounded_NoDup_length; [exact Hnd|].
    intros a Ha. apply elem_of_cons in Ha as [->|Ha]; [exact Hcur|].
    apply Hst, Ha. }
  simpl in H. lia.
Qed.

Lemma others_chain_nil (s : Vector) (cur : nat) : (cur < length s)%nat -> chain_of_others s [] cur.
Proof.
  intros H. split; [|split; [exact H|]].
  - apply NoDup_singleton.
  - intros a Ha. apply elem_of_nil in Ha. contradiction.
Qed.

Lemma others_chain_push s stack cur k :
  forest_of_others s -> chain_of_others s stack cur -> other_edge s k cur ->
  chain_of_others s (cur :: stack) k.
Proof.
  intros Hac (Hnd & Hcur & Hst) He.
  assert (forall a, a ∈ cur :: stack -> (a < length s)%nat /\ tc (other_edge s) k a) as Hall.
  { intros a Ha. apply elem_of_cons in Ha as [->|Ha].
    - split; [exact Hcur | apply tc_once, He].
    - destruct (Hst a Ha) as [Hlt Htc]. split; [exact Hlt|].
      eapply tc_l; eassumption. }
  split; [|split; [apply (other_edge_lt _ _ _ He) | exact Hall]].
  apply NoDup_cons. split; [|exact Hnd].
  intros Hin. apply (Hac k). apply Hall, Hin.
Qed.

Lemma others_subtree_total_stable (s : Vector) :
  forest_of_others s ->
  forall d d' stack i, chain_of_others s stack i ->
    (length s < d + length stack)%nat -> (length s < d' + length stack)%nat ->
    subtree_total d s i = subtree_total d' s i.
Proof.
  intros Hac. induction d as [|d IH]; intros d' stack i Hch Hd Hd'.
  { apply others_chain_length in Hch. lia. }
  destruct d' as [|d']; [apply others_chain_length in Hch; lia|].
  simpl. f_equal. apply sumZ_ext. intros k Hk.
  destruct (is_child s i k) eqn:Hc; [|reflexivity].
  apply elem_of_seq in Hk.
  apply (IH d' (i :: stack) k).
  - apply others_chain_push; [exact Hac | exact Hch |].
    apply is_child_other_edge; [lia | exact (proj1 (proj2 Hch)) | exact Hc].
  - simpl. lia.
  - simpl. lia.
Qed.

Lemma others_subtree_total_eq (s : Vector) (i : nat) :
  forest_of_others s -> (i < length s)%nat ->
  subtree_total (S (length s)) s i =
  rawAt s i +
  sumZ (fun k => if is_child s i k then subtree_total (S (length s)) s k else 0)
       (seq 0 (length s)).
Proof.
  intros Hac Hi. simpl. f_equal. apply sumZ_ext. intros k Hk.
  destruct (is_child s i k) eqn:Hc; [|reflexivity].
  apply elem_of_seq in Hk.
  change (subtree_total (length s) s k = subtree_total (S (length s)) s k).
  apply (others_subtree_total_stable s Hac _ _ [i] k).
  - apply others_chain_push; [exact Hac | apply others_chain_nil, Hi |].
    apply is_child_other_edge; [lia | exact Hi | exact Hc].
  - simpl. lia.
  - simpl. lia.
Qed.

Section Others.

Variable s0 : Vector.
Hypothesis Hacyc : forest_of_others s0.

Let n := length s0.
Let T (i : nat) : Z := subtree_total (S n) s0 i.
Let E := other_edge s0.

Lemma others_T_eq (i : nat) :
  (i < n)%nat ->
  T i = rawAt s0 i + sumZ (fun k => if is_child s0 i k then T k else 0) (seq 0 n).
Proof. intros Hi. apply others_subtree_total_eq; assumption. Qed.

Lemma populate_others :
  forall fuel stack cur s,
    frame s0 s -> chain_of_others s0 stack cur -> (n < fuel + length stack)%nat ->
    (forall j, rtc E j cur -> accAt s j = -1 \/ accAt s j = T j) ->
    exists s',
      Machine_populateAccForProcess fuel n cur s = Ret (T cur) s' /\
      frame s0 s' /\ accAt s' cur = T cur /\
      forall j, accAt s' j = accAt s j \/ (rtc E j cur /\ accAt s' j = T j).
Proof.
  induction fuel as [|f IH]; intros stack cur s Hfr Hch Hfuel Hpre.
  { apply others_chain_length in Hch. fold n in Hch. lia. }
  pose proof Hch as (Hnd & Hcur & Hst).
  destruct (lookup_lt_frame s0 s cur Hfr Hcur) as [p Hp].
  destruct (lookup_At _ _ _ Hp) as (Hid & Hpar & Hraw & Hacc).
  rewrite populate_unfold, (bind_Ret _ _ _ _ _ (Vector_get_Some _ _ _ Hp)).
  destruct (bool_decide_reflect (m_accResident p <> -1)) as [Hne|Heq].
  { destruct (Hpre cur) as [H|H]; [reflexivity | congruence |].
    exists s. unfold ret. rewrite <- Hacc, H. auto. }
  assert (m_accResident p = -1) as Hm1 by (destruct (decide (m_accResident p = -1)); tauto).
  clear Heq.
  rewrite (bind_Ret _ _ _ _ _ (Process_update_Some _ _ _ _ Hp)).
  set (s1 := <[cur := set_accResident (m_resident p) p]> s).
  assert (frame s s1) as Hfr1 by (eapply frame_insert; [exact Hp | reflexivity]).
  assert (cur < length s)%nat as Hcur' by (eapply lookup_lt_Some; eassumption).
  destruct (frame_shapeAt _ _ cur Hfr) as (Hid0 & Hpar0 & Hraw0).
  destruct (for_each_inv
    (fun done s' =>
       frame s0 s' /\
       accAt s' cur = rawAt s0 cur + sumZ (fun k => if is_child s0 cur k then T k else 0) done /\
       forall j, j <> cur -> accAt s' j = accAt s j \/ (tc E j cur /\ accAt s' j = T j))
    (accumulate_child (Machine_populateAccForProcess f n) cur (id p))
    (seq 0 n) s1) as (s2 & Hrun & Hfr2 & Hacc2 & Hoth2).
  - (* the invariant holds at loop entry *)
    split; [eapply frame_trans; eassumption|]. split.
    + unfold s1. rewrite accAt_insert by exact Hcur'.
      rewrite decide_True by reflexivity. simpl. lia.
    + intros j Hj. left. unfold s1. rewrite accAt_insert by exact Hcur'.
      rewrite decide_False by exact Hj. reflexivity.
  - (* one iteration *)
    intros done i rest sa Hl (Hfa & Hacca & Hotha).
    assert (i < n)%nat as Hi.
    { assert (i ∈ seq 0 n) as Hin by (rewrite Hl; apply elem_of_app; right; left).
      apply elem_of_seq in Hin. lia. }
    unfold accumulate_child.
    destruct (bool_decide_reflect (i = cur)) as [->|Hic].
    { exists sa. split; [reflexivity|]. split; [exact Hfa|]. split; [|exact Hotha].
      rewrite sumZ_app. simpl. unfold is_child at 2.
      rewrite bool_decide_eq_false_2 by tauto. lia. }
    destruct (lookup_lt_frame s0 sa i Hfa Hi) as [r Hr].
    rewrite (bind_Ret _ _ _ _ _ (Vector_get_Some _ _ _ Hr)).
    destruct (lookup_At _ _ _ Hr) as (_ & Hrpar & _).
    destruct (frame_shapeAt _ _ i Hfa) as (_ & Hpari & _).
    assert (bool_decide (parent r = id p) = is_child s0 cur i) as Hck.
    { unfold is_child. apply bool_decide_ext. split.
      - intros Heq. split; [exact Hic | congruence].
      - intros [_ Heq]. congruence. }
    rewrite Hck. destruct (is_child s0 cur i) eqn:Hchild.
    2:{ exists sa. split; [reflexivity|]. split; [exact Hfa|]. split; [|exact Hotha].
        rewrite sumZ_app. simpl. rewrite Hchild. lia. }
    assert (E i cur) as Hedge by (apply is_child_other_edge; assumption).
    destruct (IH (cur :: stack) i sa) as (sb & Hcall & Hfb & Haccb & Hothb).
    + exact Hfa.
    + apply others_chain_push; assumption.
    + simpl. lia.
    + intros j Hj.
      assert (tc E j cur) as Htc by (eapply tc_rtc_l; [exact Hj | apply tc_once, Hedge]).
      assert (j <> cur) as Hne by (intros ->; exact (Hacyc _ Htc)).
      destruct (Hotha j Hne) as [->|[_ ->]]; [|right; reflexivity].
      apply Hpre. apply tc_rtc. exact Htc.
    + rewrite (bind_Ret _ _ _ _ _ Hcall).
      destruct (lookup_lt_frame s0 sb cur Hfb Hcur) as [pc Hpc].
      rewrite (Process_update_Some _ _ _ _ Hpc).
      assert (cur < length sb)%nat as Hcurb by (eapply lookup_lt_Some; eassumption).
      eexists. split; [reflexivity|]. split; [|split].
      * eapply frame_trans; [exact Hfb|]. eapply frame_insert; [exact Hpc | reflexivity].
      * rewrite accAt_insert by exact Hcurb. rewrite decide_True by reflexivity. simpl.
        destruct (lookup_At _ _ _ Hpc) as (_ & _ & _ & <-).
        rewrite sumZ_app. simpl. rewrite Hchild.
        destruct (Hothb cur) as [->|[Hrt _]]; [lia|].
        exfalso. apply (Hacyc cur). eapply tc_rtc_l; [exact Hrt | apply tc_once, Hedge].
      * intros j Hj. rewrite accAt_insert by exact Hcurb.
        rewrite decide_False by exact Hj.
        destruct (Hothb j) as [->|[Hrt ->]]; [apply Hotha, Hj|].
        right. split; [|reflexivity].
        eapply tc_rtc_l; [exact Hrt | apply tc_once, Hedge].
  - (* after the loop *)
    rewrite (bind_Ret _ _ _ _ _ Hrun).
    destruct (lookup_lt_frame s0 s2 cur Hfr2 Hcur) as [p2 Hp2].
    rewrite (bind_Ret _ _ _ _ _ (Vector_get_Some _ _ _ Hp2)).
    destruct (lookup_At _ _ _ Hp2) as (_ & _ & _ & Hacc2').
    assert (accAt s2 cur = T cur) as HT by (rewrite Hacc2, others_T_eq by exact Hcur; reflexivity).
    exists s2. unfold ret. rewrite <- Hacc2', HT.
    split; [reflexivity|]. split; [exact Hfr2|]. split; [reflexivity|].
    intros j. destruct (decide (j = cur)) as [->|Hne].
    + right. split; [reflexivity | exact HT].
    + destruct (Hoth2 j Hne) as [H|[Htc H]]; [left; exact H|].
      right. split; [apply tc_rtc, Htc | exact H].
Qed.

End Others.

Lemma frame_forest_of_others s s' : frame s s' -> forest_of_others s -> forest_of_others s'.
Proof.
  intros Hf Hac i Htc. apply (Hac i).
  apply (tc_congruence (fun x : nat => x) (other_edge s)) in Htc; [exact Htc|].
  intros x y. apply frame_other_edge, frame_sym, Hf.
Qed.

Lemma accumulate_others (rows : Vector) (fuel : nat) :
  forest_of_others rows -> (length rows < fuel)%nat ->
  exists s2,
    for_each (seq 0 (length rows))
      (fun i => do _ <- Machine_populateAccForProcess fuel (length rows) i; ret tt)
      (set_accResident (-1) <$> rows) = Ret tt s2 /\
    frame rows s2 /\
    forall j, (j < length rows)%nat ->
      accAt s2 j = subtree_total (S (length rows)) rows j.
Proof.
  intros Hac Hfuel.
  set (s0 := set_accResident (-1) <$> rows).
  assert (frame rows s0) as Hfr0.
  { unfold frame, s0. rewrite <- list_fmap_compose. reflexivity. }
  assert (length s0 = length rows) as Hlen by apply (frame_length _ _ Hfr0).
  assert (forest_of_others s0) as Hac0 by (eapply frame_forest_of_others; eassumption).
  assert (forall j, subtree_total (S (length s0)) s0 j =
                    subtree_total (S (length rows)) rows j) as HT.
  { intros j. rewrite Hlen. apply frame_subtree_total, Hfr0. }
  destruct (for_each_inv
    (fun done s' =>
       frame s0 s' /\
       (forall j, (j < length s0)%nat ->
          accAt s' j = -1 \/ accAt s' j = subtree_total (S (length s0)) s0 j) /\
       (forall j, j ∈ done -> accAt s' j = subtree_total (S (length s0)) s0 j))
    (fun i => do _ <- Machine_populateAccForProcess fuel (length rows) i; ret tt)
    (seq 0 (length rows)) s0) as (s2 & Hrun & Hfr2 & _ & Hdone).
  - split; [apply frame_refl|]. split.
    + intros j Hj. left. destruct (lookup_lt_is_Some_2 _ _ Hj) as [p Hp].
      destruct (lookup_At _ _ _ Hp) as (_ & _ & _ & ->).
      unfold s0 in Hp. apply list_lookup_fmap_Some_1 in Hp as (q & -> & _).
      reflexivity.
    + intros j Hj. apply elem_of_nil in Hj. contradiction.
  - intros done i rest s1 Hl (Hf1 & Hall & Hd).
    assert (i < length s0)%nat as Hi.
    { assert (i ∈ seq 0 (length rows)) as Hin by (rewrite Hl; apply elem_of_app; right; left).
      apply elem_of_seq in Hin. lia. }
    destruct (populate_others s0 Hac0 fuel [] i s1 Hf1) as (sb & Hcall & Hfb & Hacc & Hoth).
    + apply others_chain_nil, Hi.
    + simpl. lia.
    + intros j Hj. apply Hall.
      apply rtc_tc in Hj as [->|Htc]; [exact Hi|].
      apply tc_rtc, rtc_inv in Htc as [->|(y & He & _)]; [exact Hi|].
      apply (other_edge_lt _ _ _ He).
    + rewrite <- Hlen. rewrite (bind_Ret _ _ _ _ _ Hcall).
      exists sb. split; [reflexivity|]. split; [exact Hfb|]. split.
      * intros j Hj. destruct (Hoth j) as [->|[_ ->]]; [apply Hall, Hj | right; reflexivity].
      * intros j Hj. apply elem_of_app in Hj as [Hj|Hj].
        -- destruct (Hoth j) as [->|[_ ->]]; [apply Hd, Hj | reflexivity].
        -- apply list_elem_of_singleton in Hj as ->. exact Hacc.
  - exists s2. split; [exact Hrun|]. split; [eapply frame_trans; eassumption|].
    intros j Hj. rewrite <- HT. apply Hdone. apply elem_of_seq. lia.
Qed.

Lemma ranked_others_forest (rank : nat -> nat) (s : Vector) :
  ranked_others rank s = true -> forest_of_others s.
Proof.
  intros Hr.
  assert (forall k i, other_edge s k i -> (rank k < rank i)%nat) as Hedge.
  { intros k i [Hne He]. destruct (parent_edge_lt _ _ _ He) as [Hk Hi].
    apply parent_edge_At in He; [|exact Hk|exact Hi].
    unfold ranked_others in Hr. rewrite forallb_forall in Hr.
    specialize (Hr k). rewrite forallb_forall in Hr.
    assert (In k (seq 0 (length s))) as Hink by (apply in_seq; lia).
    assert (In i (seq 0 (length s))) as Hini by (apply in_seq; lia).
    specialize (Hr Hink i Hini).
    rewrite bool_decide_eq_false_2 in Hr by exact Hne.
    rewrite bool_decide_eq_true_2 in Hr by exact He. simpl in Hr.
    apply Nat.ltb_lt in Hr. exact Hr. }
  assert (forall k i, tc (other_edge s) k i -> (rank k < rank i)%nat) as Htc.
  { intros k i H. induction H as [k i He|k j i He _ IH].
    - apply Hedge, He.
    - apply Hedge in He. lia. }
  intros i Hi. apply Htc in Hi. lia.
Qed.

Lemma acyclic_forest_of_others (s : Vector) : acyclic s -> forest_of_others s.
Proof.
  intros Hac i Htc. apply (Hac i).
  assert (forall x y, tc (other_edge s) x y -> tc (parent_edge s) x y) as H.
  { intros x y Hxy. induction Hxy as [x y [_ He]|x y z [_ He] _ IH].
    - apply tc_once, He.
    - eapply tc_l; [exact He | exact IH]. }
  apply H, Htc.
Qed.

Lemma accAt_publish (s : Vector) (k : nat) : accAt (publish_acc <$> s) k = accAt s k.
Proof.
  unfold accAt. rewrite list_lookup_fmap. destruct (s !! k); reflexivity.
Qed.

(** X13: the loop of [Machine_populateAccForProcess] skips the row being
    computed, so a row that names itself as its parent does not count itself.
    When no row is an ancestor of itself through other rows (every forest is
    such a row set, and rows may also name themselves as parent), the pass
    returns and leaves in every row its resident value before the pass plus
    the accumulated values of the other rows that name it as parent; a row
    that no other row names keeps its own value. *)
Theorem accumulation_skips_own_row (rows : Vector) (fuel : nat) :
  forest_of_others rows -> (length rows < fuel)%nat ->
  exists rows',
    Machine_populateAccumulatedFields fuel rows = Ret tt rows' /\
    length rows' = length rows /\
    forall i p p', rows !! i = Some p -> rows' !! i = Some p' ->
      m_accResident p' =
      m_resident p +
      sumZ (fun k => if bool_decide (k <> i /\ parentAt rows k = id p)
                     then accAt rows' k else 0)
           (seq 0 (length rows)) /\
      ((forall k, (k < length rows)%nat -> k <> i -> parentAt rows k <> id p) ->
       m_accResident p' = m_resident p).
Proof.
  intros Hac Hfuel.
  destruct (accumulate_others rows fuel Hac Hfuel) as (s2 & Hloop & Hfr & HT).
  destruct (populateAccumulatedFields_loops _ _ _ Hloop) as [Hrun _].
  exists (publish_acc <$> s2). split; [exact Hrun|]. split.
  { rewrite length_fmap. apply (frame_length _ _ Hfr). }
  intros i p p' Hp Hp'.
  assert (i < length rows)%nat as Hi by (eapply lookup_lt_Some; eassumption).
  apply list_lookup_fmap_Some_1 in Hp' as (p2 & -> & Hp2).
  destruct (lookup_At _ _ _ Hp2) as (_ & _ & _ & Hacc2).
  destruct (lookup_At _ _ _ Hp) as (Hid & _ & Hraw & _).
  assert (m_accResident (publish_acc p2) =
          m_resident p +
          sumZ (fun k => if bool_decide (k <> i /\ parentAt rows k = id p)
                         then accAt (publish_acc <$> s2) k else 0)
               (seq 0 (length rows))) as Heq.
  { change (m_accResident (publish_acc p2)) with (m_accResident p2).
    rewrite <- Hacc2, (HT i Hi), (others_subtree_total_eq rows i Hac Hi), Hraw.
    f_equal. apply sumZ_ext. intros k Hk. apply elem_of_seq in Hk.
    unfold is_child. rewrite Hid.
    destruct (bool_decide (k <> i /\ parentAt rows k = id p)); [|reflexivity].
    rewrite accAt_publish, HT by lia. reflexivity. }
  split; [exact Heq|].
  intros Hnone. rewrite Heq.
  rewrite (sumZ_ext _ (fun _ => 0)).
  - rewrite sumZ_zero. lia.
  - intros k Hk. apply elem_of_seq in Hk.
    rewrite bool_decide_eq_false_2; [reflexivity|].
    intros [Hne Hpar]. apply (Hnone k); [lia | exact Hne | exact Hpar].
Qed.

Lemma accumulation_skips_own_row_witness :
  exists rows',
    Machine_populateAccumulatedFields 4 with_own_parent = Ret tt rows' /\
    length rows' = length with_own_parent /\
    forall i p p', with_own_parent !! i = Some p -> rows' !! i = Some p' ->
      m_accResident p' =
      m_resident p +
      sumZ (fun k => if bool_decide (k <> i /\ parentAt with_own_parent k = id p)
                     then accAt rows' k else 0)
           (seq 0 (length with_own_parent)) /\
      ((forall k, (k < length with_own_parent)%nat -> k <> i ->
                  parentAt with_own_parent k <> id p) ->
       m_accResident p' = m_resident p).
Proof.
  apply (accumulation_skips_own_row with_own_parent 4).
  - apply (ranked_others_forest (fun i => 3 - i)%nat). vm_compute. reflexivity.
  - simpl. lia.
Defined.

(** The first row is its own parent: it gets its value and the totals of the
    other rows below it, 55, not more. *)
Example with_own_parent_accumulated :
  Machine_populateAccumulatedFields 4 with_own_parent =
  Ret tt [mkProcess 0 0 55 55; mkProcess 1 0 15 15; mkProcess 2 1 5 5].
Proof. vm_compute. reflexivity. Qed.

(** ** Accumulated values are not below the resident values *)

Lemma populate_grows (rows : Vector) :
  Forall (fun p => 0 <= m_resident p) rows ->
  forall fuel cur s v s',
    (cur < length rows)%nat -> grown rows s ->
    Machine_populateAccForProcess fuel (length rows) cur s = Ret v s' ->
    grown rows s' /\
    (forall j, (j < length rows)%nat ->
       rawAt rows j <= accAt s j -> rawAt rows j <= accAt s' j) /\
    rawAt rows cur <= accAt s' cur /\ 0 <= v.
Proof.
  intros Hraw.
  assert (forall j, (j < length rows)%nat -> 0 <= rawAt rows j) as Hraw'.
  { intros j Hj. destruct (lookup_lt_is_Some_2 _ _ Hj) as [q Hq].
    destruct (lookup_At _ _ _ Hq) as (_ & _ & -> & _).
    rewrite Forall_forall in Hraw. apply Hraw. eapply list_elem_of_lookup_2, Hq. }
  induction fuel as [|f IH]; intros cur s v s' Hcur [Hfr Hg] Hrun; [discriminate|].
  rewrite populate_unfold in Hrun.
  apply bind_inv in Hrun as (row & s1 & Hget & Hrun).
  apply Vector_get_inv in Hget as [Hrow ->].
  destruct (lookup_At _ _ _ Hrow) as (_ & _ & Hrraw & Hracc).
  destruct (frame_shapeAt _ _ cur Hfr) as (_ & _ & Hraw0).
  destruct (bool_decide_reflect (m_accResident row <> -1)) as [Hne|Heq].
  { injection Hrun as <- <-.
    destruct (Hg cur Hcur) as [H|H]; [congruence|].
    split; [split; assumption|]. split; [auto|]. split; [exact H|].
    rewrite <- Hracc. specialize (Hraw' cur Hcur). lia. }
  apply bind_inv in Hrun as ([] & s1 & Hupd & Hrun).
  apply Process_update_inv in Hupd as (p & Hp & ->).
  assert (p = row) as -> by congruence. clear Hp.
  assert (cur < length s)%nat as Hcurs by (eapply lookup_lt_Some; eassumption).
  set (s1 := <[cur := set_accResident (m_resident row) row]> s) in *.
  assert (frame rows s1) as Hfr1.
  { apply (frame_trans _ s); [exact Hfr|]. eapply frame_insert; [exact Hrow | reflexivity]. }
  assert (rawAt rows cur <= accAt s1 cur) as Hcur1.
  { unfold s1. rewrite accAt_insert by exact Hcurs. rewrite decide_True by reflexivity.
    simpl. lia. }
  apply bind_inv in Hrun as ([] & s3 & Hloop & Hrun).
  apply bind_inv in Hrun as (process & s4 & Hget & Hret).
  apply Vector_get_inv in Hget as [Hproc ->]. injection Hret as <- <-.
  destruct (lookup_At _ _ _ Hproc) as (_ & _ & _ & Hpacc).
  assert (grown rows s3 /\
          forall j, (j < length rows)%nat ->
            rawAt rows j <= accAt s1 j -> rawAt rows j <= accAt s3 j) as [Hg3 Hst3].
  { refine (for_each_post
              (fun sa => grown rows sa /\
                         forall j, (j < length rows)%nat ->
                           rawAt rows j <= accAt s1 j -> rawAt rows j <= accAt sa j)
              _ _ _ s1 s3 _ Hloop).
    - intros i sa sb Hi [[Hfa Hga] Hsta] Hbody. apply elem_of_seq in Hi.
      unfold accumulate_child in Hbody.
      destruct (bool_decide (i = cur));
        [injection Hbody as <-; split; [split|]; assumption|].
      apply bind_inv in Hbody as (r & sc & Hget & Hbody).
      apply Vector_get_inv in Hget as [Hr ->].
      destruct (bool_decide (parent r = id row));
        [|injection Hbody as <-; split; [split|]; assumption].
      apply bind_inv in Hbody as (w & sd & Hcall & Hupd).
      apply Process_update_inv in Hupd as (pc & Hpc & ->).
      destruct (IH i sa w sd) as ([Hfd Hgd] & Hstd & _ & Hw);
        [lia | split; assumption | exact Hcall |].
      assert (cur < length sd)%nat as Hcurd by (eapply lookup_lt_Some; eassumption).
      destruct (lookup_At _ _ _ Hpc) as (_ & _ & _ & Hpcacc).
      assert (rawAt rows cur <= accAt sd cur) as Hcurd'.
      { apply Hstd; [exact Hcur|]. apply Hsta; [exact Hcur | exact Hcur1]. }
      split; [split|].
      + apply (frame_trans _ sd); [exact Hfd|].
        eapply frame_insert; [exact Hpc | reflexivity].
      + intros j Hj. rewrite accAt_insert by exact Hcurd.
        destruct (decide (j = cur)) as [->|Hne0]; [|apply Hgd, Hj].
        right. simpl. lia.
      + intros j Hj Hj1. rewrite accAt_insert by exact Hcurd.
        destruct (decide (j = cur)) as [->|Hne0]; [simpl; lia|].
        apply Hstd; [exact Hj|]. apply Hsta; assumption.
    - split; [split; [exact Hfr1|]|auto].
      intros j Hj. unfold s1. rewrite accAt_insert by exact Hcurs.
      destruct (decide (j = cur)) as [->|Hne0]; [right; simpl; lia | apply Hg, Hj]. }
  assert (rawAt rows cur <= accAt s3 cur) as Hcur3 by (apply Hst3; assumption).
  split; [exact Hg3|]. split; [|split; [exact Hcur3|]].
  - intros j Hj Hjs. destruct (decide (j = cur)) as [->|Hne0]; [exact Hcur3|].
    apply Hst3; [exact Hj|]. unfold s1. rewrite accAt_insert by exact Hcurs.
    rewrite decide_False by exact Hne0. exact Hjs.
  - rewrite <- Hpacc. specialize (Hraw' cur Hcur). lia.
Qed.

(** X14: resident values only grow in the pass.  On resident values that are
    not negative, whatever the parent links are, the pass returns and the
    accumulated value of every row, which is also its resident value after
    the pass, is not below its resident value before the pass. *)
Theorem accumulated_at_least_resident (rows : Vector) (fuel : nat) :
  Forall (fun p => 0 <= m_resident p) rows -> (length rows < fuel)%nat ->
  exists rows',
    Machine_populateAccumulatedFields fuel rows = Ret tt rows' /\
    forall i p p', rows !! i = Some p -> rows' !! i = Some p' ->
      m_resident p <= m_accResident p' /\ m_resident p <= m_resident p'.
Proof.
  intros Hraw Hfuel.
  destruct (populateAccumulatedFields_nonneg rows fuel Hraw Hfuel)
    as (rows' & Hrun & _ & Hnn).
  exists rows'. split; [exact Hrun|].
  destruct (populateAccumulatedFields_inv _ _ _ Hrun) as (s2 & Hloop & ->).
  assert (grown rows (set_accResident (-1) <$> rows)) as Hentry.
  { split; [unfold frame; rewrite <- list_fmap_compose; reflexivity|].
    intros j Hj. left. unfold accAt. rewrite list_lookup_fmap.
    destruct (lookup_lt_is_Some_2 _ _ Hj) as [q ->]. reflexivity. }
  assert (grown rows s2) as [Hfr Hg].
  { refine (for_each_post (grown rows) _ _ _ _ _ Hentry Hloop).
    intros i sa sb Hi Hga Hbody. apply elem_of_seq in Hi.
    apply bind_inv in Hbody as (v & sc & Hcall & Hret). injection Hret as <-.
    apply (populate_grows rows Hraw fuel i sa v sc); [lia | exact Hga | exact Hcall]. }
  intros i p p' Hp Hp'.
  assert (i < length rows)%nat as Hi by (eapply lookup_lt_Some; eassumption).
  apply list_lookup_fmap_Some_1 in Hp' as (p2 & -> & Hp2).
  destruct (lookup_At _ _ _ Hp2) as (_ & _ & _ & Hacc2).
  destruct (lookup_At _ _ _ Hp) as (_ & _ & Hrw & _).
  assert (0 <= m_accResident p2) as Hpos.
  { rewrite Forall_fmap, Forall_forall in Hnn.
    apply (Hnn p2). eapply list_elem_of_lookup_2, Hp2. }
  assert (m_resident p <= m_accResident p2) as Hle.
  { destruct (Hg i Hi) as [H|H]; [rewrite Hacc2 in H; lia|].
    rewrite <- Hrw, <- Hacc2. exact H. }
  split; exact Hle.
Qed.

Lemma accumulated_at_least_resident_witness :
  exists rows',
    Machine_populateAccumulatedFields 4 cycle_with_child = Ret tt rows' /\
    forall i p p', cycle_with_child !! i = Some p -> rows' !! i = Some p' ->
      m_resident p <= m_accResident p' /\ m_resident p <= m_resident p'.
Proof.
  apply (accumulated_at_least_resident cycle_with_child 4).
  - repeat constructor; simpl; lia.
  - simpl. lia.
Defined.

(** ** The number of iterations *)

(** X15: the number of iterations of the loop of
    [Machine_populateAccForProcess] in one pass.  On [n] rows with resident
    values that are not negative the pass computes every row once and walks
    all the rows for it: the loop body runs [n * n] times, whatever the parent
    links are; the counted pass leaves the rows that the pass leaves. *)
Theorem accumulation_iterations (rows : Vector) (fuel : nat) :
  Forall (fun p => 0 <= m_resident p) rows -> (length rows < fuel)%nat ->
  exists rows',
    Machine_populateAccumulatedFields_counted fuel (mkCounted rows 0) =
    Ret tt (mkCounted rows' (length rows * length rows)) /\
    Machine_populateAccumulatedFields fuel rows = Ret tt rows'.
Proof.
  intros Hraw Hfuel.
  destruct (accumulate_counted_nonneg rows fuel 0 Hraw Hfuel) as (s2 & Hloop & Hfr & _).
  pose proof (populateAccumulatedFields_counted_loops _ _ _ _ _ Hloop
                (frame_length _ _ Hfr)) as Hrun.
  exists (publish_acc <$> s2). split; [exact Hrun|].
  pose proof (erase_populateAccumulatedFields fuel (mkCounted rows 0)) as Her.
  rewrite Hrun in Her. simpl in Her. symmetry. exact Her.
Qed.

Lemma accumulation_iterations_witness :
  exists rows',
    Machine_populateAccumulatedFields_counted 4 (mkCounted cycle_with_child 0) =
    Ret tt (mkCounted rows' (length cycle_with_child * length cycle_with_child)) /\
    Machine_populateAccumulatedFields 4 cycle_with_child = Ret tt rows'.
Proof.
  apply (accumulation_iterations cycle_with_child 4).
  - repeat constructor; simpl; lia.
  - simpl. lia.
Defined.
